(** * PtTransformer (libs/modeling/meta_archs.py): label assignment, offset
    decoding, losses, inference scores, postprocessing and the forward pass'
    feature fusion, embedded in Rocq.

    Tensors of floats are lists of rationals ([Q]): comparisons, sums and
    products are exact.  Where a claim is about NaN, the same generic code
    is run on IEEE binary64 floats ([PrimFloat]).  Where a property hinges
    on rounding (the tie rule of the label assignment), the code is
    embedded once more with the rounding of the tensors' dtype made
    explicit ([LabelAssignFp], with [Float32.round32] for float32). *)

From Stdlib Require Import QArith Qabs Lqa Lia List Bool Floats.
From stdpp Require Import gmap strings.
Import ListNotations.

Local Open Scope Q_scope.

(** ** Elementwise comparisons and min / max on rationals *)

Module Num.

(** [x < y] as torch computes it elementwise. *)
Definition Qltb (x y : Q) : bool := negb (Qle_bool y x).

(** [torch.maximum] / [torch.minimum] / [.max(-1)] / [.min(-1)] on two values. *)
Definition qmax (x y : Q) : Q := if Qle_bool x y then y else x.
Definition qmin (x y : Q) : Q := if Qle_bool x y then x else y.

(** [tensor.clamp_(min=lo, max=hi)] on one element. *)
Definition clamp (lo hi x : Q) : Q := qmin (qmax x lo) hi.

(** [tensor.sum()] *)
Definition qsum (l : list Q) : Q := fold_right Qplus 0 l.

(** [bool_tensor.to(dtype)] *)
Definition of_bool (b : bool) : Q := if b then 1 else 0.

End Num.

(** ** Label assignment ([label_points], [label_points_single_video]) *)

Module LabelAssign.
Import Num.

(** A grid point: one row [(t, reg_range_min, reg_range_max, stride)] of
    [concat_points]. *)
Record point : Type := mkPoint {
  pt_t : Q;
  pt_reg_min : Q;
  pt_reg_max : Q;
  pt_stride : Q
}.

(** A ground-truth segment: one row [(start, end)] of [gt_segment]. *)
Definition segment : Type := (Q * Q)%type.

(** [train_cfg['center_sample']], asserted to be ['radius'] or ['none']. *)
Inductive center_sample : Type := Radius | NoSample.

Record train_cfg : Type := mkTrainCfg {
  num_classes : nat;
  train_center_sample : center_sample;
  train_center_sample_radius : Q
}.

(** An entry of [lens] after the two [masked_fill_(.., float('inf'))]. *)
Inductive len_t : Type := Fin (d : Q) | Inf.

Definition len_ltb (a b : len_t) : bool :=
  match a, b with
  | Fin x, Fin y => Qltb x y
  | Fin _, Inf => true
  | Inf, _ => false
  end.

Definition len_leb (a b : len_t) : bool :=
  match a, b with
  | Fin x, Fin y => Qle_bool x y
  | _, Inf => true
  | Inf, Fin _ => false
  end.

Definition len_add (a : len_t) (e : Q) : len_t :=
  match a with Fin x => Fin (x + e) | Inf => Inf end.

Definition is_fin (a : len_t) : bool :=
  match a with Fin _ => true | Inf => false end.

Section SingleVideo.
Variable cfg : train_cfg.

(** [left = concat_points[:, 0, None] - gt_segs[:, :, 0]] *)
Definition left_dist (p : point) (s : segment) : Q := pt_t p - fst s.
(** [right = gt_segs[:, :, 1] - concat_points[:, 0, None]] *)
Definition right_dist (p : point) (s : segment) : Q := snd s - pt_t p.

(** [inside_gt_seg_mask], both branches of [train_center_sample]. *)
Definition inside_gt_seg_mask (p : point) (s : segment) : bool :=
  match train_center_sample cfg with
  | Radius =>
      let center_pts := 0.5 * (fst s + snd s) in
      let t_mins := center_pts - pt_stride p * train_center_sample_radius cfg in
      let t_maxs := center_pts + pt_stride p * train_center_sample_radius cfg in
      let cb_dist_left := pt_t p - qmax t_mins (fst s) in
      let cb_dist_right := qmin t_maxs (snd s) - pt_t p in
      Qltb 0 (qmin cb_dist_left cb_dist_right)
  | NoSample => Qltb 0 (qmin (left_dist p s) (right_dist p s))
  end.

(** [max_regress_distance = reg_targets.max(-1)[0]] *)
Definition max_regress_distance (p : point) (s : segment) : Q :=
  qmax (left_dist p s) (right_dist p s).

(** [inside_regress_range] *)
Definition inside_regress_range (p : point) (s : segment) : bool :=
  Qle_bool (pt_reg_min p) (max_regress_distance p s)
  && Qle_bool (max_regress_distance p s) (pt_reg_max p).

(** A segment is a candidate for a point when it passes both tests. *)
Definition candidate (p : point) (s : segment) : bool :=
  inside_gt_seg_mask p s && inside_regress_range p s.

(** One entry of [lens] after
    [lens.masked_fill_(inside_gt_seg_mask==0, inf)] and
    [lens.masked_fill_(inside_regress_range==0, inf)]. *)
Definition lens_entry (p : point) (s : segment) : len_t :=
  let len := snd s - fst s in
  let len := if inside_gt_seg_mask p s then Fin len else Inf in
  if inside_regress_range p s then len else Inf.

Definition lens_row (p : point) (gt_segment : list segment) : list len_t :=
  map (lens_entry p) gt_segment.

(** [lens.min(dim=1)] on one row: the minimum and the index of its first
    occurrence.  [row_min_from best bi i l] scans [l], whose head has index
    [i], with the running minimum [best] found at index [bi]. *)
Fixpoint row_min_from (best : len_t) (bi i : nat) (l : list len_t) : len_t * nat :=
  match l with
  | [] => (best, bi)
  | x :: r =>
      if len_ltb x best then row_min_from x i (S i) r
      else row_min_from best bi (S i) r
  end.

(** The row is never empty where the code takes its minimum ([num_gts > 0]);
    an empty row is mapped to [(Inf, 0)]. *)
Definition row_min (l : list len_t) : len_t * nat :=
  match l with
  | [] => (Inf, 0%nat)
  | x :: r => row_min_from x 0 1 r
  end.

(** One row of [min_len_mask]:
    [(lens <= min_len + 1e-3) and (lens < inf)], cast to the float dtype
    ([1e-3] is written [0.001]). *)
Definition min_len_mask_row (row : list len_t) : list Q :=
  let min_len := fst (row_min row) in
  map (fun l => of_bool (len_leb l (len_add min_len 0.001) && is_fin l)) row.

(** [F.one_hot(gt_label, n)] on one label; torch raises when a class value
    is not smaller than [n]. *)
Definition one_hot_row (n : nat) (label : nat) : list Q :=
  map (fun c => of_bool (c =? label)%nat) (seq 0 n).

Definition one_hot (n : nat) (label : nat) : option (list Q) :=
  if (label <? n)%nat then Some (one_hot_row n label) else None.

Fixpoint one_hot_all (n : nat) (gt_label : list nat) : option (list (list Q)) :=
  match gt_label with
  | [] => Some []
  | l :: r =>
      match one_hot n l, one_hot_all n r with
      | Some h, Some hs => Some (h :: hs)
      | _, _ => None
      end
  end.

(** A row vector times a matrix with [ncols] columns: [row @ M]. *)
Definition dot (v w : list Q) : Q := qsum (map (fun '(a, b) => a * b) (combine v w)).
Definition column (c : nat) (M : list (list Q)) : list Q := map (fun r => nth c r 0) M.
Definition vec_mat (ncols : nat) (v : list Q) (M : list (list Q)) : list Q :=
  map (fun c => dot v (column c M)) (seq 0 ncols).

(** One row of [cls_targets] / [clip_targets]:
    [min_len_mask @ gt_label_one_hot] followed by [clamp_(min=0.0, max=1.0)]. *)
Definition target_row (ncols : nat) (p : point) (gt_segment : list segment)
    (gt_label_one_hot : list (list Q)) : list Q :=
  map (clamp 0 1)
      (vec_mat ncols (min_len_mask_row (lens_row p gt_segment)) gt_label_one_hot).

(** [reg_targets[range(num_pts), min_len_inds]] followed by
    [reg_targets /= concat_points[:, 3, None]], for one point. *)
Definition assigned_segment (p : point) (gt_segment : list segment) : segment :=
  nth (snd (row_min (lens_row p gt_segment))) gt_segment (0, 0).

Definition reg_target (p : point) (gt_segment : list segment) : Q * Q :=
  let s := assigned_segment p gt_segment in
  (left_dist p s / pt_stride p, right_dist p s / pt_stride p).

(** Targets of one video: [(cls_targets, reg_targets, clip_targets)], or
    [None] where torch raises (a label out of range for [one_hot], or a
    label list whose length differs from the number of segments). *)
Definition label_points_single_video
    (concat_points : list point) (gt_segment : list segment) (gt_label : list nat)
  : option (list (list Q) * list (Q * Q) * list (list Q)) :=
  let num_gts := length gt_segment in
  if (num_gts =? 0)%nat then
    Some (map (fun _ => repeat 0 (num_classes cfg)) concat_points,
          map (fun _ => (0, 0)) concat_points,
          map (fun _ => repeat 0 200%nat) concat_points)
  else
    match one_hot_all (num_classes cfg) gt_label, one_hot_all 200 gt_label with
    | Some gt_label_one_hot, Some gt_label_one_hot2 =>
        if (length gt_label =? num_gts)%nat then
          let cls_targets :=
            map (fun p => target_row (num_classes cfg) p gt_segment gt_label_one_hot)
                concat_points in
          let clip_targets :=
            map (fun p => target_row 200 p gt_segment gt_label_one_hot2)
                concat_points in
          let reg_targets := map (fun p => reg_target p gt_segment) concat_points in
          Some (cls_targets, reg_targets, clip_targets)
        else None
    | _, _ => None
    end.

(** [label_points]: the same points for every video of the mini-batch. *)
Fixpoint label_points (points : list (list point))
    (gt_segments : list (list segment)) (gt_labels : list (list nat))
  : option (list (list (list Q)) * list (list (Q * Q)) * list (list (list Q))) :=
  match gt_segments, gt_labels with
  | gt_segment :: segs, gt_label :: labs =>
      match label_points_single_video (concat points) gt_segment gt_label,
            label_points points segs labs with
      | Some (c, r, c2), Some (gt_cls, gt_offset, gt_cls2) =>
          Some (c :: gt_cls, r :: gt_offset, c2 :: gt_cls2)
      | _, _ => None
      end
  | _, _ => Some ([], [], [])
  end.

End SingleVideo.

(** Sample data: one point outside the only segment. *)
Definition cfg0 : train_cfg := mkTrainCfg 2 Radius 1.5.
Definition pts_far : list point := [mkPoint 5 0 10000 1].
Definition segs_one : list segment := [(1, 3)].

(** Sample data: two levels ([T = 4, 2]; strides [1, 2]) and two segments of
    nearly the same duration over the same points. *)
Definition pts_pyramid : list point :=
  [mkPoint 0 0 4 1; mkPoint 1 0 4 1; mkPoint 2 0 4 1; mkPoint 3 0 4 1;
   mkPoint 0 4 10000 2; mkPoint 2 4 10000 2].
Definition segs_tie : list segment := [(1, 3); (1.0005, 3.0008)].
Definition labels_tie : list nat := [0%nat; 1%nat].

End LabelAssign.

(** ** Rounding to the dtype of the tensors *)

Module Float32.

(** [a / b] rounded to the nearest integer, ties to even ([0 <= a], [0 < b]). *)
Definition round_half_even (a b : Z) : Z :=
  let q := (a / b)%Z in
  let r := (a mod b)%Z in
  if (2 * r <? b)%Z then q
  else if (b <? 2 * r)%Z then (q + 1)%Z
  else if Z.even q then q else (q + 1)%Z.

(** [floor(log2(a / b))] for [0 < a], [0 < b]. *)
Definition floor_log2 (a b : Z) : Z :=
  let e0 := (Z.log2 a - Z.log2 b)%Z in
  let above :=
    if (0 <=? e0)%Z then (b * 2 ^ e0 <=? a)%Z else (b <=? a * 2 ^ (- e0))%Z in
  if above then e0 else (e0 - 1)%Z.

(** The float32 (IEEE binary32) number nearest to [x], ties to even: 24
    bits of precision, exponents from -126 on (subnormal numbers included).
    Magnitudes beyond the largest float32 number, which round to an
    infinity, are outside this function. *)
Definition round32 (x : Q) : Q :=
  let n := Qnum x in
  let d := Zpos (Qden x) in
  if (n =? 0)%Z then 0
  else
    let a := Z.abs n in
    let e := Z.max (floor_log2 a d) (-126) in
    let k := (23 - e)%Z in
    let m :=
      if (0 <=? k)%Z then round_half_even (a * 2 ^ k) d
      else round_half_even a (d * 2 ^ (- k)) in
    let v := if (0 <=? k)%Z then Qmake m (Z.to_pos (2 ^ k))
             else inject_Z (m * 2 ^ (- k)) in
    Qred (if (n <? 0)%Z then - v else v).

End Float32.

(** ** Label assignment in the arithmetic of the tensors

    [label_points_single_video] once more, with the rounding of every
    arithmetic operation made explicit.  The tensors of the label
    assignment ([concat_points], [gt_segment] and what is computed from
    them) share one floating-point dtype, float32 by default; their entries
    are the rationals that this dtype represents, and the result of every
    sum, difference, product and quotient is rounded to the dtype.
    Comparisons, [min] and [max] are exact on floats.  The mask
    [min_len_mask] and the one-hot labels hold zeros and ones, and the
    matrix product of the two counts segments: no rounding takes place
    there (on fewer than [2 ^ 24] segments). *)

Module LabelAssignFp.
Import Num LabelAssign.

Section SingleVideo.
(** The rounding of the dtype, e.g. [Float32.round32]; the identity gives
    back the exact arithmetic of [LabelAssign]. *)
Variable rnd : Q -> Q.
Variable cfg : train_cfg.

(** The float that an exact result is stored as.  A rational number is
    reduced before it is rounded, so that the float depends on the value
    of the fraction only. *)
Definition fl (x : Q) : Q := rnd (Qred x).

(** One entry of [lens = gt_segment[:, 1] - gt_segment[:, 0]] *)
Definition lens (s : segment) : Q := fl (snd s - fst s).

(** [left = concat_points[:, 0, None] - gt_segs[:, :, 0]] *)
Definition left_dist (p : point) (s : segment) : Q := fl (pt_t p - fst s).
(** [right = gt_segs[:, :, 1] - concat_points[:, 0, None]] *)
Definition right_dist (p : point) (s : segment) : Q := fl (snd s - pt_t p).

(** [inside_gt_seg_mask], both branches of [train_center_sample]; the
    Python scalars [0.5] and [train_center_sample_radius] enter the
    products as numbers of the dtype. *)
Definition inside_gt_seg_mask (p : point) (s : segment) : bool :=
  match train_center_sample cfg with
  | Radius =>
      let center_pts := fl (fl 0.5 * fl (fst s + snd s)) in
      let t_mins :=
        fl (center_pts - fl (pt_stride p * fl (train_center_sample_radius cfg))) in
      let t_maxs :=
        fl (center_pts + fl (pt_stride p * fl (train_center_sample_radius cfg))) in
      let cb_dist_left := fl (pt_t p - qmax t_mins (fst s)) in
      let cb_dist_right := fl (qmin t_maxs (snd s) - pt_t p) in
      Qltb 0 (qmin cb_dist_left cb_dist_right)
  | NoSample => Qltb 0 (qmin (left_dist p s) (right_dist p s))
  end.

(** [max_regress_distance = reg_targets.max(-1)[0]] *)
Definition max_regress_distance (p : point) (s : segment) : Q :=
  qmax (left_dist p s) (right_dist p s).

(** [inside_regress_range] *)
Definition inside_regress_range (p : point) (s : segment) : bool :=
  Qle_bool (pt_reg_min p) (max_regress_distance p s)
  && Qle_bool (max_regress_distance p s) (pt_reg_max p).

(** A segment is a candidate for a point when it passes both tests. *)
Definition candidate (p : point) (s : segment) : bool :=
  inside_gt_seg_mask p s && inside_regress_range p s.

(** One entry of [lens] after the two [masked_fill_(.., float('inf'))]. *)
Definition lens_entry (p : point) (s : segment) : len_t :=
  let len := if inside_gt_seg_mask p s then Fin (lens s) else Inf in
  if inside_regress_range p s then len else Inf.

Definition lens_row (p : point) (gt_segment : list segment) : list len_t :=
  map (lens_entry p) gt_segment.

(** [min_len[:, None] + 1e-3]: the sum of two numbers of the dtype,
    rounded; an infinite minimum stays infinite. *)
Definition threshold (min_len : len_t) : len_t :=
  match min_len with
  | Fin x => Fin (fl (x + fl 0.001))
  | Inf => Inf
  end.

(** One row of [min_len_mask]:
    [(lens <= min_len + 1e-3) and (lens < inf)], cast to the float dtype. *)
Definition min_len_mask_row (row : list len_t) : list Q :=
  let min_len := fst (row_min row) in
  map (fun l => of_bool (len_leb l (threshold min_len) && is_fin l)) row.

(** One row of [cls_targets] / [clip_targets]:
    [min_len_mask @ gt_label_one_hot] followed by [clamp_(min=0.0, max=1.0)]. *)
Definition target_row (ncols : nat) (p : point) (gt_segment : list segment)
    (gt_label_one_hot : list (list Q)) : list Q :=
  map (clamp 0 1)
      (vec_mat ncols (min_len_mask_row (lens_row p gt_segment)) gt_label_one_hot).

(** [reg_targets[range(num_pts), min_len_inds]] followed by
    [reg_targets /= concat_points[:, 3, None]], for one point. *)
Definition assigned_segment (p : point) (gt_segment : list segment) : segment :=
  nth (snd (row_min (lens_row p gt_segment))) gt_segment (0, 0).

Definition reg_target (p : point) (gt_segment : list segment) : Q * Q :=
  let s := assigned_segment p gt_segment in
  (fl (left_dist p s / pt_stride p), fl (right_dist p s / pt_stride p)).

(** Targets of one video: [(cls_targets, reg_targets, clip_targets)], or
    [None] where torch raises (a label out of range for [one_hot], or a
    label list whose length differs from the number of segments). *)
Definition label_points_single_video
    (concat_points : list point) (gt_segment : list segment) (gt_label : list nat)
  : option (list (list Q) * list (Q * Q) * list (list Q)) :=
  let num_gts := length gt_segment in
  if (num_gts =? 0)%nat then
    Some (map (fun _ => repeat 0 (num_classes cfg)) concat_points,
          map (fun _ => (0, 0)) concat_points,
          map (fun _ => repeat 0 200%nat) concat_points)
  else
    match one_hot_all (num_classes cfg) gt_label, one_hot_all 200 gt_label with
    | Some gt_label_one_hot, Some gt_label_one_hot2 =>
        if (length gt_label =? num_gts)%nat then
          let cls_targets :=
            map (fun p => target_row (num_classes cfg) p gt_segment gt_label_one_hot)
                concat_points in
          let clip_targets :=
            map (fun p => target_row 200 p gt_segment gt_label_one_hot2)
                concat_points in
          let reg_targets := map (fun p => reg_target p gt_segment) concat_points in
          Some (cls_targets, reg_targets, clip_targets)
        else None
    | _, _ => None
    end.

End SingleVideo.

(** Two entries of [lens] of the same value. *)
Definition len_same (a b : len_t) : Prop :=
  match a, b with
  | Fin x, Fin y => x == y
  | Inf, Inf => True
  | _, _ => False
  end.

(** Sample data in float32 (every number is a float32 number): two
    segments of durations [2] and [2 + 2^-11] over the points of
    [pts_pyramid]. *)
Definition segs_close : list segment := [(1, 3); (1 + (1 # 2048), 3 + (1 # 1024))].
Definition labels_close : list nat := [0%nat; 1%nat].

(** Two segments with the same start whose exact durations differ by
    [0.00099992752], just below [1e-3], and whose float32 durations
    [4.2653846...] and [4.2663851...] differ by more than the float32 sum
    [min_len + 1e-3] allows. *)
Definition pts_edge : list point := [mkPoint 4 0 10000 1].
Definition segs_edge : list segment :=
  [(8855477 # 4194304, 13372899 # 2097152); (8855477 # 4194304, 3343749 # 524288)].

(** Two segments whose exact durations [1] and [1.00100004673] differ by
    more than [1e-3], while in float32 the longer duration equals the sum
    [min_len + 1e-3]. *)
Definition pts_half : list point := [mkPoint 0.5 0 10000 1].
Definition segs_over : list segment := [(0, 1); (0, 8396997 # 8388608)].

End LabelAssignFp.

(** ** Offset decoding ([decode_offset]) *)

Module Decode.

(** The operations [decode_offset] needs from the tensor element type: the
    code runs on floats; the proofs run it on rationals (no NaN) and, where
    NaN matters, on IEEE floats. *)
Class Elt (A : Type) : Type := {
  e_zero : A;
  e_add : A -> A -> A;
  e_mul : A -> A -> A;
  e_of_nat : nat -> A;
  e_isnan : A -> bool
}.

#[export] Instance Q_elt : Elt Q := {|
  e_zero := 0;
  e_add := Qplus;
  e_mul := Qmult;
  e_of_nat := fun n => inject_Z (Z.of_nat n);
  e_isnan := fun _ => false
|}.

#[export] Instance float_elt : Elt float := {|
  e_zero := 0%float;
  e_add := PrimFloat.add;
  e_mul := PrimFloat.mul;
  e_of_nat := fun n => PrimFloat.of_uint63 (Uint63.of_Z (Z.of_nat n));
  e_isnan := PrimFloat.is_nan
|}.

Section Generic.
Context {A : Type} `{Elt A}.

(** [torch.softmax(x, dim=-1)] on one row of bins: a library primitive. *)
Variable softmax : list A -> list A.

(** [self.num_bins] *)
Variable num_bins : nat.

(** [torch.arange(max_range_num - 1, -1, -1)] and [torch.arange(max_range_num)],
    as floats. *)
Definition left_range_idx (max_range_num : nat) : list A :=
  map e_of_nat (rev (seq 0 max_range_num)).
Definition right_range_idx (max_range_num : nat) : list A :=
  map e_of_nat (seq 0 max_range_num).

(** [x.masked_fill(mask, 0)] on one row. *)
Definition masked_fill (x : list A) (mask : list bool) : list A :=
  map (fun '(v, m) => if m : bool then e_zero else v) (combine x mask).

(** [torch.isnan(x)] on one row. *)
Definition isnan_row (x : list A) : list bool := map e_isnan x.

(** [torch.matmul(dis, range_idx)] on one row: the sum of the products. *)
Definition matmul_row (dis idx : list A) : A :=
  fold_left (fun acc '(p, i) => e_add acc (e_mul p i)) (combine dis idx) e_zero.

(** The tail of [decode_offset] (from [max_range_num = ...] to the
    [return]) on the two distributions of one (location, class). *)
Definition decode_dis (pred_left_dis pred_right_dis : list A) : A * A :=
  let max_range_num := length pred_left_dis in
  let left_idx := left_range_idx max_range_num in
  let right_idx := right_range_idx max_range_num in
  let pred_left_dis := masked_fill pred_left_dis (isnan_row pred_right_dis) in
  let pred_right_dis := masked_fill pred_right_dis (isnan_row pred_right_dis) in
  let decoded_offset_left := matmul_row pred_left_dis left_idx in
  let decoded_offset_right := matmul_row pred_right_dis right_idx in
  (decoded_offset_left, decoded_offset_right).

(** Elementwise sum of two rows of bins. *)
Definition add_rows (x y : list A) : list A :=
  map (fun '(a, b) => e_add a b) (combine x y).

(** [out_offsets.view(.., 2, -1)]: a row of [2 * (num_bins + 1)] values is
    the left bins followed by the right bins. *)
Definition left_bins (out_offset : list A) : list A := firstn (S num_bins) out_offset.
Definition right_bins (out_offset : list A) : list A := skipn (S num_bins) out_offset.

(** The neighbour windows built with [F.pad] and [as_strided]: for one class
    with logits [x] over time, location [t] sees
    [x[t - num_bins .. t]] (start head, padded on the left with zeros) and
    [x[t .. t + num_bins]] (end head, padded on the right). *)
Definition start_neighbours (x : list A) : list (list A) :=
  map (fun t => firstn (S num_bins) (skipn t (repeat e_zero num_bins ++ x)))
      (seq 0 (length x)).
Definition end_neighbours (x : list A) : list (list A) :=
  map (fun t => firstn (S num_bins) (skipn t (x ++ repeat e_zero num_bins)))
      (seq 0 (length x)).

(** Trident branch of [decode_offset] at one location: one [(left, right)]
    per class, from the location's regression output [out_offset] and its
    per-class neighbour windows. *)
Definition decode_location (out_offset : list A)
    (pred_start_neighbours pred_end_neighbours : list (list A)) : list (A * A) :=
  map (fun '(ws, we) =>
         decode_dis (softmax (add_rows ws (left_bins out_offset)))
                    (softmax (add_rows we (right_bins out_offset))))
      (combine pred_start_neighbours pred_end_neighbours).

End Generic.

(** Sample distributions over the 17 bins of [num_bins = 16]: the left one
    is NaN (its softmax input held an infinite logit), the right one is a
    valid distribution on the bins 0 and 1. *)
Definition left_dis_nan : list float := repeat PrimFloat.nan 17.
Definition right_dis_ok : list float := 0.5%float :: 0.5%float :: repeat 0%float 15.

End Decode.

(** ** Training losses ([losses]) *)

Module Losses.
Import Num Decode.

Record loss_cfg : Type := mkLossCfg {
  num_classes : nat;
  num_bins : nat;
  (** fixed to [True] by [__init__]; both branches of the code are kept *)
  use_trident_head : bool;
  train_loss_weight : Q;
  train_label_smoothing : Q;
  (** [0.9] in [__init__] *)
  loss_normalizer_momentum : Q
}.

(** The dictionary [losses] returns. *)
Record loss_dict : Type := mkLossDict {
  cls_loss : Q;
  reg_loss : Q;
  clip_loss : Q;
  final_loss : Q
}.

(** One location of the batch: the entries that the tensors of shape
    [(B, FT, ..)] hold at one index [(b, t)]. *)
Record location : Type := mkLocation {
  l_valid : bool;                (* valid_mask = torch.cat(fpn_masks, dim=1) *)
  l_gt_cls : list Q;             (* gt_cls = torch.stack(gt_cls_labels) *)
  l_clip_cls : list Q;           (* clip_cls = torch.stack(gt_cls2_labels) *)
  l_cls_logits : list Q;         (* torch.cat(out_cls_logits, dim=1) *)
  l_clip_logits : list Q;        (* torch.cat(clip_cls_logits, dim=1) *)
  l_decoded : list (Q * Q);      (* decode_offset(..): one pair per class with
                                    the Trident head, one pair without *)
  l_gt_offset : Q * Q            (* torch.stack(gt_offsets) *)
}.

(** [max(a, b)] of Python: the first argument unless the second is larger. *)
Definition py_max (a b : Q) : Q := if Qltb a b then b else a.

(** A matrix [(C, T)] read as [(T, C)] ([permute]). *)
Definition transpose {X : Type} (d : X) (m : list (list X)) : list (list X) :=
  map (fun t => map (fun row => nth t row d) m) (seq 0 (length (hd [] m))).

Section WithPrimitives.
Variable cfg : loss_cfg.

(** Library primitives of [libs/modeling/losses.py] and torch, which the
    module imports: their values are not fixed here. *)
Variable softmax : list Q -> list Q.
(** [sigmoid_focal_loss(inputs, targets, reduction='none')] and [.., 'sum'] *)
Variable sigmoid_focal_loss_none : list (list Q) -> list (list Q) -> list (list Q).
Variable sigmoid_focal_loss_sum : list (list Q) -> list (list Q) -> Q.
(** [ctr_giou_loss_1d(.., reduction='none')], one value per pair *)
Variable ctr_giou_loss_1d : Q * Q -> Q * Q -> Q.
(** [ctr_diou_loss_1d(.., reduction='sum')] *)
Variable ctr_diou_loss_1d_sum : list (Q * Q) -> list (Q * Q) -> Q.

(** [decode_offset] in training mode for one video: levels are concatenated
    along time; with the Trident head every location gets one pair per
    class from its neighbour windows, without it the two regression outputs. *)
Definition decode_offset_video
    (out_offsets : list (list (list Q)))        (* F x (T_i, 2 (xbins)) *)
    (out_start out_end : list (list (list Q)))  (* F x (C, T_i) *)
  : list (list (Q * Q)) :=
  if use_trident_head cfg then
    concat
      (map (fun '(offs, (sb, eb)) =>
              let start_w := transpose [] (map (Decode.start_neighbours (num_bins cfg)) sb) in
              let end_w := transpose [] (map (Decode.end_neighbours (num_bins cfg)) eb) in
              map (fun '(off, (ws, we)) =>
                     Decode.decode_location softmax (num_bins cfg) off ws we)
                  (combine offs (combine start_w end_w)))
           (combine out_offsets (combine out_start out_end)))
  else
    map (fun off => [(nth 0 off 0, nth 1 off 0)]) (concat out_offsets).

(** The locations of one video, in the order of the concatenated levels. *)
Definition video_locations
    (fpn_masks : list (list bool))
    (gt_cls gt_clip : list (list Q)) (gt_offsets : list (Q * Q))
    (out_cls_logits clip_cls_logits out_offsets : list (list (list Q)))
    (out_start out_end : list (list (list Q)))
  : list location :=
  map (fun '(v, (g, (g2, (o, (lc, (lp, d)))))) => mkLocation v g g2 lc lp d o)
      (combine (concat fpn_masks)
      (combine gt_cls
      (combine gt_clip
      (combine gt_offsets
      (combine (concat out_cls_logits)
      (combine (concat clip_cls_logits)
               (decode_offset_video out_offsets out_start out_end))))))).

(** [pos_mask = (gt_cls.sum(-1) > 0) and valid_mask] *)
Definition pos_mask (l : location) : bool :=
  Qltb 0 (qsum (l_gt_cls l)) && l_valid l.

(** [x.bool()] on one element *)
Definition nonzero (x : Q) : bool := negb (Qeq_bool x 0).

(** [pred_offsets] and [gt_offsets] after the selection by [pos_mask]: with
    the Trident head one pair per positive location and class set in its
    target ([decoded_offsets[gt_cls[pos_mask].bool()]], and the target
    offsets repeated through [vid]); without it one pair per positive
    location. *)
Definition pred_offsets (locs : list location) : list (Q * Q) :=
  let pos := List.filter pos_mask locs in
  if use_trident_head cfg then
    concat (map (fun l => map fst (List.filter (fun '(_, g) => nonzero g)
                                          (combine (l_decoded l) (l_gt_cls l)))) pos)
  else concat (map l_decoded pos).

Definition gt_offsets_sel (locs : list location) : list (Q * Q) :=
  let pos := List.filter pos_mask locs in
  if use_trident_head cfg then
    concat (map (fun l => map (fun _ => l_gt_offset l) (List.filter nonzero (l_gt_cls l))) pos)
  else map l_gt_offset pos.

(** [num_pos = pos_mask.sum().item()] *)
Definition num_pos (locs : list location) : nat := length (List.filter pos_mask locs).

(** The update of [self.loss_normalizer]. *)
Definition update_normalizer (loss_normalizer : Q) (locs : list location) : Q :=
  loss_normalizer_momentum cfg * loss_normalizer
  + (1 - loss_normalizer_momentum cfg)
    * inject_Z (Z.of_nat (Nat.max (num_pos locs) 1)).

(** Label smoothing: [target *= 1 - s; target += s / (n + 1)]. *)
Definition smooth (n : nat) (row : list Q) : list Q :=
  map (fun x => x * (1 - train_label_smoothing cfg)
                + train_label_smoothing cfg / (inject_Z (Z.of_nat n) + 1)) row.

(** [cls_loss[rated_mask] *= w]: the selected elements, in row-major order,
    are scaled by the elements of [w]; torch raises when their numbers
    differ. *)
Fixpoint scale_row (loss : list Q) (mask : list bool) (w : list Q)
  : option (list Q * list Q) :=
  match loss, mask with
  | x :: loss', m :: mask' =>
      if m then
        match w with
        | [] => None
        | k :: w' =>
            match scale_row loss' mask' w' with
            | Some (r, rest) => Some (x * k :: r, rest)
            | None => None
            end
        end
      else
        match scale_row loss' mask' w with
        | Some (r, rest) => Some (x :: r, rest)
        | None => None
        end
  | _, _ => Some ([], w)
  end.

Fixpoint scale_rated (loss : list (list Q)) (mask : list (list bool)) (w : list Q)
  : option (list (list Q)) :=
  match loss, mask with
  | row :: loss', m :: mask' =>
      match scale_row row m w with
      | Some (r, rest) =>
          match scale_rated loss' mask' rest with
          | Some rs => Some (r :: rs)
          | None => None
          end
      | None => None
      end
  | _, _ => match w with [] => Some [] | _ :: _ => None end
  end.

(** [losses] on the locations of the batch, from the loss normalizer held
    by the model: the new normalizer and the dictionary of losses. *)
Definition losses_at (loss_normalizer : Q) (locs : list location)
  : option (Q * loss_dict) :=
  let pred := pred_offsets locs in
  let gt := gt_offsets_sel locs in
  let npos := num_pos locs in
  let loss_normalizer := update_normalizer loss_normalizer locs in
  let valid := List.filter l_valid locs in
  let gt_target := map (fun l => smooth (num_classes cfg) (l_gt_cls l)) valid in
  let clip_target := map (fun l => smooth 200 (l_clip_cls l)) valid in
  let cls_loss := sigmoid_focal_loss_none (map l_cls_logits valid) gt_target in
  let cls_loss :=
    if use_trident_head cfg then
      let iou_rate := map (fun '(p, g) => ctr_giou_loss_1d p g) (combine pred gt) in
      let rated_mask :=
        map (map (fun x =>
                    Qltb (train_label_smoothing cfg
                          / (inject_Z (Z.of_nat (num_classes cfg)) + 1)) x))
            gt_target in
      (* iou_weight_power = 1. *)
      scale_rated cls_loss rated_mask (map (fun r => (1 - r) ^ 1) iou_rate)
    else Some cls_loss in
  match cls_loss with
  | None => None
  | Some cls_loss =>
      let cls_loss := qsum (concat cls_loss) / loss_normalizer in
      let clip_loss :=
        sigmoid_focal_loss_sum (map l_clip_logits valid) clip_target
        / loss_normalizer in
      let reg_loss :=
        if (npos =? 0)%nat then
          0 * qsum (concat (map (fun '(a, b) => [a; b]) pred))
        else ctr_diou_loss_1d_sum pred gt / loss_normalizer in
      let loss_weight :=
        if Qltb 0 (train_loss_weight cfg) then train_loss_weight cfg
        else cls_loss / py_max reg_loss 0.01 in
      let alpha := 0.3 in
      let beta := 0.4 in
      let final_loss :=
        alpha * cls_loss + clip_loss * beta
        + reg_loss * loss_weight * (1 - alpha - beta) in
      Some (loss_normalizer, mkLossDict cls_loss reg_loss clip_loss final_loss)
  end.

(** The tensors of the batch cut into locations, video by video. *)
Definition batch_locations
    (gt_cls2_labels : list (list (list Q)))           (* B x (FT, 200) *)
    (clip_cls_logits : list (list (list (list Q))))   (* F x (B, T_i, 200) *)
    (fpn_masks : list (list (list bool)))             (* F x (B, T_i) *)
    (out_cls_logits : list (list (list (list Q))))    (* F x (B, T_i, C) *)
    (out_offsets : list (list (list (list Q))))       (* F x (B, T_i, 2 (xbins)) *)
    (gt_cls_labels : list (list (list Q)))            (* B x (FT, C) *)
    (gt_offsets : list (list (Q * Q)))                (* B x (FT, 2) *)
    (out_start out_end : list (list (list (list Q)))) (* F x (B, C, T_i) *)
  : list location :=
  let at_video {X : Type} (b : nat) (xs : list (list (list X))) : list (list X) :=
    map (fun level => nth b level []) xs in
  concat
    (map (fun b =>
            video_locations
              (at_video b fpn_masks)
              (nth b gt_cls_labels []) (nth b gt_cls2_labels []) (nth b gt_offsets [])
              (at_video b out_cls_logits) (at_video b clip_cls_logits)
              (at_video b out_offsets)
              (at_video b out_start) (at_video b out_end))
         (seq 0 (length gt_cls_labels))).

(** [losses], with the arguments in the order of the source. *)
Definition losses (loss_normalizer : Q)
    (gt_cls2_labels : list (list (list Q)))
    (clip_cls_logits : list (list (list (list Q))))
    (fpn_masks : list (list (list bool)))
    (out_cls_logits out_offsets : list (list (list (list Q))))
    (gt_cls_labels : list (list (list Q)))
    (gt_offsets : list (list (Q * Q)))
    (out_start out_end : list (list (list (list Q))))
  : option (Q * loss_dict) :=
  losses_at loss_normalizer
    (batch_locations gt_cls2_labels clip_cls_logits fpn_masks out_cls_logits
       out_offsets gt_cls_labels gt_offsets out_start out_end).

End WithPrimitives.

(** *** A sample batch

    One video, one level, one location, one class, [num_bins = 16].  The library
    primitives are replaced by simple stand-ins so that the sample runs:
    a linear normalisation for the softmax, squared error (in lowest
    terms) for the focal loss and the L1 distance for both IoU losses. *)

Definition sample_softmax (l : list Q) : list Q := map (fun x => x / qsum l) l.
Definition sample_focal_none (x t : list (list Q)) : list (list Q) :=
  map (fun '(xr, tr) => map (fun '(a, b) => Qred ((a - b) * (a - b))) (combine xr tr))
      (combine x t).
Definition sample_focal_sum (x t : list (list Q)) : Q :=
  fold_right (fun a acc => Qred (a + acc)) 0 (concat (sample_focal_none x t)).
Definition sample_l1 (p g : Q * Q) : Q :=
  Qabs (fst p - fst g) + Qabs (snd p - snd g).
Definition sample_l1_sum (p g : list (Q * Q)) : Q :=
  qsum (map (fun '(a, b) => sample_l1 a b) (combine p g)).

(** [train_loss_weight = -1]: the automatic weight is used. *)
Definition sample_cfg : loss_cfg := mkLossCfg 1 16 true (-1) 0 0.9.

Definition sample_clip_row : list Q := 1 :: repeat 0 199.

(** The regression output of the location: left bins with the weights 101
    and 99 on the distances 1 and 0, right bins with the weights 1 and 1 on
    the distances 0 and 1. *)
Definition sample_offsets : list Q :=
  (repeat 0 15 ++ [101; 99]) ++ ([1; 1] ++ repeat 0 15).

(** The only location has the target [gt] for the only class; its decoded
    offsets are [(0.505, 0.5)] against the target offsets [(0.5, 0.5)]. *)
Definition sample_locations (gt : Q) : list location :=
  batch_locations sample_cfg sample_softmax
    [[sample_clip_row]]          (* gt_cls2_labels *)
    [[[sample_clip_row]]]        (* clip_cls_logits *)
    [[[true]]]                   (* fpn_masks *)
    [[[[0]]]]                    (* out_cls_logits *)
    [[[sample_offsets]]]         (* out_offsets *)
    [[[gt]]]                     (* gt_cls_labels *)
    [[(0.5, 0.5)]]               (* gt_offsets *)
    [[[[0]]]] [[[[0]]]].         (* out_start, out_end *)

Definition sample_losses (gt : Q) : option (Q * loss_dict) :=
  losses sample_cfg sample_softmax sample_focal_none sample_focal_sum
    sample_l1 sample_l1_sum
    1
    [[sample_clip_row]] [[[sample_clip_row]]] [[[true]]] [[[[0]]]]
    [[[sample_offsets]]] [[[gt]]] [[(0.5, 0.5)]] [[[[0]]]] [[[[0]]]].

End Losses.

(** ** Inference scores ([inference_single_video], one pyramid level) *)

Module Inference.
Import Num.

Section Scores.
(** [torch.sigmoid] on one element: a library primitive. *)
Variable sigmoid : Q -> Q.

(** [torch.max(clip_i, dim=1, keepdim=True)] on one row; torch raises on a
    dimension of size zero. *)
Definition max_row (row : list Q) : option Q :=
  match row with
  | [] => None
  | x :: r => Some (fold_left qmax r x)
  end.

(** One row of
    [combined_prob = alpha * cls_i.sigmoid() + beta * clip_j.sigmoid()]
    with [alpha = 0.7] and [beta = 0.3]. *)
Definition combined_prob_row (cls_row clip_row : list Q) : option (list Q) :=
  let alpha := 0.7 in
  let beta := 0.3 in
  match max_row clip_row with
  | None => None
  | Some clip_j => Some (map (fun x => alpha * sigmoid x + beta * sigmoid clip_j) cls_row)
  end.

(** [pred_prob = (combined_prob * mask_i.unsqueeze(-1)).flatten()], for
    [cls_i] of shape [(T_i, C)], [clip_i] of shape [(T_i, 200)] and [mask_i]
    of shape [(T_i)]; [None] when the three do not have the same number of
    locations. *)
Fixpoint pred_prob (cls_i clip_i : list (list Q)) (mask_i : list bool)
  : option (list Q) :=
  match cls_i, clip_i, mask_i with
  | [], [], [] => Some []
  | cls_row :: cls', clip_row :: clip', m :: mask' =>
      match combined_prob_row cls_row clip_row, pred_prob cls' clip' mask' with
      | Some row, Some rest => Some (map (fun x => x * of_bool m) row ++ rest)
      | _, _ => None
      end
  | _, _, _ => None
  end.

(** [keep_idxs1 = (pred_prob > self.test_pre_nms_thresh)] with the indices
    that survive ([topk_idxs]) and their scores. *)
Definition keep_above (test_pre_nms_thresh : Q) (probs : list Q) : list (nat * Q) :=
  List.filter (fun '(_, x) => Qltb test_pre_nms_thresh x)
         (combine (seq 0 (length probs)) probs).

End Scores.

(** Sample level: two locations (the second is padding), two classes and
    three secondary classes; the stand-in for the sigmoid is the rational
    squashing function [x / (1 + |x|) / 2 + 1 / 2]. *)
Definition sample_sigmoid (x : Q) : Q := x / (1 + Qabs x) / 2 + 0.5.
Definition sample_cls : list (list Q) := [[1; -1]; [3; 0]].
Definition sample_clip : list (list Q) := [[0; 3; 1]; [2; 1; 0]].
Definition sample_mask : list bool := [true; false].

End Inference.

(** ** Per-video records (Python dictionaries) *)

Module Dict.

(** The values the records hold. *)
Inductive value : Type :=
| VStr (s : string)                 (* video_id *)
| VNum (x : Q)                      (* fps, duration, feat_stride, feat_num_frames *)
| VSegs (segs : list (Q * Q))       (* segments: N x 2 *)
| VVec (v : list Q)                 (* scores *)
| VInts (l : list nat)              (* labels *)
| VMat (m : list (list Q)).         (* a 2-D feature tensor *)

Definition get_num (d : gmap string value) (k : string) : option Q :=
  match d !! k with Some (VNum x) => Some x | _ => None end.
Definition get_segs (d : gmap string value) (k : string) : option (list (Q * Q)) :=
  match d !! k with Some (VSegs x) => Some x | _ => None end.
Definition get_vec (d : gmap string value) (k : string) : option (list Q) :=
  match d !! k with Some (VVec x) => Some x | _ => None end.
Definition get_ints (d : gmap string value) (k : string) : option (list nat) :=
  match d !! k with Some (VInts x) => Some x | _ => None end.
Definition get_mat (d : gmap string value) (k : string) : option (list (list Q)) :=
  match d !! k with Some (VMat x) => Some x | _ => None end.

End Dict.

(** ** Postprocessing ([postprocessing]) *)

Module Post.
Import Num Dict.

(** [test_cfg['nms_method']], asserted to be ['soft'], ['hard'] or ['none']. *)
Inductive nms_method : Type := Soft | Hard | NoNms.

Section Postprocessing.
Variable test_nms_method : nms_method.
(** [batched_nms] of [libs/utils], with the test configuration applied; its
    third argument is [use_soft_nms]. *)
Variable batched_nms :
  list (Q * Q) -> list Q -> list nat -> bool -> list (Q * Q) * list Q * list nat.

(** One boundary through
    [segs = (segs * stride + 0.5 * nframes) / fps]. *)
Definition to_seconds (stride nframes fps g : Q) : Q :=
  (g * stride + 0.5 * nframes) / fps.

(** One boundary through
    [segs[segs<=0.0] *= 0.0] and
    [segs[segs>=vlen] = segs[segs>=vlen] * 0.0 + vlen]. *)
Definition truncate (vlen x : Q) : Q :=
  let x := if Qle_bool x 0 then x * 0 else x in
  if Qle_bool vlen x then x * 0 + vlen else x.

(** Step 2: [batched_nms] unless [self.test_nms_method] is ['none']. *)
Definition run_nms (segs : list (Q * Q)) (scores : list Q) (labels : list nat)
  : list (Q * Q) * list Q * list nat :=
  match test_nms_method with
  | NoNms => (segs, scores, labels)
  | Soft => batched_nms segs scores labels true
  | Hard => batched_nms segs scores labels false
  end.

(** Step 3: from feature grids to seconds, under [if segs.shape[0] > 0]. *)
Definition to_real_time (fps vlen stride nframes : Q) (segs : list (Q * Q))
  : list (Q * Q) :=
  if (0 <? length segs)%nat then
    map (fun '(s, e) =>
           (truncate vlen (to_seconds stride nframes fps s),
            truncate vlen (to_seconds stride nframes fps e))) segs
  else segs.

(** Step 4: the record that is returned. *)
Definition repack (vidx : value) (segs : list (Q * Q)) (scores : list Q)
    (labels : list nat) : gmap string value :=
  <["video_id" := vidx]>
  (<["segments" := VSegs segs]>
  (<["scores" := VVec scores]>
  (<["labels" := VInts labels]> ∅))).

(** Steps 1 to 4 for one video; [None] stands for the [KeyError] of a
    missing key (or a value of another kind than the code computes with). *)
Definition postprocess_video (results_per_vid : gmap string value)
  : option (gmap string value) :=
  match results_per_vid !! "video_id",
        get_num results_per_vid "fps",
        get_num results_per_vid "duration",
        get_num results_per_vid "feat_stride",
        get_num results_per_vid "feat_num_frames",
        get_segs results_per_vid "segments",
        get_vec results_per_vid "scores",
        get_ints results_per_vid "labels" with
  | Some vidx, Some fps, Some vlen, Some stride, Some nframes,
    Some segs, Some scores, Some labels =>
      let '(segs, scores, labels) := run_nms segs scores labels in
      let segs := to_real_time fps vlen stride nframes segs in
      Some (repack vidx segs scores labels)
  | _, _, _, _, _, _, _, _ => None
  end.

Fixpoint postprocessing (results : list (gmap string value))
  : option (list (gmap string value)) :=
  match results with
  | [] => Some []
  | results_per_vid :: rest =>
      match postprocess_video results_per_vid, postprocessing rest with
      | Some r, Some rs => Some (r :: rs)
      | _, _ => None
      end
  end.

End Postprocessing.

(** The record [inference] hands to [postprocessing]. *)
Definition mk_result (vidx : string) (fps vlen stride nframes : Q)
    (segs : list (Q * Q)) (scores : list Q) (labels : list nat)
  : gmap string value :=
  <["video_id" := VStr vidx]>
  (<["fps" := VNum fps]>
  (<["duration" := VNum vlen]>
  (<["feat_stride" := VNum stride]>
  (<["feat_num_frames" := VNum nframes]>
  (<["segments" := VSegs segs]>
  (<["scores" := VVec scores]>
  (<["labels" := VInts labels]> ∅))))))).

(** A postprocessed record given back the meta information of the record
    it came from (absent keys stay absent). *)
Definition copy_key (k : string) (from to : gmap string value) : gmap string value :=
  match from !! k with Some v => <[k := v]> to | None => to end.

Definition restore_meta (orig r : gmap string value) : gmap string value :=
  copy_key "fps" orig
  (copy_key "duration" orig
  (copy_key "feat_stride" orig
  (copy_key "feat_num_frames" orig r))).

(** [restore_meta] along a list of results. *)
Definition restore_meta_all (origs rs : list (gmap string value))
  : list (gmap string value) :=
  map (fun '(orig, r) => restore_meta orig r) (combine origs rs).

(** Two records with the same video, scores and labels and with equal
    segment boundaries. *)
Definition same_segments (a b : list (Q * Q)) : Prop :=
  Forall2 (fun x y => fst x == fst y /\ snd x == snd y) a b.

Definition same_result (r1 r2 : gmap string value) : Prop :=
  r1 !! "video_id" = r2 !! "video_id"
  /\ r1 !! "scores" = r2 !! "scores"
  /\ r1 !! "labels" = r2 !! "labels"
  /\ exists s1 s2, get_segs r1 "segments" = Some s1
                   /\ get_segs r2 "segments" = Some s2 /\ same_segments s1 s2.

(** A segment inside [[0, vlen]]. *)
Definition in_video (vlen : Q) (seg : Q * Q) : Prop :=
  (0 <= fst seg /\ fst seg <= vlen) /\ (0 <= snd seg /\ snd seg <= vlen).

(** The scores, the labels, the video and the number of segments of two
    records agree. *)
Definition same_detections (r1 r2 : gmap string value) : Prop :=
  r1 !! "video_id" = r2 !! "video_id"
  /\ r1 !! "scores" = r2 !! "scores"
  /\ r1 !! "labels" = r2 !! "labels"
  /\ exists s1 s2, get_segs r1 "segments" = Some s1
                   /\ get_segs r2 "segments" = Some s2 /\ length s1 = length s2.

(** Meta information of a record whose grid is in seconds already: one
    feature per frame, one frame per second, no window offset.  The
    conversion [(segs * 1 + 0.5 * 0) / 1] of such a record changes no
    float. *)
Definition unit_grid (d : gmap string value) : Prop :=
  exists fps vlen stride nframes,
    get_num d "fps" = Some fps /\ get_num d "duration" = Some vlen
    /\ get_num d "feat_stride" = Some stride
    /\ get_num d "feat_num_frames" = Some nframes
    /\ fps == 1 /\ stride == 1 /\ nframes == 0 /\ 0 <= vlen.

(** No NMS routine is called with [nms_method = 'none']. *)
Definition no_nms (segs : list (Q * Q)) (scores : list Q) (labels : list nat)
    (soft : bool) : list (Q * Q) * list Q * list nat := (segs, scores, labels).

(** Sample: a result that is already in seconds (grid of one feature per
    second) and inside the video. *)
Definition sample_result : gmap string value :=
  mk_result "v0" 1 2 1 0 [(0.5, 1)] [0.9] [0%nat].

(** Sample: grid value 10 with stride 4, 16 frames, fps 25, in a video of
    1.5 seconds. *)
Definition sample_grid_result : gmap string value :=
  mk_result "v1" 25 1.5 4 16 [(0, 10)] [0.9] [0%nat].

(** Sample: one segment on a grid of one feature per two frames, at one
    frame per second, in a video of 4 seconds.  The numbers are small
    dyadic fractions: the float arithmetic of the conversion is exact on
    them. *)
Definition sample_coarse_result : gmap string value :=
  mk_result "v2" 1 4 2 0 [(0.5, 1)] [0.9] [0%nat].

End Post.

(** ** The feature fusion at the head of [forward] *)

Module Forward.
Import Num Dict.

(** [nn.Linear(in_features, out_features)]: [weight] has [out_features]
    rows of [in_features] entries.  Both layers of the model are square
    ([nn.Linear(2048, 2048)] and [nn.Linear(512, 512)]). *)
Record linear : Type := mkLinear {
  in_features : nat;
  weight : list (list Q);
  bias : list Q
}.

(** [tensor.transpose(0, 1)] on a 2-D tensor with rows of equal length. *)
Definition transpose (m : list (list Q)) : list (list Q) :=
  map (fun j => map (fun row => nth j row 0) m) (seq 0 (length (hd [] m))).

Definition dot (v w : list Q) : Q := qsum (map (fun '(a, b) => a * b) (combine v w)).

(** [fc(x)] on one row; torch raises when the row has not [in_features]
    entries. *)
Definition linear_row (fc : linear) (x : list Q) : option (list Q) :=
  if (length x =? in_features fc)%nat
  then Some (map (fun '(w, b) => dot x w + b) (combine (weight fc) (bias fc)))
  else None.

(** [F.relu(fc(x) + x)] on one row; the sum is taken between rows of equal
    length, as a square layer gives. *)
Definition residual_relu_row (fc : linear) (x : list Q) : option (list Q) :=
  match linear_row fc x with
  | Some y =>
      if (length y =? length x)%nat
      then Some (map (fun '(a, b) => qmax (a + b) 0) (combine y x))
      else None
  | None => None
  end.

Fixpoint residual_relu (fc : linear) (x : list (list Q)) : option (list (list Q)) :=
  match x with
  | [] => Some []
  | row :: rest =>
      match residual_relu_row fc row, residual_relu fc rest with
      | Some r, Some rs => Some (r :: rs)
      | _, _ => None
      end
  end.

Section Model.
(** [self.fc_feats] and [self.fc_clip_feats] *)
Variables fc_feats fc_clip_feats : linear.

(** The body of the loop up to [torch.cat]: the value stored under
    ['concatenated_feats'], or [None] where Python raises (a missing key, a
    feature width the layer does not accept, two tensors of different
    lengths in time). *)
Definition concatenated_feats (video : gmap string value) : option (list (list Q)) :=
  match get_mat video "feats", get_mat video "clip_feats" with
  | Some feats, Some clip_feats =>
      let feats := transpose feats in
      let clip_feats := transpose clip_feats in
      match residual_relu fc_feats feats, residual_relu fc_clip_feats clip_feats with
      | Some feats_mapped, Some clip_feats_mapped =>
          let feats_mapped := transpose feats_mapped in
          let clip_feats_mapped := transpose clip_feats_mapped in
          if (length (hd [] feats_mapped) =? length (hd [] clip_feats_mapped))%nat
          then Some (feats_mapped ++ clip_feats_mapped)
          else None
      | _, _ => None
      end
  | _, _ => None
  end.

(** The caller's records live in a store; [video_list] holds references
    to them, so that the assignment
    [video['concatenated_feats'] = concatenated_feats] is seen by the
    caller and by every other reference to the same record.  The store
    maps a reference to its record: [gmap nat (gmap string value)]. *)
Definition fuse_video (ref : nat) (h : gmap nat (gmap string value)) : option (gmap nat (gmap string value)) :=
  match h !! ref with
  | Some video =>
      match concatenated_feats video with
      | Some c => Some (<[ref := <["concatenated_feats" := VMat c]> video]> h)
      | None => None
      end
  | None => None
  end.

(** [for video in video_list: ...] *)
Fixpoint fuse_features (video_list : list nat) (h : gmap nat (gmap string value)) : option (gmap nat (gmap string value)) :=
  match video_list with
  | [] => Some h
  | ref :: rest =>
      match fuse_video ref h with
      | Some h' => fuse_features rest h'
      | None => None
      end
  end.

(** The first line of [preprocessing], which [forward] calls next:
    [feats = [x['concatenated_feats'] for x in video_list]]. *)
Fixpoint preprocessing_feats (video_list : list nat) (h : gmap nat (gmap string value))
  : option (list (list (list Q))) :=
  match video_list with
  | [] => Some []
  | ref :: rest =>
      match h !! ref with
      | Some video =>
          match get_mat video "concatenated_feats", preprocessing_feats rest h with
          | Some f, Some fs => Some (f :: fs)
          | _, _ => None
          end
      | None => None
      end
  end.

End Model.

(** Sample: layers of width 2 and 1, one video with three time steps,
    referenced twice by the list. *)
Definition sample_fc_feats : linear := mkLinear 2 [[1; 0]; [0; -1]] [0; 1].
Definition sample_fc_clip : linear := mkLinear 1 [[2]] [-1].
Definition sample_video : gmap string value :=
  <["feats" := VMat [[1; -2; 0]; [0; 1; 3]]]>
  (<["clip_feats" := VMat [[1; 0; -1]]]>
  (<["video_id" := VStr "v0"]> ∅)).
Definition sample_store : gmap nat (gmap string value) := <[7%nat := sample_video]> ∅.

End Forward.


(** ** The feature pyramid checks of [PtTransformer.__init__] *)

Module Config.

(** [n_mha_win_size]: one integer for all levels of the backbone, or a list. *)
Inductive win_size : Type := WinInt (w : Z) | WinList (ws : list Z).

(** [[scale_factor**i for i in range(fpn_start_level, backbone_arch[-1]+1)]] *)
Definition fpn_strides (scale_factor : Z) (fpn_start_level arch_last : nat) : list Z :=
  map (fun i => (scale_factor ^ Z.of_nat i)%Z)
      (seq fpn_start_level (S arch_last - fpn_start_level)).

(** [self.mha_win_size]: [[n_mha_win_size]*(1 + backbone_arch[-1])], or the
    list, asserted to have that length. *)
Definition mha_win_size (n_mha_win_size : win_size) (arch_last : nat) : option (list Z) :=
  match n_mha_win_size with
  | WinInt w => Some (repeat w (S arch_last))
  | WinList ws => if (length ws =? S arch_last)%nat then Some ws else None
  end.

(** [stride = s * (w // 2) * 2 if w > 1 else s] *)
Definition level_stride (s w : Z) : Z :=
  if (1 <? w)%Z then (s * (w / 2) * 2)%Z else s.

(** The loop over [zip(self.fpn_strides, self.mha_win_size)], from the
    running [max_div_factor]: [None] where [max_seq_len % stride] raises
    (a stride of zero) or the assertion fails. *)
Fixpoint div_factor_loop (max_seq_len : Z) (levels : list (Z * Z)) (max_div_factor : Z)
  : option Z :=
  match levels with
  | [] => Some max_div_factor
  | (s, w) :: rest =>
      let stride := level_stride s w in
      if (stride =? 0)%Z then None
      else if (max_seq_len mod stride =? 0)%Z then
        div_factor_loop max_seq_len rest
          (if (max_div_factor <? stride)%Z then stride else max_div_factor)
      else None
  end.

(** What [__init__] keeps of these computations. *)
Record pyramid : Type := mkPyramid {
  p_fpn_strides : list Z;
  p_mha_win_size : list Z;
  p_max_seq_len : Z;
  p_max_div_factor : Z
}.

(** The head of [__init__]: the strides, the assertion on
    [regression_range], the window sizes and [max_div_factor]. *)
Definition init (scale_factor : Z) (fpn_start_level arch_last : nat)
    (regression_range : list (Q * Q)) (max_seq_len : Z) (n_mha_win_size : win_size)
  : option pyramid :=
  let fpn_strides := fpn_strides scale_factor fpn_start_level arch_last in
  if (length fpn_strides =? length regression_range)%nat then
    match mha_win_size n_mha_win_size arch_last with
    | Some wins =>
        match div_factor_loop max_seq_len (combine fpn_strides wins) 1 with
        | Some max_div_factor =>
            Some (mkPyramid fpn_strides wins max_seq_len max_div_factor)
        | None => None
        end
    | None => None
    end
  else None.

(** Sample: six levels with strides 1 to 32, windows of 19 on all but the
    last level, sequences of 2304 features. *)
Definition sample_ranges : list (Q * Q) :=
  [(0, 4); (4, 8); (8, 16); (16, 32); (32, 64); (64, 10000)].
Definition sample_windows : win_size := WinList [19; 19; 19; 19; 19; 1]%Z.

End Config.

(** ** Batching ([preprocessing]) *)

Module Preprocess.

(** A 2-D feature tensor [(C, T)] is the list of its [C] rows, of which
    there is at least one; [feat.shape[-1]] is the length of a row. *)
Definition width (feat : list (list Q)) : nat := length (hd [] feat).

(** [feats_lens.max(0).values.item()]; torch raises on an empty tensor. *)
Definition max_of (feats_lens : list nat) : option nat :=
  match feats_lens with
  | [] => None
  | x :: r => Some (fold_left Nat.max r x)
  end.

(** A row brought to [n] entries: cut, or filled with [padding_val]. *)
Definition resize (n : nat) (padding_val : Q) (row : list Q) : list Q :=
  firstn n row ++ repeat padding_val (n - length row).

(** [pad_feat[..., :feat.shape[-1]].copy_(feat)] into a tensor
    [(C0, max_len)] filled with [padding_val]: the source has [C0] rows, or
    one row that is broadcast; torch raises otherwise. *)
Definition copy_into (C0 max_len : nat) (padding_val : Q) (feat : list (list Q))
  : option (list (list Q)) :=
  let padded := map (resize max_len padding_val) feat in
  if (length feat =? C0)%nat then Some padded
  else if (length feat =? 1)%nat then Some (repeat (hd [] padded) C0)
  else None.

Fixpoint copy_all (C0 max_len : nat) (padding_val : Q) (feats : list (list (list Q)))
  : option (list (list (list Q))) :=
  match feats with
  | [] => Some []
  | feat :: rest =>
      match copy_into C0 max_len padding_val feat, copy_all C0 max_len padding_val rest with
      | Some p, Some ps => Some (p :: ps)
      | _, _ => None
      end
  end.

(** [torch.arange(max_len)[None, :] < feats_lens[:, None]] *)
Definition masks (max_len : nat) (feats_lens : list nat) : list (list bool) :=
  map (fun len => map (fun t => (t <? len)%nat) (seq 0 max_len)) feats_lens.

Section Batching.
(** [self.training], [self.max_seq_len], [self.max_div_factor] *)
Variable training : bool.
Variables max_seq_len max_div_factor : Z.

(** The padded length at inference: [max_seq_len], or the next multiple
    of [max_div_factor]; [None] where the division raises. *)
Definition padded_len (max_len : nat) : option Z :=
  if (Z.of_nat max_len <=? max_seq_len)%Z then Some max_seq_len
  else
    let stride := max_div_factor in
    if (stride =? 0)%Z then None
    else Some ((Z.of_nat max_len + (stride - 1)) / stride * stride)%Z.

(** [preprocessing] from the list [feats] on: the batched inputs
    [(B, C, max_len)] and the masks [(B, max_len)] ([(B, 1, max_len)] in the
    source).  [None] stands for an exception: an empty list, a failed
    assertion, rows that cannot be copied, a padded length below zero. *)
Definition batch (padding_val : Q) (feats : list (list (list Q)))
  : option (list (list (list Q)) * list (list bool)) :=
  let feats_lens := map width feats in
  match max_of feats_lens with
  | None => None
  | Some max_len =>
      if training then
        if (Z.of_nat max_len <=? max_seq_len)%Z then
          let max_len := Z.to_nat max_seq_len in
          match copy_all (length (hd [] feats)) max_len padding_val feats with
          | Some batched_inputs => Some (batched_inputs, masks max_len feats_lens)
          | None => None
          end
        else None
      else
        if (length feats =? 1)%nat then
          match padded_len max_len with
          | Some max_len =>
              if (max_len <? 0)%Z then None
              else
                let max_len := Z.to_nat max_len in
                Some ([map (resize max_len padding_val) (hd [] feats)],
                      masks max_len feats_lens)
          | None => None
          end
        else None
  end.

(** [preprocessing(video_list)]: the features are read from the key
    ['concatenated_feats'] of the records. *)
Definition preprocessing (padding_val : Q) (video_list : list nat)
    (h : gmap nat (gmap string Dict.value))
  : option (list (list (list Q)) * list (list bool)) :=
  match Forward.preprocessing_feats video_list h with
  | Some feats => batch padding_val feats
  | None => None
  end.

End Batching.

(** Sample: two videos with two channels, of 3 and 2 time steps. *)
Definition sample_feats : list (list (list Q)) :=
  [[[1; 2; 3]; [4; 5; 6]]; [[7; 8]; [9; 10]]].

End Preprocess.

(** ** Decoding the detections ([inference_single_video], [inference]) *)

Module Detect.
Import Num Dict Decode.

Record test_cfg : Type := mkTestCfg {
  num_classes : nat;
  num_bins : nat;
  use_trident_head : bool;
  test_pre_nms_thresh : Q;
  test_pre_nms_topk : nat;
  test_duration_thresh : Q
}.

(** A detection: its segment [(seg_left, seg_right)], its score and its
    class index. *)
Definition detection : Type := (Q * Q * Q * nat)%type.

(** [x[idxs]] for a tensor of indices; an index out of range raises. *)
Fixpoint gather {X : Type} (x : list X) (idxs : list nat) : option (list X) :=
  match idxs with
  | [] => Some []
  | i :: rest =>
      match nth_error x i, gather x rest with
      | Some v, Some vs => Some (v :: vs)
      | _, _ => None
      end
  end.

Section SingleVideo.
Variable cfg : test_cfg.
(** Library primitives: [torch.sigmoid], [torch.softmax] and the indices
    [idxs] that [pred_prob.sort(descending=True)] returns (the sorted values
    are the values at these indices). *)
Variable sigmoid : Q -> Q.
Variable softmax : list Q -> list Q.
Variable sort_descending : list Q -> list nat.

(** [decode_offset] at inference on one level, location by location: with
    the Trident head one pair per class, from [offsets_i] of shape
    [(T_i, 2 (num_bins + 1))] and the boundary logits of shape [(C, T_i)];
    without it the two regression outputs of the location. *)
Definition decode_offset_level (offsets_i sb_cls_i eb_cls_i : list (list Q))
  : list (list (Q * Q)) :=
  if use_trident_head cfg then
    let pred_start_neighbours :=
      Losses.transpose [] (map (Decode.start_neighbours (num_bins cfg)) sb_cls_i) in
    let pred_end_neighbours :=
      Losses.transpose [] (map (Decode.end_neighbours (num_bins cfg)) eb_cls_i) in
    map (fun '(off, (ws, we)) => Decode.decode_location softmax (num_bins cfg) off ws we)
        (combine offsets_i (combine pred_start_neighbours pred_end_neighbours))
  else map (fun off => [(nth 0 off 0, nth 1 off 0)]) offsets_i.

(** [decoded_offsets[cls_idxs, pt_idxs]] with the Trident head,
    [decoded_offsets[pt_idxs]] without it, for one index pair. *)
Definition offset_at (decoded_offsets : list (list (Q * Q))) (pt_idx cls_idx : nat)
  : option (Q * Q) :=
  match nth_error decoded_offsets pt_idx with
  | Some row => nth_error row (if use_trident_head cfg then cls_idx else 0%nat)
  | None => None
  end.

Fixpoint offsets_at (decoded_offsets : list (list (Q * Q))) (pt_idxs cls_idxs : list nat)
  : option (list (Q * Q)) :=
  match pt_idxs, cls_idxs with
  | p :: ps, c :: cs =>
      match offset_at decoded_offsets p c, offsets_at decoded_offsets ps cs with
      | Some o, Some os => Some (o :: os)
      | _, _ => None
      end
  | _, _ => Some []
  end.

(** [(seg_left, seg_right)] of one candidate: the point's time minus and
    plus the offsets times the point's stride. *)
Definition segment_of (pt : LabelAssign.point) (offset : Q * Q) : Q * Q :=
  (LabelAssign.pt_t pt - fst offset * LabelAssign.pt_stride pt,
   LabelAssign.pt_t pt + snd offset * LabelAssign.pt_stride pt).

(** The body of the loop over the levels: the detections of one level. *)
Definition level_detections (cls_i clip_i offsets_i : list (list Q))
    (pts_i : list LabelAssign.point) (mask_i : list bool)
    (sb_cls_i eb_cls_i : list (list Q)) : option (list detection) :=
  match Inference.pred_prob sigmoid cls_i clip_i mask_i with
  | None => None
  | Some pred_prob =>
      (* 1. keep_idxs1, topk_idxs *)
      let kept := Inference.keep_above (test_pre_nms_thresh cfg) pred_prob in
      let topk_idxs := map fst kept in
      let pred_prob := map snd kept in
      (* 2. the top k scores *)
      let num_topk := Nat.min (test_pre_nms_topk cfg) (length topk_idxs) in
      let idxs := sort_descending pred_prob in
      match gather pred_prob idxs, gather topk_idxs (firstn num_topk idxs) with
      | Some sorted, Some topk_idxs =>
          let pred_prob := firstn num_topk sorted in
          (* an integer division by zero raises *)
          if (num_classes cfg =? 0)%nat && negb (length topk_idxs =? 0)%nat then None
          else
            let pt_idxs := map (fun i => (i / num_classes cfg)%nat) topk_idxs in
            let cls_idxs := map (fun i => (i mod num_classes cfg)%nat) topk_idxs in
            let decoded_offsets := decode_offset_level offsets_i sb_cls_i eb_cls_i in
            (* 3. gather the offsets and the points *)
            match offsets_at decoded_offsets pt_idxs cls_idxs, gather pts_i pt_idxs with
            | Some offsets, Some pts =>
                (* 4. the segments *)
                let pred_segs := map (fun '(pt, o) => segment_of pt o) (combine pts offsets) in
                (* 5. keep_idxs2 *)
                Some (List.filter
                        (fun '(seg, _, _) =>
                           Qltb (test_duration_thresh cfg) (snd seg - fst seg))
                        (combine (combine pred_segs pred_prob) cls_idxs))
            | _, _ => None
            end
      | _, _ => None
      end
  end.

(** The loop over [zip(cls_logits_per_vid, clip_logits_per_vid, out_offsets,
    points, fpn_masks, lb_logits_per_vid, rb_logits_per_vid)]. *)
Fixpoint levels_detections
    (cls_logits_per_vid clip_logits_per_vid out_offsets : list (list (list Q)))
    (points : list (list LabelAssign.point)) (fpn_masks : list (list bool))
    (lb_logits_per_vid rb_logits_per_vid : list (list (list Q)))
  : option (list (list detection)) :=
  match cls_logits_per_vid, clip_logits_per_vid, out_offsets, points, fpn_masks,
        lb_logits_per_vid, rb_logits_per_vid with
  | cls_i :: cls', clip_i :: clip', offsets_i :: offs', pts_i :: points',
    mask_i :: masks', sb_cls_i :: lb', eb_cls_i :: rb' =>
      match level_detections cls_i clip_i offsets_i pts_i mask_i sb_cls_i eb_cls_i,
            levels_detections cls' clip' offs' points' masks' lb' rb' with
      | Some d, Some ds => Some (d :: ds)
      | _, _ => None
      end
  | _, _, _, _, _, _, _ => Some []
  end.

(** The record [inference_single_video] returns; [torch.cat] raises when
    there is no level. *)
Definition results_dict (dets : list detection) : gmap string value :=
  <["segments" := VSegs (map (fun '(seg, _, _) => seg) dets)]>
  (<["scores" := VVec (map (fun '(_, score, _) => score) dets)]>
  (<["labels" := VInts (map (fun '(_, _, label) => label) dets)]> ∅)).

Definition inference_single_video
    (cls_logits_per_vid clip_logits_per_vid : list (list (list Q)))
    (points : list (list LabelAssign.point)) (fpn_masks : list (list bool))
    (out_offsets lb_logits_per_vid rb_logits_per_vid : list (list (list Q)))
  : option (gmap string value) :=
  match levels_detections cls_logits_per_vid clip_logits_per_vid out_offsets points
          fpn_masks lb_logits_per_vid rb_logits_per_vid with
  | Some [] => None
  | Some levels => Some (results_dict (concat levels))
  | None => None
  end.

(** [[x[idx] for x in out]]: the tensors of one video, level by level. *)
Fixpoint per_vid {X : Type} (idx : nat) (out : list (list X)) : option (list X) :=
  match out with
  | [] => Some []
  | x :: rest =>
      match nth_error x idx, per_vid idx rest with
      | Some v, Some vs => Some (v :: vs)
      | _, _ => None
      end
  end.

(** [[x[key] for x in video_list]]; a missing key raises. *)
Fixpoint meta (key : string) (video_list : list (gmap string value))
  : option (list value) :=
  match video_list with
  | [] => Some []
  | x :: rest =>
      match x !! key, meta key rest with
      | Some v, Some vs => Some (v :: vs)
      | _, _ => None
      end
  end.

Section Batch.
Variables out_cls_logits clip_cls_logits : list (list (list (list Q))).  (* F x (B, T_i, C) *)
Variable points : list (list LabelAssign.point).                         (* F x (T_i) *)
Variable fpn_masks : list (list (list bool)).                            (* F x (B, T_i) *)
Variable out_offsets : list (list (list (list Q))).                      (* F x (B, T_i, .) *)
Variables out_lb_logits out_rb_logits : list (list (list (list Q))).     (* F x (B, C, T_i) *)

(** One round of the loop over the videos: the result of the video with
    its meta information. *)
Definition video_result (idx : nat) (vidx fps vlen stride nframes : value)
  : option (gmap string value) :=
  match per_vid idx out_cls_logits, per_vid idx clip_cls_logits,
        per_vid idx out_offsets, per_vid idx fpn_masks with
  | Some cls_logits_per_vid, Some clip_logits_per_vid,
    Some offsets_per_vid, Some fpn_masks_per_vid =>
      let boundaries :=
        if use_trident_head cfg
        then match per_vid idx out_lb_logits, per_vid idx out_rb_logits with
             | Some lb, Some rb => Some (lb, rb)
             | _, _ => None
             end
        else Some (repeat [] (length out_cls_logits), repeat [] (length out_cls_logits)) in
      match boundaries with
      | Some (lb_logits_per_vid, rb_logits_per_vid) =>
          match inference_single_video cls_logits_per_vid clip_logits_per_vid points
                  fpn_masks_per_vid offsets_per_vid lb_logits_per_vid rb_logits_per_vid with
          | Some results_per_vid =>
              Some (<["feat_num_frames" := nframes]>
                   (<["feat_stride" := stride]>
                   (<["duration" := vlen]>
                   (<["fps" := fps]>
                   (<["video_id" := vidx]> results_per_vid)))))
          | None => None
          end
      | None => None
      end
  | _, _, _, _ => None
  end.

Fixpoint video_results (idx : nat) (metas : list (value * value * value * value * value))
  : option (list (gmap string value)) :=
  match metas with
  | [] => Some []
  | (vidx, fps, vlen, stride, nframes) :: rest =>
      match video_result idx vidx fps vlen stride nframes, video_results (S idx) rest with
      | Some r, Some rs => Some (r :: rs)
      | _, _ => None
      end
  end.

(** [self.test_nms_method] and [batched_nms], for step 3. *)
Variable test_nms_method : Post.nms_method.
Variable batched_nms :
  list (Q * Q) -> list Q -> list nat -> bool -> list (Q * Q) * list Q * list nat.

(** [inference]: the meta information, the result of every video, then
    [postprocessing]. *)
Definition inference (video_list : list (gmap string value))
  : option (list (gmap string value)) :=
  match meta "video_id" video_list, meta "fps" video_list, meta "duration" video_list,
        meta "feat_stride" video_list, meta "feat_num_frames" video_list with
  | Some vid_idxs, Some vid_fps, Some vid_lens, Some vid_ft_stride, Some vid_ft_nframes =>
      match video_results 0
              (combine (combine (combine (combine vid_idxs vid_fps) vid_lens)
                          vid_ft_stride) vid_ft_nframes) with
      | Some results => Post.postprocessing test_nms_method batched_nms results
      | None => None
      end
  | _, _, _, _, _ => None
  end.

End Batch.
End SingleVideo.

(** *** A sample run

    One video, one level of three locations (the last one is padding), two
    classes, without the Trident head.  The stand-in for the sort inserts
    the scores one by one into a descending list. *)

Fixpoint insert_descending (x : nat * Q) (l : list (nat * Q)) : list (nat * Q) :=
  match l with
  | [] => [x]
  | y :: rest =>
      if Qle_bool (snd y) (snd x) then x :: y :: rest
      else y :: insert_descending x rest
  end.

Definition sample_sort (l : list Q) : list nat :=
  map fst (fold_right insert_descending [] (combine (seq 0 (length l)) l)).

Definition sample_test_cfg : test_cfg := mkTestCfg 2 0 false 0.5 2 0.05.
Definition sample_cls : list (list Q) := [[3; -1]; [1; 3]; [3; 3]].
Definition sample_clip : list (list Q) := [[1; 0]; [0; 1]; [1; 1]].
Definition sample_offsets : list (list Q) := [[0.5; 1]; [1; 1.5]; [1; 1]].
Definition sample_points : list LabelAssign.point :=
  [LabelAssign.mkPoint 0 0 4 1; LabelAssign.mkPoint 1 0 4 1; LabelAssign.mkPoint 2 0 4 1].
Definition sample_mask : list bool := [true; true; false].
Definition sample_meta_video : gmap string value :=
  <["video_id" := VStr "v0"]>
  (<["fps" := VNum 25]>
  (<["duration" := VNum 0.5]>
  (<["feat_stride" := VNum 4]>
  (<["feat_num_frames" := VNum 16]> ∅)))).

Definition sample_level : option (list detection) :=
  level_detections sample_test_cfg Inference.sample_sigmoid (fun x => x) sample_sort
    sample_cls sample_clip sample_offsets sample_points sample_mask [] [].

Definition sample_inference : option (list (gmap string value)) :=
  inference sample_test_cfg Inference.sample_sigmoid (fun x => x) sample_sort
    [[sample_cls]] [[sample_clip]] [sample_points] [[sample_mask]] [[sample_offsets]]
    [] [] Post.NoNms Post.no_nms [sample_meta_video].

End Detect.

(** * Proofs *)

(** ** Rational comparisons *)

Lemma Qle_bool_false (x y : Q) : Qle_bool x y = false -> y < x.
Proof.
  intros H. apply Qnot_le_lt. intros Hle.
  apply Qle_bool_iff in Hle. congruence.
Qed.

Lemma Qltb_true (x y : Q) : Num.Qltb x y = true <-> x < y.
Proof.
  unfold Num.Qltb. split; intros H.
  - apply negb_true_iff in H. now apply Qle_bool_false.
  - apply negb_true_iff. destruct (Qle_bool y x) eqn:E; [|reflexivity].
    apply Qle_bool_iff in E. lra.
Qed.

Lemma Qltb_false (x y : Q) : Num.Qltb x y = false <-> y <= x.
Proof.
  unfold Num.Qltb. rewrite negb_false_iff. apply Qle_bool_iff.
Qed.

(** Turn every boolean comparison in the context into a [Q] inequality. *)
Ltac q_reflect :=
  repeat match goal with
  | H : Qle_bool _ _ = true |- _ => apply Qle_bool_iff in H
  | H : Qle_bool _ _ = false |- _ => apply Qle_bool_false in H
  | H : Num.Qltb _ _ = true |- _ => apply Qltb_true in H
  | H : Num.Qltb _ _ = false |- _ => apply Qltb_false in H
  end.

(** Split on the comparisons hidden in [qmax], [qmin] and [clamp]. *)
Ltac q_cases :=
  unfold Num.clamp, Num.qmax, Num.qmin in *;
  repeat match goal with
  | |- context [if Qle_bool ?a ?b then _ else _] => destruct (Qle_bool a b) eqn:?
  | H : context [if Qle_bool ?a ?b then _ else _] |- _ => destruct (Qle_bool a b) eqn:?
  end;
  q_reflect.

Lemma clamp_bounds (x : Q) : 0 <= Num.clamp 0 1 x /\ Num.clamp 0 1 x <= 1.
Proof. q_cases; lra. Qed.

Lemma clamp_ge_1 (x : Q) : 1 <= x -> Num.clamp 0 1 x == 1.
Proof. intros H. q_cases; lra. Qed.

Lemma clamp_le_0 (x : Q) : x <= 0 -> Num.clamp 0 1 x == 0.
Proof. intros H. q_cases; lra. Qed.

Lemma qmax_spec (x y : Q) :
  x <= Num.qmax x y /\ y <= Num.qmax x y /\ (Num.qmax x y = x \/ Num.qmax x y = y).
Proof. q_cases; repeat split; auto; lra. Qed.

Lemma qsum_nonneg (l : list Q) : Forall (fun x => 0 <= x) l -> 0 <= Num.qsum l.
Proof.
  induction 1 as [|x l Hx _ IH]; simpl; [lra|].
  fold (Num.qsum l). lra.
Qed.


Lemma qsum_ge_member (l : list Q) (x : Q) :
  Forall (fun y => 0 <= y) l -> In x l -> x <= Num.qsum l.
Proof.
  induction 1 as [|y l Hy Hl IH]; simpl; [tauto|].
  fold (Num.qsum l). intros [->|Hin].
  - pose proof (qsum_nonneg l Hl). lra.
  - specialize (IH Hin). lra.
Qed.

Lemma qsum_nonzero_member (l : list Q) :
  ~ Num.qsum l == 0 -> exists x, In x l /\ ~ x == 0.
Proof.
  induction l as [|y l IH]; simpl; intros H.
  - exfalso. apply H. reflexivity.
  - fold (Num.qsum l) in H.
    destruct (Qeq_dec y 0) as [Hy|Hy].
    + destruct IH as (x & Hx & Hnz).
      * intros Hs. apply H. lra.
      * exists x. auto.
    + exists y. auto.
Qed.

Lemma of_bool_cases (b : bool) : Num.of_bool b = 1 \/ Num.of_bool b = 0.
Proof. destruct b; auto. Qed.


(** ** Label assignment *)

Import LabelAssign.

Lemma len_leb_refl (a : len_t) : len_leb a a = true.
Proof. destruct a; simpl; [apply Qle_bool_iff; lra | reflexivity]. Qed.

Lemma len_leb_trans (a b c : len_t) :
  len_leb a b = true -> len_leb b c = true -> len_leb a c = true.
Proof.
  destruct a, b, c; simpl; intros H1 H2; try reflexivity; try discriminate.
  q_reflect. apply Qle_bool_iff. lra.
Qed.

Lemma len_ltb_leb (a b : len_t) : len_ltb a b = true -> len_leb a b = true.
Proof.
  destruct a, b; simpl; intros H; try reflexivity; try discriminate.
  q_reflect. apply Qle_bool_iff. lra.
Qed.

Lemma len_ltb_false_leb (a b : len_t) : len_ltb a b = false -> len_leb b a = true.
Proof.
  destruct a, b; simpl; intros H; try reflexivity; try discriminate.
  q_reflect. now apply Qle_bool_iff.
Qed.

Lemma len_leb_fin (a b : len_t) : len_leb a b = true -> is_fin b = true -> is_fin a = true.
Proof. destruct a, b; simpl; congruence. Qed.

(** The scan returns either the running minimum it started from or an
    element of the list, and what it returns is below both. *)
Lemma row_min_from_spec (l : list len_t) : forall best bi i,
  let r := row_min_from best bi i l in
  ((fst r = best /\ snd r = bi) \/
   (exists j, nth_error l j = Some (fst r) /\ snd r = (i + j)%nat))
  /\ len_leb (fst r) best = true
  /\ (forall x, In x l -> len_leb (fst r) x = true).
Proof.
  induction l as [|x l IH]; intros best bi i; simpl.
  - split; [left; auto|]. split; [apply len_leb_refl | tauto].
  - destruct (len_ltb x best) eqn:E.
    + destruct (IH x i (S i)) as (Hwhere & Hle & Hall). split; [|split].
      * right. destruct Hwhere as [[Hv Hi]|(j & Hj & Hi)].
        -- exists 0%nat. simpl. rewrite Hv, Hi. split; [reflexivity | lia].
        -- exists (S j). simpl. split; [exact Hj | lia].
      * eapply len_leb_trans; [exact Hle|]. now apply len_ltb_leb.
      * intros y [<-|Hy]; auto.
    + destruct (IH best bi (S i)) as (Hwhere & Hle & Hall). split; [|split].
      * destruct Hwhere as [Hs|(j & Hj & Hi)]; [left; exact Hs|].
        right. exists (S j). simpl. split; [exact Hj | lia].
      * exact Hle.
      * intros y [<-|Hy]; auto.
        eapply len_leb_trans; [exact Hle|]. now apply len_ltb_false_leb.
Qed.

(** [lens.min(dim=1)] returns an entry of the row, at the index it
    returns, and that entry is a lower bound of the row. *)
Lemma row_min_spec (row : list len_t) :
  row <> [] ->
  nth_error row (snd (row_min row)) = Some (fst (row_min row))
  /\ (forall x, In x row -> len_leb (fst (row_min row)) x = true).
Proof.
  destruct row as [|x l]; [congruence|]. intros _. unfold row_min.
  destruct (row_min_from_spec l x 0%nat 1%nat) as (Hwhere & Hle & Hall).
  split.
  - destruct Hwhere as [[Hv Hi]|(j & Hj & Hi)].
    + rewrite Hv, Hi. reflexivity.
    + rewrite Hi. simpl. exact Hj.
  - intros y [<-|Hy]; auto.
Qed.



Lemma lens_entry_fin cfg p s d :
  lens_entry cfg p s = Fin d -> candidate cfg p s = true /\ d = snd s - fst s.
Proof.
  unfold lens_entry, candidate.
  destruct (inside_gt_seg_mask cfg p s), (inside_regress_range p s);
    simpl; intros H; inversion H; auto.
Qed.

Lemma lens_entry_candidate cfg p s :
  candidate cfg p s = true -> lens_entry cfg p s = Fin (snd s - fst s).
Proof.
  unfold lens_entry, candidate. intros H. apply andb_true_iff in H as [-> ->].
  reflexivity.
Qed.

Lemma lens_entry_not_candidate cfg p s :
  candidate cfg p s = false -> lens_entry cfg p s = Inf.
Proof.
  unfold lens_entry, candidate.
  destruct (inside_gt_seg_mask cfg p s), (inside_regress_range p s);
    simpl; intros H; congruence.
Qed.


(** *** One-hot rows and the matrix product *)

Lemma one_hot_all_some (n : nat) (labels : list nat) :
  Forall (fun l => (l < n)%nat) labels ->
  one_hot_all n labels = Some (map (one_hot_row n) labels).
Proof.
  induction 1 as [|l r Hl _ IH]; simpl; [reflexivity|].
  unfold one_hot. apply Nat.ltb_lt in Hl. rewrite Hl, IH. reflexivity.
Qed.

Lemma one_hot_all_inv (n : nat) (labels : list nat) (M : list (list Q)) :
  one_hot_all n labels = Some M ->
  M = map (one_hot_row n) labels /\ Forall (fun l => (l < n)%nat) labels.
Proof.
  revert M. induction labels as [|l r IH]; simpl; intros M H.
  - inversion H. auto.
  - unfold one_hot in H. destruct (l <? n)%nat eqn:E; [|discriminate].
    destruct (one_hot_all n r) as [hs|]; [|discriminate].
    inversion H. destruct (IH hs eq_refl) as [-> Hr].
    apply Nat.ltb_lt in E. split; [reflexivity | constructor; auto].
Qed.

Lemma nth_one_hot_row (n label c : nat) :
  (c < n)%nat -> nth c (one_hot_row n label) 0 = Num.of_bool (c =? label)%nat.
Proof.
  intros H. unfold one_hot_row.
  rewrite (nth_indep _ 0 (Num.of_bool (n =? label)%nat)) by (rewrite length_map, length_seq; lia).
  rewrite (map_nth (fun c => Num.of_bool (c =? label)%nat)), seq_nth by lia.
  reflexivity.
Qed.

Lemma column_one_hot (n c : nat) (labels : list nat) :
  (c < n)%nat ->
  column c (map (one_hot_row n) labels) = map (fun l => Num.of_bool (c =? l)%nat) labels.
Proof.
  intros H. unfold column. rewrite map_map. apply map_ext. intros l.
  now apply nth_one_hot_row.
Qed.

Lemma nth_vec_mat (ncols c : nat) (v : list Q) (M : list (list Q)) (f : Q -> Q) :
  (c < ncols)%nat -> nth c (map f (vec_mat ncols v M)) 0 = f (dot v (column c M)).
Proof.
  intros H. unfold vec_mat. rewrite map_map.
  rewrite (nth_indep _ 0 (f (dot v (column ncols M)))) by (rewrite length_map, length_seq; lia).
  rewrite (map_nth (fun c => f (dot v (column c M)))), seq_nth by lia.
  reflexivity.
Qed.

Lemma length_vec_mat (ncols : nat) (v : list Q) (M : list (list Q)) (f : Q -> Q) :
  length (map f (vec_mat ncols v M)) = ncols.
Proof. unfold vec_mat. now rewrite !length_map, length_seq. Qed.

Lemma in_map_combine {A B C : Type} (f : A * B -> C) (l1 : list A) (l2 : list B) (x : C) :
  In x (map f (combine l1 l2)) ->
  exists k a b, nth_error l1 k = Some a /\ nth_error l2 k = Some b /\ x = f (a, b).
Proof.
  revert l2. induction l1 as [|a l1 IH]; intros [|b l2]; simpl; try tauto.
  intros [<-|H].
  - exists 0%nat, a, b. auto.
  - destruct (IH l2 H) as (k & a' & b' & H1 & H2 & ->).
    exists (S k), a', b'. auto.
Qed.

Lemma map_combine_in {A B C : Type} (f : A * B -> C) (l1 : list A) (l2 : list B) k a b :
  nth_error l1 k = Some a -> nth_error l2 k = Some b ->
  In (f (a, b)) (map f (combine l1 l2)).
Proof.
  revert l1 l2. induction k as [|k IH]; intros [|a' l1] [|b' l2]; simpl; try discriminate.
  - intros H1 H2. inversion H1; inversion H2. auto.
  - intros H1 H2. right. eauto.
Qed.

(** Every summand of [mask @ one_hot] is 0 or 1. *)
Lemma dot_terms_01 (row : list len_t) (m : len_t) (labels : list nat) (c : nat) (x : Q) :
  In x (map (fun '(a, b) => a * b)
         (combine (map (fun l => Num.of_bool (len_leb l (len_add m 0.001) && is_fin l)) row)
                  (map (fun l => Num.of_bool (c =? l)%nat) labels))) ->
  x == 0 \/ x == 1.
Proof.
  intros H. apply in_map_combine in H as (k & a & b & Ha & Hb & ->).
  rewrite nth_error_map in Ha, Hb.
  destruct (nth_error row k); [|discriminate].
  destruct (nth_error labels k); [|discriminate].
  simpl in Ha, Hb. inversion Ha; inversion Hb.
  destruct (len_leb _ _ && _), (c =? _)%nat; simpl; [right|left|left|left]; reflexivity.
Qed.


Lemma target_row_length cfg ncols p segs OH :
  length (target_row cfg ncols p segs OH) = ncols.
Proof. apply length_vec_mat. Qed.

Lemma target_row_bounds cfg ncols p segs OH :
  Forall (fun x => 0 <= x /\ x <= 1) (target_row cfg ncols p segs OH).
Proof.
  unfold target_row. apply List.Forall_forall. intros x Hx.
  apply in_map_iff in Hx as (y & <- & _). apply clamp_bounds.
Qed.



(** Labels that [F.one_hot] accepts for both vocabularies. *)
Lemma label_points_single_video_some cfg pts segs labels :
  segs <> [] ->
  length labels = length segs ->
  Forall (fun l => (l < num_classes cfg)%nat /\ (l < 200)%nat) labels ->
  label_points_single_video cfg pts segs labels =
  Some (map (fun p => target_row cfg (num_classes cfg) p segs
                        (map (one_hot_row (num_classes cfg)) labels)) pts,
        map (fun p => reg_target cfg p segs) pts,
        map (fun p => target_row cfg 200 p segs (map (one_hot_row 200) labels)) pts).
Proof.
  intros Hne Hlen Hlab. unfold label_points_single_video.
  destruct segs as [|s segs]; [congruence|]. simpl length at 1. simpl Nat.eqb at 1.
  rewrite (one_hot_all_some (num_classes cfg)), (one_hot_all_some 200).
  - rewrite Hlen, Nat.eqb_refl. reflexivity.
  - eapply List.Forall_impl; [|exact Hlab]. simpl. tauto.
  - eapply List.Forall_impl; [|exact Hlab]. simpl. tauto.
Qed.

Lemma label_points_single_video_inv cfg pts segs labels cls reg clip :
  label_points_single_video cfg pts segs labels = Some (cls, reg, clip) ->
  (segs = [] /\ cls = map (fun _ => repeat 0 (num_classes cfg)) pts
   /\ reg = map (fun _ => (0, 0)) pts /\ clip = map (fun _ => repeat 0 200%nat) pts)
  \/
  (segs <> [] /\ length labels = length segs
   /\ cls = map (fun p => target_row cfg (num_classes cfg) p segs
                            (map (one_hot_row (num_classes cfg)) labels)) pts
   /\ reg = map (fun p => reg_target cfg p segs) pts
   /\ clip = map (fun p => target_row cfg 200 p segs (map (one_hot_row 200) labels)) pts).
Proof.
  unfold label_points_single_video. destruct segs as [|s segs].
  - simpl. intros H. inversion H. left. auto.
  - simpl length at 1. simpl Nat.eqb at 1. cbv iota.
    destruct (one_hot_all (num_classes cfg) labels) as [M|] eqn:E1; [|discriminate].
    destruct (one_hot_all 200 labels) as [M2|] eqn:E2; [|discriminate].
    destruct (length labels =? length (s :: segs))%nat eqn:El; [|discriminate].
    intros H. inversion H. right.
    apply one_hot_all_inv in E1 as [-> _]. apply one_hot_all_inv in E2 as [-> _].
    apply Nat.eqb_eq in El. repeat split; auto; discriminate.
Qed.







(** ** Label assignment in the arithmetic of the tensors: the tie rule *)

(** The float of a result depends on the value of the result only. *)
Lemma fl_value rnd (x y : Q) :
  x == y -> LabelAssignFp.fl rnd x = LabelAssignFp.fl rnd y.
Proof. intros H. unfold LabelAssignFp.fl. now rewrite (Qred_complete _ _ H). Qed.

Lemma fp_lens_entry_fin rnd cfg p s d :
  LabelAssignFp.lens_entry rnd cfg p s = Fin d ->
  LabelAssignFp.candidate rnd cfg p s = true /\ d = LabelAssignFp.lens rnd s.
Proof.
  unfold LabelAssignFp.lens_entry, LabelAssignFp.candidate.
  destruct (LabelAssignFp.inside_gt_seg_mask rnd cfg p s),
           (LabelAssignFp.inside_regress_range rnd p s);
    simpl; intros H; inversion H; auto.
Qed.

Lemma fp_lens_entry_candidate rnd cfg p s :
  LabelAssignFp.candidate rnd cfg p s = true ->
  LabelAssignFp.lens_entry rnd cfg p s = Fin (LabelAssignFp.lens rnd s).
Proof.
  unfold LabelAssignFp.lens_entry, LabelAssignFp.candidate. intros H.
  apply andb_true_iff in H as [-> ->]. reflexivity.
Qed.

(** [lens.min(dim=1)] on the row of a point with a candidate: the minimum
    is the computed duration of a candidate, found at the index that is
    returned, and no candidate has a smaller computed duration. *)
Lemma fp_row_min_candidate rnd cfg p segs s :
  In s segs -> LabelAssignFp.candidate rnd cfg p s = true ->
  exists s0,
    nth_error segs (snd (row_min (LabelAssignFp.lens_row rnd cfg p segs))) = Some s0
    /\ LabelAssignFp.candidate rnd cfg p s0 = true
    /\ fst (row_min (LabelAssignFp.lens_row rnd cfg p segs)) = Fin (LabelAssignFp.lens rnd s0)
    /\ forall s', In s' segs -> LabelAssignFp.candidate rnd cfg p s' = true ->
         LabelAssignFp.lens rnd s0 <= LabelAssignFp.lens rnd s'.
Proof.
  intros Hs Hc.
  assert (Hrl : LabelAssignFp.lens_row rnd cfg p segs <> [])
    by (unfold LabelAssignFp.lens_row; destruct segs; [destruct Hs | discriminate]).
  destruct (row_min_spec _ Hrl) as [Hat Hlow].
  assert (Hin : forall s', In s' segs -> LabelAssignFp.candidate rnd cfg p s' = true ->
            In (Fin (LabelAssignFp.lens rnd s')) (LabelAssignFp.lens_row rnd cfg p segs)).
  { intros s' Hs' Hc'. unfold LabelAssignFp.lens_row. apply in_map_iff. exists s'.
    split; [now apply fp_lens_entry_candidate | exact Hs']. }
  pose proof (len_leb_fin _ _ (Hlow _ (Hin s Hs Hc)) eq_refl) as Hfin.
  remember (row_min (LabelAssignFp.lens_row rnd cfg p segs)) as r eqn:Er.
  unfold LabelAssignFp.lens_row in Hat. rewrite nth_error_map in Hat.
  destruct (nth_error segs (snd r)) as [s0|] eqn:Es0; [|discriminate].
  cbn [option_map] in Hat.
  destruct (fst r) as [d|] eqn:Ed; [|discriminate].
  inversion Hat as [Hd]. apply fp_lens_entry_fin in Hd as [Hc0 Hdur].
  exists s0. split; [reflexivity|]. split; [exact Hc0|].
  subst d. split; [now apply fp_lens_entry_candidate|].
  intros s' Hs' Hc'. pose proof (Hlow _ (Hin s' Hs' Hc')) as Hle.
  simpl in Hle. now apply Qle_bool_iff in Hle.
Qed.

(** [min_len + 1e-3] of a point, from any candidate of least computed
    duration. *)
Lemma fp_threshold_shortest rnd cfg p segs s0 :
  In s0 segs -> LabelAssignFp.candidate rnd cfg p s0 = true ->
  (forall s', In s' segs -> LabelAssignFp.candidate rnd cfg p s' = true ->
     LabelAssignFp.lens rnd s0 <= LabelAssignFp.lens rnd s') ->
  LabelAssignFp.threshold rnd (fst (row_min (LabelAssignFp.lens_row rnd cfg p segs)))
  = Fin (LabelAssignFp.fl rnd (LabelAssignFp.lens rnd s0 + LabelAssignFp.fl rnd 0.001)).
Proof.
  intros Hs0 Hc0 Hmin.
  destruct (fp_row_min_candidate rnd cfg p segs s0 Hs0 Hc0) as (s1 & Hat & Hc1 & -> & Hlow).
  simpl. f_equal. apply fl_value.
  pose proof (Hlow s0 Hs0 Hc0). pose proof (Hmin s1 (nth_error_In _ _ Hat) Hc1).
  lra.
Qed.

Lemma fp_dot_terms_01 (f : len_t -> bool) (row : list len_t) (labels : list nat)
    (c : nat) (x : Q) :
  In x (map (fun '(a, b) => a * b)
         (combine (map (fun l => Num.of_bool (f l)) row)
                  (map (fun l => Num.of_bool (c =? l)%nat) labels))) ->
  x == 0 \/ x == 1.
Proof.
  intros H. apply in_map_combine in H as (k & a & b & Ha & Hb & ->).
  rewrite nth_error_map in Ha, Hb.
  destruct (nth_error row k); [|discriminate].
  destruct (nth_error labels k); [|discriminate].
  simpl in Ha, Hb. inversion Ha; inversion Hb.
  destruct (f _), (c =? _)%nat; simpl; [right|left|left|left]; reflexivity.
Qed.

Lemma fp_target_row_length rnd cfg ncols p segs OH :
  length (LabelAssignFp.target_row rnd cfg ncols p segs OH) = ncols.
Proof. apply length_vec_mat. Qed.

Lemma fp_target_row_bounds rnd cfg ncols p segs OH :
  Forall (fun x => 0 <= x /\ x <= 1) (LabelAssignFp.target_row rnd cfg ncols p segs OH).
Proof.
  unfold LabelAssignFp.target_row. apply List.Forall_forall. intros x Hx.
  apply in_map_iff in Hx as (y & <- & _). apply clamp_bounds.
Qed.

(** An entry of a target row, as a clamped sum over the segments. *)
Lemma fp_nth_target_row rnd cfg ncols p segs labels c :
  (c < ncols)%nat ->
  nth c (LabelAssignFp.target_row rnd cfg ncols p segs (map (one_hot_row ncols) labels)) 0 =
  Num.clamp 0 1
    (LabelAssign.dot
       (LabelAssignFp.min_len_mask_row rnd (LabelAssignFp.lens_row rnd cfg p segs))
       (map (fun l => Num.of_bool (c =? l)%nat) labels)).
Proof.
  intros Hc. unfold LabelAssignFp.target_row. rewrite nth_vec_mat by exact Hc.
  now rewrite column_one_hot.
Qed.

(** A candidate whose computed duration is at most the computed
    [min_len + 1e-3] sets the entry of its label to 1. *)
Lemma fp_target_row_tie rnd cfg ncols p segs labels j s lab s0 :
  length labels = length segs ->
  nth_error segs j = Some s -> nth_error labels j = Some lab -> (lab < ncols)%nat ->
  LabelAssignFp.candidate rnd cfg p s = true ->
  In s0 segs -> LabelAssignFp.candidate rnd cfg p s0 = true ->
  (forall s', In s' segs -> LabelAssignFp.candidate rnd cfg p s' = true ->
     LabelAssignFp.lens rnd s0 <= LabelAssignFp.lens rnd s') ->
  LabelAssignFp.lens rnd s
    <= LabelAssignFp.fl rnd (LabelAssignFp.lens rnd s0 + LabelAssignFp.fl rnd 0.001) ->
  nth lab (LabelAssignFp.target_row rnd cfg ncols p segs (map (one_hot_row ncols) labels)) 0
  == 1.
Proof.
  intros Hlen Hs Hlab Hlt Hcand Hs0 Hc0 Hmin Htie.
  rewrite fp_nth_target_row by exact Hlt.
  apply clamp_ge_1. unfold LabelAssign.dot, LabelAssignFp.min_len_mask_row.
  rewrite (fp_threshold_shortest rnd cfg p segs s0 Hs0 Hc0 Hmin).
  set (thr := Fin (LabelAssignFp.fl rnd
                     (LabelAssignFp.lens rnd s0 + LabelAssignFp.fl rnd 0.001))).
  assert (Hin : In (1 * 1) (map (fun '(a, b) => a * b)
     (combine (map (fun l => Num.of_bool (len_leb l thr && is_fin l))
                   (LabelAssignFp.lens_row rnd cfg p segs))
              (map (fun l => Num.of_bool (lab =? l)%nat) labels)))).
  { apply (map_combine_in (fun '(a, b) => a * b) _ _ j 1 1).
    - unfold LabelAssignFp.lens_row. rewrite !nth_error_map, Hs. cbn [option_map].
      rewrite (fp_lens_entry_candidate rnd cfg p s Hcand). unfold thr. simpl.
      assert (Qle_bool (LabelAssignFp.lens rnd s)
                (LabelAssignFp.fl rnd
                   (LabelAssignFp.lens rnd s0 + LabelAssignFp.fl rnd 0.001)) = true) as ->
        by (apply Qle_bool_iff; exact Htie).
      reflexivity.
    - rewrite nth_error_map, Hlab. simpl. now rewrite Nat.eqb_refl. }
  apply qsum_ge_member in Hin.
  - lra.
  - apply List.Forall_forall. intros x Hx.
    apply (fp_dot_terms_01 (fun l => len_leb l thr && is_fin l)) in Hx. lra.
Qed.

(** An entry of a target row that is not zero is set by a candidate with
    that label whose computed duration is at most the computed
    [min_len + 1e-3]. *)
Lemma fp_target_row_set_by rnd cfg ncols p segs labels c :
  ~ nth c (LabelAssignFp.target_row rnd cfg ncols p segs (map (one_hot_row ncols) labels)) 0
    == 0 ->
  exists k s s0,
    nth_error segs k = Some s /\ nth_error labels k = Some c
    /\ LabelAssignFp.candidate rnd cfg p s = true
    /\ In s0 segs /\ LabelAssignFp.candidate rnd cfg p s0 = true
    /\ (forall s', In s' segs -> LabelAssignFp.candidate rnd cfg p s' = true ->
          LabelAssignFp.lens rnd s0 <= LabelAssignFp.lens rnd s')
    /\ LabelAssignFp.lens rnd s
       <= LabelAssignFp.fl rnd (LabelAssignFp.lens rnd s0 + LabelAssignFp.fl rnd 0.001).
Proof.
  intros Hnz.
  assert (Hc : (c < ncols)%nat).
  { destruct (Nat.lt_ge_cases c ncols) as [H|H]; [exact H|]. exfalso. apply Hnz.
    rewrite nth_overflow by (rewrite fp_target_row_length; exact H). reflexivity. }
  rewrite fp_nth_target_row in Hnz by exact Hc.
  assert (Hdot : ~ LabelAssign.dot
                     (LabelAssignFp.min_len_mask_row rnd (LabelAssignFp.lens_row rnd cfg p segs))
                     (map (fun l => Num.of_bool (c =? l)%nat) labels) == 0).
  { intros H. apply Hnz. apply clamp_le_0. lra. }
  unfold LabelAssign.dot in Hdot. apply qsum_nonzero_member in Hdot as (x & Hx & Hxnz).
  unfold LabelAssignFp.min_len_mask_row in Hx.
  apply in_map_combine in Hx as (k & a & b & Ha & Hb & ->).
  unfold LabelAssignFp.lens_row in Ha. rewrite !nth_error_map in Ha.
  rewrite nth_error_map in Hb.
  destruct (nth_error segs k) as [s|] eqn:Es; [|discriminate].
  destruct (nth_error labels k) as [lab|] eqn:El; [|discriminate].
  cbn [option_map] in Ha, Hb. inversion Ha as [Ha']. inversion Hb as [Hb']. clear Ha Hb.
  rewrite <- Ha', <- Hb' in Hxnz.
  destruct (c =? lab)%nat eqn:Ecl; [|exfalso; apply Hxnz; simpl; lra].
  apply Nat.eqb_eq in Ecl. subst lab.
  fold (LabelAssignFp.lens_row rnd cfg p segs) in Hxnz.
  destruct (len_leb (LabelAssignFp.lens_entry rnd cfg p s)
              (LabelAssignFp.threshold rnd
                 (fst (row_min (LabelAssignFp.lens_row rnd cfg p segs))))
            && is_fin (LabelAssignFp.lens_entry rnd cfg p s)) eqn:Em;
    [|exfalso; apply Hxnz; simpl; lra].
  apply andb_true_iff in Em as [Hle Hfin].
  destruct (LabelAssignFp.lens_entry rnd cfg p s) as [d|] eqn:Ed; [|discriminate].
  apply fp_lens_entry_fin in Ed as [Hcand ->].
  destruct (fp_row_min_candidate rnd cfg p segs s (nth_error_In _ _ Es) Hcand)
    as (s0 & Hat & Hc0 & Hfst & Hlow).
  rewrite Hfst in Hle. simpl in Hle. apply Qle_bool_iff in Hle.
  exists k, s, s0. split; [exact Es|]. split; [exact El|]. split; [exact Hcand|].
  split; [eapply nth_error_In; exact Hat|]. split; [exact Hc0|].
  split; [exact Hlow | exact Hle].
Qed.

(** Labels that [F.one_hot] accepts for both vocabularies. *)
Lemma fp_label_points_single_video_some rnd cfg pts segs labels :
  segs <> [] ->
  length labels = length segs ->
  Forall (fun l => (l < num_classes cfg)%nat /\ (l < 200)%nat) labels ->
  LabelAssignFp.label_points_single_video rnd cfg pts segs labels =
  Some (map (fun p => LabelAssignFp.target_row rnd cfg (num_classes cfg) p segs
                        (map (one_hot_row (num_classes cfg)) labels)) pts,
        map (fun p => LabelAssignFp.reg_target rnd cfg p segs) pts,
        map (fun p => LabelAssignFp.target_row rnd cfg 200 p segs
                        (map (one_hot_row 200) labels)) pts).
Proof.
  intros Hne Hlen Hlab. unfold LabelAssignFp.label_points_single_video.
  destruct segs as [|s segs]; [congruence|]. simpl length at 1. simpl Nat.eqb at 1.
  rewrite (one_hot_all_some (num_classes cfg)), (one_hot_all_some 200).
  - rewrite Hlen, Nat.eqb_refl. reflexivity.
  - eapply List.Forall_impl; [|exact Hlab]. simpl. tauto.
  - eapply List.Forall_impl; [|exact Hlab]. simpl. tauto.
Qed.

(** The classification targets of one point, read off a run that
    returned. *)
Lemma fp_label_points_single_video_rows rnd cfg pts segs labels cls reg clip i p :
  LabelAssignFp.label_points_single_video rnd cfg pts segs labels = Some (cls, reg, clip) ->
  nth_error pts i = Some p ->
  (segs = []
   /\ nth_error cls i = Some (repeat 0 (num_classes cfg))
   /\ nth_error clip i = Some (repeat 0 200%nat))
  \/
  (segs <> [] /\ length labels = length segs
   /\ nth_error cls i =
      Some (LabelAssignFp.target_row rnd cfg (num_classes cfg) p segs
              (map (one_hot_row (num_classes cfg)) labels))
   /\ nth_error clip i =
      Some (LabelAssignFp.target_row rnd cfg 200 p segs (map (one_hot_row 200) labels))).
Proof.
  unfold LabelAssignFp.label_points_single_video. intros Hrun Hp.
  destruct segs as [|s segs].
  - simpl in Hrun. inversion Hrun. left.
    rewrite !nth_error_map, Hp. cbn [option_map]. auto.
  - simpl length at 1 in Hrun. simpl Nat.eqb at 1 in Hrun. cbv iota in Hrun.
    destruct (one_hot_all (num_classes cfg) labels) as [M|] eqn:E1; [|discriminate].
    destruct (one_hot_all 200 labels) as [M2|] eqn:E2; [|discriminate].
    destruct (length labels =? length (s :: segs))%nat eqn:El; [|discriminate].
    inversion Hrun. right.
    apply one_hot_all_inv in E1 as [-> _]. apply one_hot_all_inv in E2 as [-> _].
    apply Nat.eqb_eq in El.
    rewrite !nth_error_map, Hp. cbn [option_map].
    repeat split; auto; discriminate.
Qed.

(** C3.  The tie rule, in the arithmetic of the tensors (any rounding
    [rnd] of the results to their dtype).  For a grid point with a
    candidate segment, let [s0] be a candidate of minimum duration [lens];
    every candidate segment [s] whose duration is within [1e-3] of that
    minimum, as the code tests it on the computed values
    ([lens s <= min_len + 1e-3], the sum rounded to the dtype), contributes
    its one-hot label: the entry of its label is 1 in the primary and in
    the 200-way secondary target row of the point, and both rows are
    elementwise in [[0, 1]]. *)
Theorem tied_candidates_multi_hot rnd cfg pts segs labels i p j s lab s0 :
  length labels = length segs ->
  Forall (fun l => (l < num_classes cfg)%nat /\ (l < 200)%nat) labels ->
  nth_error pts i = Some p ->
  nth_error segs j = Some s -> nth_error labels j = Some lab ->
  LabelAssignFp.candidate rnd cfg p s = true ->
  In s0 segs -> LabelAssignFp.candidate rnd cfg p s0 = true ->
  (forall s', In s' segs -> LabelAssignFp.candidate rnd cfg p s' = true ->
     LabelAssignFp.lens rnd s0 <= LabelAssignFp.lens rnd s') ->
  LabelAssignFp.lens rnd s
    <= LabelAssignFp.fl rnd (LabelAssignFp.lens rnd s0 + LabelAssignFp.fl rnd 0.001) ->
  exists cls reg clip row row2,
    LabelAssignFp.label_points_single_video rnd cfg pts segs labels = Some (cls, reg, clip)
    /\ nth_error cls i = Some row /\ nth_error clip i = Some row2
    /\ nth lab row 0 == 1 /\ nth lab row2 0 == 1
    /\ length row = num_classes cfg /\ length row2 = 200%nat
    /\ Forall (fun x => 0 <= x /\ x <= 1) row
    /\ Forall (fun x => 0 <= x /\ x <= 1) row2.
Proof.
  intros Hlen Hlab Hp Hs Hl Hcand Hs0 Hc0 Hmin Htie.
  assert (Hne : segs <> []) by (destruct segs; [destruct j|]; discriminate).
  rewrite fp_label_points_single_video_some by auto.
  do 5 eexists. split; [reflexivity|].
  rewrite !nth_error_map, Hp. cbn [option_map].
  rewrite List.Forall_forall in Hlab.
  destruct (Hlab lab (nth_error_In _ _ Hl)) as [H1 H2].
  do 2 (split; [reflexivity|]).
  split; [eapply fp_target_row_tie; eauto|].
  split; [eapply fp_target_row_tie; eauto|].
  split; [apply fp_target_row_length|].
  split; [apply fp_target_row_length|].
  split; apply fp_target_row_bounds.
Qed.

Lemma tied_candidates_multi_hot_witness :
  exists cls reg clip row row2,
    LabelAssignFp.label_points_single_video Float32.round32 cfg0 pts_pyramid
      LabelAssignFp.segs_close LabelAssignFp.labels_close = Some (cls, reg, clip)
    /\ nth_error cls 2 = Some row /\ nth_error clip 2 = Some row2
    /\ nth 1 row 0 == 1 /\ nth 1 row2 0 == 1
    /\ length row = num_classes cfg0 /\ length row2 = 200%nat
    /\ Forall (fun x => 0 <= x /\ x <= 1) row
    /\ Forall (fun x => 0 <= x /\ x <= 1) row2.
Proof.
  apply (tied_candidates_multi_hot Float32.round32 cfg0 pts_pyramid
           LabelAssignFp.segs_close LabelAssignFp.labels_close 2
           (mkPoint 2 0 4 1) 1 (1 + (1 # 2048), 3 + (1 # 1024)) 1%nat (1, 3)).
  - reflexivity.
  - repeat constructor.
  - reflexivity.
  - reflexivity.
  - reflexivity.
  - vm_compute. reflexivity.
  - simpl. auto.
  - vm_compute. reflexivity.
  - intros s' [<-|[<-|[]]] _; apply Qle_bool_iff; vm_compute; reflexivity.
  - apply Qle_bool_iff. vm_compute. reflexivity.
Defined.

(** On float32 the tie is decided by the rounded values.  The two segments
    of [segs_edge] are candidates of the point and their exact durations
    differ by less than [0.001], yet the float32 duration of the second is
    above the float32 sum [min_len + 1e-3]: its label is not set.  The two
    segments of [segs_over] differ by more than [0.001] in exact duration,
    and the float32 duration of the second equals the float32 sum: both
    labels are set. *)
Example float32_tie_boundary :
  (Forall (fun s => LabelAssignFp.candidate Float32.round32 cfg0 (mkPoint 4 0 10000 1) s = true)
          LabelAssignFp.segs_edge
   /\ (3343749 # 524288) - (8855477 # 4194304)
      < (13372899 # 2097152) - (8855477 # 4194304) + 0.001
   /\ map (fun p => LabelAssignFp.target_row Float32.round32 cfg0 2 p
                      LabelAssignFp.segs_edge
                      (map (one_hot_row 2) LabelAssignFp.labels_close))
          LabelAssignFp.pts_edge = [[1; 0]])
  /\ (Forall (fun s => LabelAssignFp.candidate Float32.round32 cfg0 (mkPoint 0.5 0 10000 1) s = true)
             LabelAssignFp.segs_over
      /\ 1 + 0.001 < (8396997 # 8388608)
      /\ map (fun p => LabelAssignFp.target_row Float32.round32 cfg0 2 p
                         LabelAssignFp.segs_over
                         (map (one_hot_row 2) LabelAssignFp.labels_close))
             LabelAssignFp.pts_half = [[1; 1]]).
Proof.
  repeat split; try (repeat constructor; vm_compute; reflexivity); vm_compute; reflexivity.
Qed.

(** *** The range gate and the empty rows, on the computed values

    What holds of the exact distances holds of the rounded ones, for any
    rounding: the tests of the code are made on the computed values. *)

(** A point without candidates has an all-zero target row. *)
Lemma fp_target_row_no_candidate rnd cfg ncols p segs labels :
  (forall s, In s segs -> LabelAssignFp.candidate rnd cfg p s = false) ->
  Forall (fun x => x == 0)
    (LabelAssignFp.target_row rnd cfg ncols p segs (map (one_hot_row ncols) labels)).
Proof.
  intros Hnone. apply List.Forall_forall. intros x Hx.
  apply In_nth with (d := 0) in Hx as (c & Hc & <-).
  destruct (Qeq_dec
    (nth c (LabelAssignFp.target_row rnd cfg ncols p segs (map (one_hot_row ncols) labels)) 0)
    0) as [Hz|Hnz]; [exact Hz|].
  apply fp_target_row_set_by in Hnz as (k & s & s0 & Hk & _ & Hcand & _).
  rewrite (Hnone s (nth_error_In _ _ Hk)) in Hcand. discriminate.
Qed.

(** For a positive point, the segment at [min_len_inds] is a candidate on
    the computed values, and the larger of the two computed distances to
    it lies in the regression range of the point. *)
Lemma fp_positive_point_in_regress_range rnd cfg pts segs labels cls reg clip i p row c :
  LabelAssignFp.label_points_single_video rnd cfg pts segs labels = Some (cls, reg, clip) ->
  nth_error pts i = Some p ->
  nth_error cls i = Some row ->
  ~ nth c row 0 == 0 ->
  let s := LabelAssignFp.assigned_segment rnd cfg p segs in
  In s segs
  /\ LabelAssignFp.candidate rnd cfg p s = true
  /\ pt_reg_min p
     <= Num.qmax (LabelAssignFp.left_dist rnd p s) (LabelAssignFp.right_dist rnd p s)
  /\ Num.qmax (LabelAssignFp.left_dist rnd p s) (LabelAssignFp.right_dist rnd p s)
     <= pt_reg_max p.
Proof.
  intros Hrun Hp Hrow Hnz s.
  destruct (fp_label_points_single_video_rows _ _ _ _ _ _ _ _ _ _ Hrun Hp)
    as [(_ & Hc & _)|(_ & _ & Hc & _)];
    rewrite Hc in Hrow; apply (inj Some) in Hrow; subst row.
  - exfalso. apply Hnz.
    destruct (Nat.lt_ge_cases c (num_classes cfg)).
    + rewrite nth_repeat_lt by assumption. reflexivity.
    + rewrite nth_overflow by (rewrite repeat_length; assumption). reflexivity.
  - apply fp_target_row_set_by in Hnz as (k & sk & _ & Hk & _ & Hck & _).
    destruct (fp_row_min_candidate rnd cfg p segs sk (nth_error_In _ _ Hk) Hck)
      as (s0 & Hat & Hc0 & _ & _).
    assert (Hs : s = s0).
    { subst s. unfold LabelAssignFp.assigned_segment. now apply nth_error_nth. }
    rewrite Hs. split; [eapply nth_error_In; exact Hat|]. split; [exact Hc0|].
    unfold LabelAssignFp.candidate, LabelAssignFp.inside_regress_range,
      LabelAssignFp.max_regress_distance in Hc0.
    apply andb_true_iff in Hc0 as [_ H]. apply andb_true_iff in H as [H1 H2].
    q_reflect. auto.
Qed.

(** *** Exact arithmetic is the identity rounding

    With the identity for [rnd], the assignment in the arithmetic of the
    tensors computes the targets of [LabelAssign]. *)

#[local] Instance qmax_proper : Proper (Qeq ==> Qeq ==> Qeq) Num.qmax.
Proof. intros x x' Hx y y' Hy. q_cases; lra. Qed.

#[local] Instance qmin_proper : Proper (Qeq ==> Qeq ==> Qeq) Num.qmin.
Proof. intros x x' Hx y y' Hy. q_cases; lra. Qed.

#[local] Instance Qltb_proper : Proper (Qeq ==> Qeq ==> eq) Num.Qltb.
Proof. intros x x' Hx y y' Hy. unfold Num.Qltb. now rewrite Hx, Hy. Qed.

Lemma fl_exact (x : Q) : LabelAssignFp.fl (fun y => y) x == x.
Proof. apply Qred_correct. Qed.

Lemma exact_candidate cfg p s :
  LabelAssignFp.candidate (fun y => y) cfg p s = candidate cfg p s.
Proof.
  unfold LabelAssignFp.candidate, candidate,
    LabelAssignFp.inside_gt_seg_mask, inside_gt_seg_mask,
    LabelAssignFp.inside_regress_range, inside_regress_range,
    LabelAssignFp.max_regress_distance, max_regress_distance,
    LabelAssignFp.left_dist, LabelAssignFp.right_dist, left_dist, right_dist.
  destruct (train_center_sample cfg); rewrite !fl_exact; reflexivity.
Qed.

Lemma exact_lens_entry cfg p s :
  LabelAssignFp.len_same (LabelAssignFp.lens_entry (fun y => y) cfg p s) (lens_entry cfg p s).
Proof.
  destruct (candidate cfg p s) eqn:E.
  - rewrite fp_lens_entry_candidate by (now rewrite exact_candidate).
    rewrite lens_entry_candidate by exact E. simpl. apply fl_exact.
  - assert (E' := E). rewrite <- exact_candidate in E'.
    rewrite lens_entry_not_candidate by exact E.
    unfold LabelAssignFp.lens_entry, LabelAssignFp.candidate in *.
    destruct (LabelAssignFp.inside_gt_seg_mask _ cfg p s),
             (LabelAssignFp.inside_regress_range _ p s); simpl in *;
      first [discriminate | exact I].
Qed.

Lemma len_ltb_same a a' b b' :
  LabelAssignFp.len_same a a' -> LabelAssignFp.len_same b b' -> len_ltb a b = len_ltb a' b'.
Proof.
  destruct a, a', b, b'; simpl; intros H1 H2; try tauto. now rewrite H1, H2.
Qed.

Lemma len_leb_same a a' b b' :
  LabelAssignFp.len_same a a' -> LabelAssignFp.len_same b b' -> len_leb a b = len_leb a' b'.
Proof.
  destruct a, a', b, b'; simpl; intros H1 H2; try tauto. now rewrite H1, H2.
Qed.

Lemma is_fin_same a a' : LabelAssignFp.len_same a a' -> is_fin a = is_fin a'.
Proof. destruct a, a'; simpl; tauto. Qed.

Lemma row_min_from_same (l l' : list len_t) :
  Forall2 LabelAssignFp.len_same l l' ->
  forall best best' bi i, LabelAssignFp.len_same best best' ->
  LabelAssignFp.len_same (fst (row_min_from best bi i l)) (fst (row_min_from best' bi i l'))
  /\ snd (row_min_from best bi i l) = snd (row_min_from best' bi i l').
Proof.
  induction 1 as [|x x' l l' Hx _ IH]; intros best best' bi i Hb; simpl; [auto|].
  rewrite (len_ltb_same x x' best best' Hx Hb).
  destruct (len_ltb x' best'); apply IH; assumption.
Qed.

Lemma row_min_same (l l' : list len_t) :
  Forall2 LabelAssignFp.len_same l l' ->
  LabelAssignFp.len_same (fst (row_min l)) (fst (row_min l'))
  /\ snd (row_min l) = snd (row_min l').
Proof.
  destruct 1 as [|x x' l l' Hx Hl]; simpl; [auto|]. now apply row_min_from_same.
Qed.

Lemma exact_lens_row cfg p segs :
  Forall2 LabelAssignFp.len_same
    (LabelAssignFp.lens_row (fun y => y) cfg p segs) (lens_row cfg p segs).
Proof.
  induction segs as [|s segs IH]; simpl; constructor; [apply exact_lens_entry | exact IH].
Qed.

Lemma exact_threshold m m' :
  LabelAssignFp.len_same m m' ->
  LabelAssignFp.len_same (LabelAssignFp.threshold (fun y => y) m) (len_add m' 0.001).
Proof.
  destruct m, m'; simpl; try tauto. intros H. now rewrite !fl_exact, H.
Qed.

Lemma exact_min_len_mask_row cfg p segs :
  LabelAssignFp.min_len_mask_row (fun y => y) (LabelAssignFp.lens_row (fun y => y) cfg p segs)
  = min_len_mask_row (lens_row cfg p segs).
Proof.
  unfold LabelAssignFp.min_len_mask_row, min_len_mask_row.
  destruct (row_min_same _ _ (exact_lens_row cfg p segs)) as [Hm _].
  apply exact_threshold in Hm. revert Hm.
  generalize (LabelAssignFp.threshold (fun y => y)
                (fst (row_min (LabelAssignFp.lens_row (fun y => y) cfg p segs)))).
  generalize (len_add (fst (row_min (lens_row cfg p segs))) 0.001).
  intros thr' thr Hthr. unfold LabelAssignFp.lens_row, lens_row. rewrite !map_map.
  apply map_ext. intros s. pose proof (exact_lens_entry cfg p s) as He.
  now rewrite (len_leb_same _ _ _ _ He Hthr), (is_fin_same _ _ He).
Qed.

(** The classification targets of the two embeddings coincide, and the
    rounded embedding assigns the same segment to every point. *)
Lemma exact_targets cfg ncols p segs OH :
  LabelAssignFp.target_row (fun y => y) cfg ncols p segs OH = target_row cfg ncols p segs OH
  /\ LabelAssignFp.assigned_segment (fun y => y) cfg p segs = assigned_segment cfg p segs.
Proof.
  split.
  - unfold LabelAssignFp.target_row, target_row. now rewrite exact_min_len_mask_row.
  - unfold LabelAssignFp.assigned_segment, assigned_segment.
    now destruct (row_min_same _ _ (exact_lens_row cfg p segs)) as [_ ->].
Qed.

(** ** Offset decoding *)

Import Decode.

(** C2.  In distribution mode [decode_offset] does not replace every NaN
    of the left distribution by zero: the left distribution is masked where
    the RIGHT one is NaN.  On a left distribution that is NaN in each of its
    17 bins and a right distribution without NaN, the returned left offset
    is NaN (and the right offset is 0.5). *)
Theorem decode_dis_keeps_left_nan :
  Forall (fun x => PrimFloat.is_nan x = true) left_dis_nan
  /\ Forall (fun x => PrimFloat.is_nan x = false) right_dis_ok
  /\ PrimFloat.is_nan (fst (decode_dis left_dis_nan right_dis_ok)) = true
  /\ snd (decode_dis left_dis_nan right_dis_ok) = 0.5%float.
Proof.
  split; [repeat constructor|]. split; [repeat constructor|].
  split; vm_compute; reflexivity.
Qed.

(** The same slip the other way round: a valid left distribution is
    erased where the right one is NaN. *)
Lemma decode_dis_right_nan_erases_left :
  decode_dis right_dis_ok left_dis_nan = (0%float, 0%float).
Proof. vm_compute. reflexivity. Qed.

(** On the right side the mask is the distribution's own: whatever the
    element type, an entry that is NaN is replaced by zero. *)
Lemma masked_fill_own_nan {A : Type} `{Elt A} (x : list A) :
  Forall (fun v => e_isnan v = true -> v = e_zero)
         (masked_fill x (isnan_row x)).
Proof.
  unfold masked_fill, isnan_row.
  induction x as [|v x IH]; simpl; constructor; auto.
  destruct (e_isnan v) eqn:E; [reflexivity | congruence].
Qed.


(** ** Training losses *)

Section LossProofs.
Variable cfg : Losses.loss_cfg.
Variable softmax : list Q -> list Q.
Variable sigmoid_focal_loss_none : list (list Q) -> list (list Q) -> list (list Q).
Variable sigmoid_focal_loss_sum : list (list Q) -> list (list Q) -> Q.
Variable ctr_giou_loss_1d : Q * Q -> Q * Q -> Q.
Variable ctr_diou_loss_1d_sum : list (Q * Q) -> list (Q * Q) -> Q.

Let losses_at :=
  Losses.losses_at cfg sigmoid_focal_loss_none sigmoid_focal_loss_sum
    ctr_giou_loss_1d ctr_diou_loss_1d_sum.

(** What a returned dictionary holds, read off the last lines of [losses]. *)
Lemma losses_at_inv (ln : Q) (locs : list Losses.location) ln' r :
  losses_at ln locs = Some (ln', r) ->
  ln' = Losses.update_normalizer cfg ln locs
  /\ Losses.reg_loss r =
     (if (Losses.num_pos locs =? 0)%nat
      then 0 * Num.qsum (concat (map (fun '(a, b) => [a; b]) (Losses.pred_offsets cfg locs)))
      else ctr_diou_loss_1d_sum (Losses.pred_offsets cfg locs)
                                (Losses.gt_offsets_sel cfg locs) / ln')
  /\ Losses.final_loss r =
     0.3 * Losses.cls_loss r + Losses.clip_loss r * 0.4
     + Losses.reg_loss r
       * (if Num.Qltb 0 (Losses.train_loss_weight cfg)
          then Losses.train_loss_weight cfg
          else Losses.cls_loss r / Losses.py_max (Losses.reg_loss r) 0.01)
       * (1 - 0.3 - 0.4).
Proof.
  unfold losses_at, Losses.losses_at.
  destruct (if Losses.use_trident_head cfg then _ else _) as [cl|]; [|discriminate].
  intros H. inversion H; subst. cbn [Losses.reg_loss Losses.final_loss
    Losses.cls_loss Losses.clip_loss]. auto.
Qed.

(** Without positive locations nothing is selected. *)
Lemma no_pos_no_offsets (locs : list Losses.location) :
  Losses.num_pos locs = 0%nat ->
  Losses.pred_offsets cfg locs = [] /\ Losses.gt_offsets_sel cfg locs = [].
Proof.
  unfold Losses.num_pos, Losses.pred_offsets, Losses.gt_offsets_sel.
  intros H. apply length_zero_iff_nil in H. rewrite H.
  destruct (Losses.use_trident_head cfg); auto.
Qed.

(** Every selected pair is a decoded offset of a positive location. *)
Lemma pred_offsets_positive (locs : list Losses.location) (p : Q * Q) :
  In p (Losses.pred_offsets cfg locs) ->
  exists l, In l locs /\ Losses.pos_mask l = true /\ In p (Losses.l_decoded l).
Proof.
  unfold Losses.pred_offsets. intros H.
  assert (Hl : exists l, In l (List.filter Losses.pos_mask locs) /\ In p (Losses.l_decoded l)).
  { destruct (Losses.use_trident_head cfg).
    - apply in_concat in H as (x & Hx & Hp).
      apply in_map_iff in Hx as (l & <- & Hl). exists l. split; [exact Hl|].
      apply in_map_iff in Hp as ([q g] & <- & Hq).
      apply filter_In in Hq as [Hq _]. now apply in_combine_l in Hq.
    - apply in_concat in H as (x & Hx & Hp).
      apply in_map_iff in Hx as (l & <- & Hl). eauto. }
  destruct Hl as (l & Hl & Hp). apply filter_In in Hl as [Hl Hpos]. eauto.
Qed.

(** Rows without a rated element are left as they are. *)
Lemma scale_row_none (loss : list Q) : forall mask,
  Forall (fun m => m = false) mask ->
  exists r, Losses.scale_row loss mask [] = Some (r, []).
Proof.
  induction loss as [|x loss IH]; intros mask Hm; simpl; [eauto|].
  destruct Hm as [|m mask -> Hm]; [eauto|].
  destruct (IH mask Hm) as [r ->]. eauto.
Qed.

Lemma scale_rated_none (loss : list (list Q)) : forall mask,
  Forall (Forall (fun m => m = false)) mask ->
  exists r, Losses.scale_rated loss mask [] = Some r.
Proof.
  induction loss as [|row loss IH]; intros mask Hm; simpl; [eauto|].
  destruct Hm as [|m mask Hrow Hm]; [eauto|].
  destruct (scale_row_none row m Hrow) as [r ->].
  destruct (IH mask Hm) as [rs ->]. eauto.
Qed.

(** A target row of non-negative entries whose sum is not positive is zero. *)
Lemma nonneg_sum_zero (row : list Q) :
  Forall (fun x => 0 <= x) row -> Num.qsum row <= 0 -> Forall (fun x => x == 0) row.
Proof.
  induction 1 as [|x row Hx Hrow IH]; simpl; [constructor|].
  fold (Num.qsum row). intros Hs.
  pose proof (qsum_nonneg row Hrow). constructor; [lra|]. apply IH. lra.
Qed.

(** With non-negative targets and no positive location, no element of the
    classification loss is rated. *)
Lemma rated_mask_empty (locs : list Losses.location) :
  Losses.num_pos locs = 0%nat ->
  Forall (fun l => Forall (fun x => 0 <= x) (Losses.l_gt_cls l)) locs ->
  Forall (Forall (fun m => m = false))
    (map (map (fun x =>
            Num.Qltb (Losses.train_label_smoothing cfg
                      / (inject_Z (Z.of_nat (Losses.num_classes cfg)) + 1)) x))
         (map (fun l => Losses.smooth cfg (Losses.num_classes cfg) (Losses.l_gt_cls l))
              (List.filter Losses.l_valid locs))).
Proof.
  intros Hpos Hnn. rewrite map_map. apply List.Forall_forall. intros row Hrow.
  apply in_map_iff in Hrow as (l & <- & Hl). apply filter_In in Hl as [Hl Hv].
  assert (Hneg : Losses.pos_mask l = false).
  { destruct (Losses.pos_mask l) eqn:E; [|reflexivity]. exfalso.
    unfold Losses.num_pos in Hpos. apply length_zero_iff_nil in Hpos.
    assert (Hin : In l (List.filter Losses.pos_mask locs)) by (apply filter_In; auto).
    rewrite Hpos in Hin. destruct Hin. }
  unfold Losses.pos_mask in Hneg. rewrite Hv, andb_true_r in Hneg.
  apply Qltb_false in Hneg.
  rewrite List.Forall_forall in Hnn.
  pose proof (nonneg_sum_zero _ (Hnn l Hl) Hneg) as Hz.
  unfold Losses.smooth. rewrite map_map. apply List.Forall_forall. intros m Hm.
  apply in_map_iff in Hm as (x & <- & Hx).
  rewrite List.Forall_forall in Hz. specialize (Hz x Hx).
  apply Qltb_false. rewrite Hz. lra.
Qed.

(** With non-negative targets and no positive location [losses] returns. *)
Lemma losses_at_no_pos_some (ln : Q) (locs : list Losses.location) :
  Losses.num_pos locs = 0%nat ->
  Forall (fun l => Forall (fun x => 0 <= x) (Losses.l_gt_cls l)) locs ->
  exists ln' r, losses_at ln locs = Some (ln', r).
Proof.
  intros Hpos Hnn. unfold losses_at, Losses.losses_at.
  destruct (no_pos_no_offsets locs Hpos) as [-> ->].
  destruct (Losses.use_trident_head cfg).
  - cbn [combine map].
    destruct (scale_rated_none
                (sigmoid_focal_loss_none
                   (map Losses.l_cls_logits (List.filter Losses.l_valid locs))
                   (map (fun l => Losses.smooth cfg (Losses.num_classes cfg) (Losses.l_gt_cls l))
                        (List.filter Losses.l_valid locs)))
                _ (rated_mask_empty locs Hpos Hnn)) as [r ->].
    eauto.
  - eauto.
Qed.

End LossProofs.


(** C7, as amended.  The final loss that [losses] returns is 0.3 times the
    primary classification loss plus 0.4 times the secondary (clip)
    classification loss plus 0.3 times the regression loss times a weight.
    The weight is the configured [train_loss_weight] when that is positive;
    otherwise it is the classification loss divided by
    [max(reg_loss, 0.01)]: the ratio of the two losses when the regression
    loss is at least 0.01, and the classification loss divided by 0.01
    below that. *)
Theorem final_loss_combination
    cfg softmax focal_none focal_sum giou diou_sum (loss_normalizer : Q)
    gt_cls2_labels clip_cls_logits fpn_masks out_cls_logits out_offsets
    gt_cls_labels gt_offsets out_start out_end ln' r :
  Losses.losses cfg softmax focal_none focal_sum giou diou_sum loss_normalizer
    gt_cls2_labels clip_cls_logits fpn_masks out_cls_logits out_offsets
    gt_cls_labels gt_offsets out_start out_end = Some (ln', r) ->
  let cls := Losses.cls_loss r in
  let clip := Losses.clip_loss r in
  let reg := Losses.reg_loss r in
  let w := Losses.train_loss_weight cfg in
  (0 < w -> Losses.final_loss r == 0.3 * cls + 0.4 * clip + 0.3 * (reg * w))
  /\ (w <= 0 -> 0.01 <= reg ->
      Losses.final_loss r == 0.3 * cls + 0.4 * clip + 0.3 * (reg * (cls / reg)))
  /\ (w <= 0 -> reg < 0.01 ->
      Losses.final_loss r == 0.3 * cls + 0.4 * clip + 0.3 * (reg * (cls / 0.01))).
Proof.
  unfold Losses.losses. intros H.
  apply losses_at_inv in H as (_ & _ & Hf). cbv zeta. rewrite Hf. clear Hf.
  unfold Losses.py_max.
  split; [|split].
  - intros Hw. apply Qltb_true in Hw. rewrite Hw. ring.
  - intros Hw Hr.
    assert (Num.Qltb 0 (Losses.train_loss_weight cfg) = false) as ->
      by (now apply Qltb_false).
    destruct (Num.Qltb (Losses.reg_loss r) 0.01) eqn:E.
    + apply Qltb_true in E. lra.
    + ring.
  - intros Hw Hr.
    assert (Num.Qltb 0 (Losses.train_loss_weight cfg) = false) as ->
      by (now apply Qltb_false).
    assert (Num.Qltb (Losses.reg_loss r) 0.01 = true) as ->
      by (now apply Qltb_true).
    ring.
Qed.

Lemma final_loss_combination_witness :
  exists ln' r,
    Losses.sample_losses 1 = Some (ln', r)
    /\ Losses.train_loss_weight Losses.sample_cfg <= 0
    /\ Losses.reg_loss r < 0.01
    /\ Losses.final_loss r ==
       0.3 * Losses.cls_loss r + 0.4 * Losses.clip_loss r
       + 0.3 * (Losses.reg_loss r * (Losses.cls_loss r / 0.01)).
Proof.
  destruct (Losses.sample_losses 1) as [[ln' r]|] eqn:E.
  - exists ln', r. split; [reflexivity|].
    assert (Hw : Losses.train_loss_weight Losses.sample_cfg <= 0)
      by (apply Qle_bool_iff; vm_compute; reflexivity).
    assert (Hr : Losses.reg_loss r < 0.01).
    { vm_compute in E. inversion E; subst. apply Qltb_true. vm_compute. reflexivity. }
    split; [exact Hw|]. split; [exact Hr|].
    unfold Losses.sample_losses in E.
    exact (proj2 (proj2 (final_loss_combination _ _ _ _ _ _ _ _ _ _ _ _ _ _ _ _ _ _ E)) Hw Hr).
  - vm_compute in E. discriminate.
Defined.

(** C7 as stated fails: with a regression loss below [0.01] the weight is
    not the ratio of the two losses. *)
Lemma final_loss_not_plain_ratio :
  exists ln' r,
    Losses.sample_losses 1 = Some (ln', r)
    /\ Losses.train_loss_weight Losses.sample_cfg <= 0
    /\ Losses.cls_loss r == 0.995 /\ Losses.reg_loss r == 0.005
    /\ Qeq_bool (Losses.final_loss r)
         (0.3 * Losses.cls_loss r + 0.4 * Losses.clip_loss r
          + 0.3 * (Losses.reg_loss r * (Losses.cls_loss r / Losses.reg_loss r)))
       = false.
Proof.
  do 2 eexists. split; [vm_compute; reflexivity|].
  split; [apply Qle_bool_iff; vm_compute; reflexivity|].
  split; [apply Qeq_bool_iff; vm_compute; reflexivity|].
  split; [apply Qeq_bool_iff; vm_compute; reflexivity|].
  vm_compute. reflexivity.
Qed.

(** C8.  With no positive location in the batch (and classification
    targets that are not negative) [losses] returns, and its regression
    loss is 0 times the sum over the (empty) tensor of predicted offsets,
    which is zero.  With a positive location, the regression loss is the
    distance-IoU loss summed over the predicted and target offsets of the
    positive locations only, divided by the updated loss normalizer. *)
Theorem reg_loss_cases
    cfg softmax focal_none focal_sum giou diou_sum (loss_normalizer : Q)
    gt_cls2_labels clip_cls_logits fpn_masks out_cls_logits out_offsets
    gt_cls_labels gt_offsets out_start out_end :
  let locs :=
    Losses.batch_locations cfg softmax gt_cls2_labels clip_cls_logits fpn_masks
      out_cls_logits out_offsets gt_cls_labels gt_offsets out_start out_end in
  let run :=
    Losses.losses cfg softmax focal_none focal_sum giou diou_sum loss_normalizer
      gt_cls2_labels clip_cls_logits fpn_masks out_cls_logits out_offsets
      gt_cls_labels gt_offsets out_start out_end in
  (Losses.num_pos locs = 0%nat ->
   Forall (fun l => Forall (fun x => 0 <= x) (Losses.l_gt_cls l)) locs ->
   exists ln' r,
     run = Some (ln', r)
     /\ Losses.pred_offsets cfg locs = []
     /\ Losses.reg_loss r =
        0 * Num.qsum (concat (map (fun '(a, b) => [a; b]) (Losses.pred_offsets cfg locs)))
     /\ Losses.reg_loss r == 0)
  /\ (Losses.num_pos locs <> 0%nat ->
      forall ln' r, run = Some (ln', r) ->
      ln' = Losses.update_normalizer cfg loss_normalizer locs
      /\ Losses.reg_loss r =
         diou_sum (Losses.pred_offsets cfg locs) (Losses.gt_offsets_sel cfg locs) / ln'
      /\ forall p, In p (Losses.pred_offsets cfg locs) ->
           exists l, In l locs /\ Losses.pos_mask l = true /\ In p (Losses.l_decoded l)).
Proof.
  cbv zeta. unfold Losses.losses. split.
  - intros Hpos Hnn.
    destruct (losses_at_no_pos_some cfg focal_none focal_sum giou diou_sum
                loss_normalizer _ Hpos Hnn) as (ln' & r & Hrun).
    exists ln', r. split; [exact Hrun|].
    apply losses_at_inv in Hrun as (_ & Hreg & _).
    rewrite Hpos in Hreg. cbn [Nat.eqb] in Hreg.
    destruct (no_pos_no_offsets cfg _ Hpos) as [Hp _].
    split; [exact Hp|]. split; [exact Hreg|].
    rewrite Hreg, Hp. reflexivity.
  - intros Hpos ln' r Hrun.
    apply losses_at_inv in Hrun as (Hln & Hreg & _).
    apply Nat.eqb_neq in Hpos. rewrite Hpos in Hreg.
    split; [exact Hln|]. split; [exact Hreg|].
    intros p. apply pred_offsets_positive.
Qed.

Lemma reg_loss_cases_witness :
  (exists ln' r,
     Losses.sample_losses 0 = Some (ln', r)
     /\ Losses.pred_offsets Losses.sample_cfg (Losses.sample_locations 0) = []
     /\ Losses.reg_loss r == 0)
  /\ (exists ln' r,
        Losses.sample_losses 1 = Some (ln', r)
        /\ Losses.reg_loss r =
           Losses.sample_l1_sum
             (Losses.pred_offsets Losses.sample_cfg (Losses.sample_locations 1))
             (Losses.gt_offsets_sel Losses.sample_cfg (Losses.sample_locations 1)) / ln').
Proof.
  split.
  - destruct (proj1 (reg_loss_cases Losses.sample_cfg Losses.sample_softmax
        Losses.sample_focal_none Losses.sample_focal_sum Losses.sample_l1
        Losses.sample_l1_sum 1
        [[Losses.sample_clip_row]] [[[Losses.sample_clip_row]]] [[[true]]] [[[[0]]]]
        [[[Losses.sample_offsets]]] [[[0]]] [[(0.5, 0.5)]] [[[[0]]]] [[[[0]]]]))
      as (ln' & r & Hrun & Hp & _ & Hz).
    + vm_compute. reflexivity.
    + vm_compute. repeat constructor; discriminate.
    + exists ln', r. auto.
  - pose proof (proj2 (reg_loss_cases Losses.sample_cfg Losses.sample_softmax
        Losses.sample_focal_none Losses.sample_focal_sum Losses.sample_l1
        Losses.sample_l1_sum 1
        [[Losses.sample_clip_row]] [[[Losses.sample_clip_row]]] [[[true]]] [[[[0]]]]
        [[[Losses.sample_offsets]]] [[[1]]] [[(0.5, 0.5)]] [[[[0]]]] [[[[0]]]])) as Hpos.
    destruct (Losses.sample_losses 1) as [[ln' r]|] eqn:E.
    + exists ln', r. split; [reflexivity|].
      apply Hpos; [vm_compute; discriminate | exact E].
    + vm_compute in E. discriminate.
Defined.


(** ** Inference scores *)

Lemma fold_left_qmax_spec (r : list Q) : forall x,
  let m := fold_left Num.qmax r x in
  (m = x \/ In m r) /\ x <= m /\ (forall y, In y r -> y <= m).
Proof.
  induction r as [|z r IH]; intros x; simpl.
  - split; [auto|]. split; [lra | tauto].
  - destruct (IH (Num.qmax x z)) as (Hin & Hle & Hall).
    destruct (qmax_spec x z) as (Hx & Hz & Hcase).
    split; [|split].
    + destruct Hin as [->|Hin]; [|auto]. destruct Hcase as [->| ->]; auto.
    + lra.
    + intros y [<-|Hy]; [lra | auto].
Qed.

(** [torch.max] over a non-empty row returns an entry of the row that
    bounds all the others. *)
Lemma max_row_spec (row : list Q) :
  row <> [] ->
  exists m, Inference.max_row row = Some m /\ In m row /\ (forall y, In y row -> y <= m).
Proof.
  destruct row as [|x r]; [congruence|]. intros _. simpl.
  destruct (fold_left_qmax_spec r x) as (Hin & Hle & Hall).
  eexists. split; [reflexivity|]. split.
  - destruct Hin as [->|Hin]; simpl; auto.
  - intros y [<-|Hy]; auto.
Qed.

(** C6.  In [inference_single_video], at every location [t] of a level and
    for every primary class [c], the combined score at flat index
    [t * C + c] is, where the mask is set, 0.7 times the sigmoid of the
    primary logit plus 0.3 times the sigmoid of the maximum of the secondary
    logits at [t] (the same term for every class); where the mask is not
    set, the score is 0. *)
Theorem combined_score (sigmoid : Q -> Q) (C : nat) (cls_i clip_i : list (list Q)) :
  forall (mask_i : list bool),
  length clip_i = length cls_i ->
  length mask_i = length cls_i ->
  Forall (fun row => length row = C) cls_i ->
  Forall (fun row => row <> []) clip_i ->
  exists probs,
    Inference.pred_prob sigmoid cls_i clip_i mask_i = Some probs
    /\ length probs = (length cls_i * C)%nat
    /\ forall t c cls_row x clip_row m,
         nth_error cls_i t = Some cls_row -> nth_error cls_row c = Some x ->
         nth_error clip_i t = Some clip_row -> nth_error mask_i t = Some m ->
         exists clip_j v,
           In clip_j clip_row /\ (forall y, In y clip_row -> y <= clip_j)
           /\ nth_error probs (t * C + c) = Some v
           /\ (m = true -> v == 0.7 * sigmoid x + 0.3 * sigmoid clip_j)
           /\ (m = false -> v == 0).
Proof.
  revert clip_i. induction cls_i as [|cls_row cls' IH];
    intros [|clip_row clip'] [|m mask'] Hl1 Hl2 Hc Hne; try discriminate.
  - exists []. split; [reflexivity|]. split; [reflexivity|].
    intros [|t] c r x cr m0 H; discriminate.
  - simpl in Hl1, Hl2. inversion Hc as [|? ? Hrow Hc']; subst.
    inversion Hne as [|? ? Hcr Hne']; subst.
    destruct (IH clip' mask') as (rest & Hrest & Hlen & Hat); try lia; auto.
    destruct (max_row_spec clip_row Hcr) as (cj & Hmax & Hin & Hall).
    simpl. unfold Inference.combined_prob_row. rewrite Hmax, Hrest.
    eexists. split; [reflexivity|]. split.
    { rewrite length_app, !length_map, Hlen. reflexivity. }
    intros [|t] c r x cr m0 Hr Hx Hcr' Hm0; simpl in Hr, Hcr', Hm0.
    + inversion Hr; inversion Hcr'; inversion Hm0; subst.
      exists cj, ((0.7 * sigmoid x + 0.3 * sigmoid cj) * Num.of_bool m0).
      split; [exact Hin|]. split; [exact Hall|]. split.
      * simpl. rewrite nth_error_app1
          by (rewrite !length_map; apply nth_error_Some; congruence).
        rewrite !nth_error_map, Hx. reflexivity.
      * split; intros ->; simpl; ring.
    + destruct (Hat t c r x cr m0 Hr Hx Hcr' Hm0) as (cj' & v & H1 & H2 & H3 & H4).
      exists cj', v. split; [exact H1|]. split; [exact H2|]. split; [|exact H4].
      replace (S t * length cls_row + c)%nat
        with (length cls_row + (t * length cls_row + c))%nat by lia.
      rewrite nth_error_app2 by (rewrite !length_map; lia).
      rewrite !length_map.
      replace (length cls_row + (t * length cls_row + c) - length cls_row)%nat
        with (t * length cls_row + c)%nat by lia.
      exact H3.
Qed.

Lemma combined_score_witness :
  exists probs,
    Inference.pred_prob Inference.sample_sigmoid Inference.sample_cls
      Inference.sample_clip Inference.sample_mask = Some probs
    /\ length probs = (length Inference.sample_cls * 2)%nat
    /\ forall t c cls_row x clip_row m,
         nth_error Inference.sample_cls t = Some cls_row ->
         nth_error cls_row c = Some x ->
         nth_error Inference.sample_clip t = Some clip_row ->
         nth_error Inference.sample_mask t = Some m ->
         exists clip_j v,
           In clip_j clip_row /\ (forall y, In y clip_row -> y <= clip_j)
           /\ nth_error probs (t * 2 + c) = Some v
           /\ (m = true -> v == 0.7 * Inference.sample_sigmoid x
                                + 0.3 * Inference.sample_sigmoid clip_j)
           /\ (m = false -> v == 0).
Proof.
  apply (combined_score Inference.sample_sigmoid 2 Inference.sample_cls
           Inference.sample_clip Inference.sample_mask).
  - reflexivity.
  - reflexivity.
  - repeat constructor.
  - repeat constructor; discriminate.
Defined.

(** The sample level evaluated: the first location holds
    [0.7 * s(1) + 0.3 * s(3)] and [0.7 * s(-1) + 0.3 * s(3)], the padded
    location holds zeros. *)
Example pred_prob_sample :
  exists probs,
    Inference.pred_prob Inference.sample_sigmoid Inference.sample_cls
      Inference.sample_clip Inference.sample_mask = Some probs
    /\ Forall2 Qeq probs
         [0.7 * Inference.sample_sigmoid 1 + 0.3 * Inference.sample_sigmoid 3;
          0.7 * Inference.sample_sigmoid (-1) + 0.3 * Inference.sample_sigmoid 3;
          0; 0].
Proof.
  eexists. split; [vm_compute; reflexivity|].
  repeat constructor; apply Qeq_bool_iff; vm_compute; reflexivity.
Qed.


(** ** Postprocessing *)

Import Dict Post.

Lemma truncate_clamp (vlen y : Q) : truncate vlen y == Num.clamp 0 vlen y.
Proof. unfold truncate. q_cases; lra. Qed.

Lemma truncate_bounds (vlen y : Q) :
  0 <= vlen -> 0 <= truncate vlen y /\ truncate vlen y <= vlen.
Proof. intros H. unfold truncate. q_cases; lra. Qed.

Lemma truncate_id (vlen y : Q) : 0 <= y -> y <= vlen -> truncate vlen y == y.
Proof. intros H1 H2. unfold truncate. q_cases; lra. Qed.

Section PostProofs.
Variable method : nms_method.
Variable nms :
  list (Q * Q) -> list Q -> list nat -> bool -> list (Q * Q) * list Q * list nat.

(** A record with all eight keys is processed, and the result is the
    repacked record. *)
Lemma postprocess_video_some d vidx fps vlen stride nframes segs scores labels :
  d !! "video_id" = Some vidx ->
  get_num d "fps" = Some fps -> get_num d "duration" = Some vlen ->
  get_num d "feat_stride" = Some stride -> get_num d "feat_num_frames" = Some nframes ->
  get_segs d "segments" = Some segs -> get_vec d "scores" = Some scores ->
  get_ints d "labels" = Some labels ->
  postprocess_video method nms d =
  Some (repack vidx
          (to_real_time fps vlen stride nframes
             (fst (fst (run_nms method nms segs scores labels))))
          (snd (fst (run_nms method nms segs scores labels)))
          (snd (run_nms method nms segs scores labels))).
Proof.
  intros H1 H2 H3 H4 H5 H6 H7 H8. unfold postprocess_video.
  rewrite H1, H2, H3, H4, H5, H6, H7, H8.
  destruct (run_nms method nms segs scores labels) as [[a b] c]. reflexivity.
Qed.

Lemma postprocess_video_inv d out :
  postprocess_video method nms d = Some out ->
  exists vidx fps vlen stride nframes segs scores labels,
    d !! "video_id" = Some vidx
    /\ get_num d "fps" = Some fps /\ get_num d "duration" = Some vlen
    /\ get_num d "feat_stride" = Some stride
    /\ get_num d "feat_num_frames" = Some nframes
    /\ get_segs d "segments" = Some segs /\ get_vec d "scores" = Some scores
    /\ get_ints d "labels" = Some labels
    /\ out = repack vidx
               (to_real_time fps vlen stride nframes
                  (fst (fst (run_nms method nms segs scores labels))))
               (snd (fst (run_nms method nms segs scores labels)))
               (snd (run_nms method nms segs scores labels)).
Proof.
  unfold postprocess_video. intros H.
  destruct (d !! "video_id") as [vidx|]; [|discriminate].
  destruct (get_num d "fps") as [fps|]; [|discriminate].
  destruct (get_num d "duration") as [vlen|]; [|discriminate].
  destruct (get_num d "feat_stride") as [stride|]; [|discriminate].
  destruct (get_num d "feat_num_frames") as [nframes|]; [|discriminate].
  destruct (get_segs d "segments") as [segs|]; [|discriminate].
  destruct (get_vec d "scores") as [scores|]; [|discriminate].
  destruct (get_ints d "labels") as [labels|]; [|discriminate].
  exists vidx, fps, vlen, stride, nframes, segs, scores, labels.
  destruct (run_nms method nms segs scores labels) as [[a b] c].
  inversion H. repeat split; reflexivity.
Qed.

Lemma repack_lookups vidx segs scores labels :
  repack vidx segs scores labels !! "video_id" = Some vidx
  /\ get_segs (repack vidx segs scores labels) "segments" = Some segs
  /\ get_vec (repack vidx segs scores labels) "scores" = Some scores
  /\ get_ints (repack vidx segs scores labels) "labels" = Some labels
  /\ repack vidx segs scores labels !! "fps" = None.
Proof.
  unfold repack, get_segs, get_vec, get_ints.
  repeat split; simplify_map_eq; reflexivity.
Qed.

(** Every boundary of [to_real_time] is the mapped and clamped boundary. *)
Lemma to_real_time_nth fps vlen stride nframes segs i s e :
  nth_error segs i = Some (s, e) ->
  nth_error (to_real_time fps vlen stride nframes segs) i =
  Some (truncate vlen (to_seconds stride nframes fps s),
        truncate vlen (to_seconds stride nframes fps e)).
Proof.
  intros H. unfold to_real_time.
  destruct segs as [|x segs]; [destruct i; discriminate|].
  cbn [length Nat.ltb Nat.leb]. rewrite nth_error_map, H. reflexivity.
Qed.

Lemma to_real_time_length fps vlen stride nframes segs :
  length (to_real_time fps vlen stride nframes segs) = length segs.
Proof.
  unfold to_real_time. destruct (0 <? length segs)%nat; [apply length_map | reflexivity].
Qed.

End PostProofs.


(** C9.  [postprocessing] maps every boundary [g] of a segment that
    survives NMS to [(g * feat_stride + 0.5 * feat_num_frames) / fps] and
    clips it to [[0, duration]].  Grid value 10 with stride 4, 16 frames and
    fps 25 maps to 1.92, and with duration 1.5 it is clipped to 1.5. *)
Theorem postprocessing_time_mapping
    method nms d vidx fps vlen stride nframes segs scores labels :
  d !! "video_id" = Some vidx ->
  get_num d "fps" = Some fps -> get_num d "duration" = Some vlen ->
  get_num d "feat_stride" = Some stride -> get_num d "feat_num_frames" = Some nframes ->
  get_segs d "segments" = Some segs -> get_vec d "scores" = Some scores ->
  get_ints d "labels" = Some labels ->
  ~ fps == 0 ->
  let kept := fst (fst (run_nms method nms segs scores labels)) in
  (exists out segs_out,
     postprocessing method nms [d] = Some [out]
     /\ get_segs out "segments" = Some segs_out
     /\ length segs_out = length kept
     /\ forall i s e, nth_error kept i = Some (s, e) ->
          exists s' e',
            nth_error segs_out i = Some (s', e')
            /\ s' == Num.clamp 0 vlen ((s * stride + 0.5 * nframes) / fps)
            /\ e' == Num.clamp 0 vlen ((e * stride + 0.5 * nframes) / fps)
            /\ (0 <= vlen -> 0 <= s' /\ s' <= vlen /\ 0 <= e' /\ e' <= vlen))
  /\ to_seconds 4 16 25 10 == 1.92
  /\ truncate 1.5 (to_seconds 4 16 25 10) == 1.5.
Proof.
  intros H1 H2 H3 H4 H5 H6 H7 H8 Hfps kept. split.
  - simpl. rewrite (postprocess_video_some method nms d _ _ _ _ _ _ _ _ H1 H2 H3 H4 H5 H6 H7 H8).
    fold kept. do 2 eexists. split; [reflexivity|].
    split; [apply repack_lookups|].
    split; [apply to_real_time_length|].
    intros i s e Hi. do 2 eexists.
    split; [apply to_real_time_nth; exact Hi|].
    split; [apply truncate_clamp|]. split; [apply truncate_clamp|].
    intros Hv.
    pose proof (truncate_bounds vlen (to_seconds stride nframes fps s) Hv).
    pose proof (truncate_bounds vlen (to_seconds stride nframes fps e) Hv).
    tauto.
  - split; apply Qeq_bool_iff; vm_compute; reflexivity.
Qed.

Lemma postprocessing_time_mapping_witness :
  (exists out segs_out,
     postprocessing NoNms no_nms [sample_grid_result] = Some [out]
     /\ get_segs out "segments" = Some segs_out
     /\ length segs_out = 1%nat
     /\ forall i s e, nth_error [(0, 10)] i = Some (s, e) ->
          exists s' e',
            nth_error segs_out i = Some (s', e')
            /\ s' == Num.clamp 0 1.5 ((s * 4 + 0.5 * 16) / 25)
            /\ e' == Num.clamp 0 1.5 ((e * 4 + 0.5 * 16) / 25)
            /\ (0 <= 1.5 -> 0 <= s' /\ s' <= 1.5 /\ 0 <= e' /\ e' <= 1.5))
  /\ to_seconds 4 16 25 10 == 1.92
  /\ truncate 1.5 (to_seconds 4 16 25 10) == 1.5.
Proof.
  apply (postprocessing_time_mapping NoNms no_nms sample_grid_result
           (VStr "v1") 25 1.5 4 16 [(0, 10)] [0.9] [0%nat]);
    try reflexivity.
  intros H. apply Qeq_bool_iff in H. vm_compute in H. discriminate.
Defined.

(** *** Applying [postprocessing] to its own output *)

Lemma to_real_time_in_video fps vlen stride nframes segs :
  0 <= vlen -> Forall (in_video vlen) (to_real_time fps vlen stride nframes segs).
Proof.
  intros Hv. unfold to_real_time. destruct segs as [|x segs]; [constructor|].
  cbn [length Nat.ltb Nat.leb]. apply List.Forall_forall. intros y Hy.
  apply in_map_iff in Hy as ([s e] & <- & _). unfold in_video. cbn [fst snd].
  pose proof (truncate_bounds vlen (to_seconds stride nframes fps s) Hv).
  pose proof (truncate_bounds vlen (to_seconds stride nframes fps e) Hv).
  tauto.
Qed.

(** On the unit grid the conversion multiplies by 1, adds 0 and divides
    by 1. *)
Lemma to_seconds_unit (stride nframes fps x : Q) :
  fps == 1 -> stride == 1 -> nframes == 0 ->
  to_seconds stride nframes fps x == x.
Proof.
  intros Hf Hs Hn. unfold to_seconds. rewrite Hf, Hs, Hn. field.
Qed.

(** On the unit grid, segments inside the video are left as they are. *)
Lemma to_real_time_unit fps vlen stride nframes segs :
  fps == 1 -> stride == 1 -> nframes == 0 ->
  Forall (in_video vlen) segs ->
  same_segments (to_real_time fps vlen stride nframes segs) segs.
Proof.
  intros Hf Hs Hn Hin. unfold to_real_time, same_segments.
  destruct segs as [|x segs]; [constructor|].
  cbn [length Nat.ltb Nat.leb].
  induction Hin as [|[s e] l [[Hs0 Hs1] [He0 He1]] Hl IH]; [constructor|].
  cbn [fst snd] in *. simpl. constructor; [|exact IH].
  cbn [fst snd].
  pose proof (to_seconds_unit stride nframes fps s Hf Hs Hn) as Es.
  pose proof (to_seconds_unit stride nframes fps e Hf Hs Hn) as Ee.
  split.
  - rewrite truncate_id; [exact Es | rewrite Es; exact Hs0 | rewrite Es; exact Hs1].
  - rewrite truncate_id; [exact Ee | rewrite Ee; exact He0 | rewrite Ee; exact He1].
Qed.

Lemma get_num_lookup d k x : get_num d k = Some x -> d !! k = Some (VNum x).
Proof.
  unfold get_num. destruct (d !! k) as [[]|]; intros H; inversion H; reflexivity.
Qed.

(** A record that [postprocessing] returned has no ['fps']: the next
    [postprocessing] stops at that key. *)
Lemma postprocess_video_own_output method nms method' nms' d out :
  postprocess_video method nms d = Some out ->
  postprocess_video method' nms' out = None.
Proof.
  intros Hrun.
  apply postprocess_video_inv in Hrun
    as (vidx & fps & vlen & stride & nframes & segs & scores & labels & _ & _ & _ & _ & _ & _ & _ & _ & ->).
  match goal with |- postprocess_video _ _ (repack ?v ?s ?c ?l) = None =>
    destruct (repack_lookups v s c l) as (L1 & _ & _ & _ & L5) end.
  unfold postprocess_video. rewrite L1. unfold get_num at 1. rewrite L5. reflexivity.
Qed.

(** One video: the second pass over the output with its meta information
    restored converts and clips the segments of the first pass once more. *)
Lemma postprocess_video_second nms d out :
  postprocess_video NoNms nms d = Some out ->
  exists vidx fps vlen stride nframes segs1 scores labels,
    get_num d "fps" = Some fps /\ get_num d "duration" = Some vlen
    /\ get_num d "feat_stride" = Some stride
    /\ get_num d "feat_num_frames" = Some nframes
    /\ out = repack vidx segs1 scores labels
    /\ (0 <= vlen -> Forall (in_video vlen) segs1)
    /\ postprocess_video NoNms nms (restore_meta d out) =
       Some (repack vidx (to_real_time fps vlen stride nframes segs1) scores labels).
Proof.
  intros Hrun.
  apply postprocess_video_inv in Hrun
    as (vidx & fps & vlen & stride & nframes & segs & scores & labels
        & Hid & Hf & Hv & Hs & Hn & Hsegs & Hsc & Hlab & ->).
  cbn [run_nms fst snd].
  set (segs1 := to_real_time fps vlen stride nframes segs).
  exists vidx, fps, vlen, stride, nframes, segs1, scores, labels.
  do 5 (split; [first [assumption | reflexivity]|]).
  split; [intros Hv0; now apply to_real_time_in_video|].
  assert (Hre : restore_meta d (repack vidx segs1 scores labels) =
                <["fps" := VNum fps]> (<["duration" := VNum vlen]>
                (<["feat_stride" := VNum stride]> (<["feat_num_frames" := VNum nframes]>
                (repack vidx segs1 scores labels))))).
  { unfold restore_meta, copy_key.
    rewrite (get_num_lookup _ _ _ Hf), (get_num_lookup _ _ _ Hv),
            (get_num_lookup _ _ _ Hs), (get_num_lookup _ _ _ Hn). reflexivity. }
  rewrite Hre.
  apply (postprocess_video_some NoNms nms _ vidx fps vlen stride nframes
           segs1 scores labels);
    unfold repack, get_num, get_segs, get_vec, get_ints;
    simplify_map_eq; reflexivity.
Qed.

Lemma to_real_time_length_eq fps vlen stride nframes segs :
  length (to_real_time fps vlen stride nframes segs) = length segs.
Proof. unfold to_real_time. destruct (0 <? length segs)%nat; [apply length_map | reflexivity]. Qed.

(** The second pass of one video against the first. *)
Lemma postprocess_video_second_same nms d out :
  postprocess_video NoNms nms d = Some out ->
  exists out2,
    postprocess_video NoNms nms (restore_meta d out) = Some out2
    /\ same_detections out2 out
    /\ (unit_grid d -> same_result out2 out).
Proof.
  intros Hrun.
  destruct (postprocess_video_second nms d out Hrun)
    as (vidx & fps & vlen & stride & nframes & segs1 & scores & labels
        & Hf & Hv & Hs & Hn & -> & Hin & Hsecond).
  eexists. split; [exact Hsecond|].
  destruct (repack_lookups vidx segs1 scores labels) as (L1 & L2 & L3 & L4 & _).
  destruct (repack_lookups vidx (to_real_time fps vlen stride nframes segs1)
              scores labels) as (M1 & M2 & M3 & M4 & _).
  split.
  - unfold same_detections. rewrite L1, M1. split; [reflexivity|].
    split; [unfold repack; simplify_map_eq; reflexivity|].
    split; [unfold repack; simplify_map_eq; reflexivity|].
    exists (to_real_time fps vlen stride nframes segs1), segs1.
    split; [exact M2|]. split; [exact L2|]. apply to_real_time_length_eq.
  - intros (fps' & vlen' & stride' & nframes' & Hf' & Hv' & Hs' & Hn' & E1 & E2 & E3 & Hv0).
    rewrite Hf in Hf'. rewrite Hv in Hv'. rewrite Hs in Hs'. rewrite Hn in Hn'.
    inversion Hf'; inversion Hv'; inversion Hs'; inversion Hn'; subst.
    unfold same_result. rewrite L1, M1. split; [reflexivity|].
    split; [unfold repack; simplify_map_eq; reflexivity|].
    split; [unfold repack; simplify_map_eq; reflexivity|].
    exists (to_real_time fps' vlen' stride' nframes' segs1), segs1.
    split; [exact M2|]. split; [exact L2|].
    apply to_real_time_unit; auto.
Qed.

(** C4, as amended.  [postprocessing] is not idempotent.  The records it
    returns hold no meta information, so applying it to a non-empty list
    of its own output raises [KeyError] on ['fps'].  With
    [nms_method = 'none'] and the metadata keys ([fps], [duration],
    [feat_stride], [feat_num_frames]) of the input records put back on the
    returned records, a second [postprocessing] returns, with the video
    ids, the scores, the labels and the number of segments of the first;
    the segment times are converted and clipped once more, and they are
    those of the first pass on records of the unit grid
    ([fps = feat_stride = 1], [feat_num_frames = 0], [duration] not
    negative). *)
Theorem postprocessing_second_pass nms results outs :
  postprocessing NoNms nms results = Some outs ->
  (outs <> [] -> postprocessing NoNms nms outs = None)
  /\ exists outs2,
       postprocessing NoNms nms (restore_meta_all results outs) = Some outs2
       /\ Forall2 same_detections outs2 outs
       /\ (Forall unit_grid results -> Forall2 same_result outs2 outs).
Proof.
  intros Hrun. split.
  - destruct results as [|d results]; simpl in Hrun.
    + inversion Hrun. congruence.
    + destruct (postprocess_video NoNms nms d) as [out|] eqn:E1; [|discriminate].
      destruct (postprocessing NoNms nms results) as [rest|]; [|discriminate].
      inversion Hrun. intros _. simpl.
      now rewrite (postprocess_video_own_output _ _ NoNms nms _ _ E1).
  - revert outs Hrun. induction results as [|d results IH]; intros outs Hrun.
    + simpl in Hrun. inversion Hrun. exists [].
      split; [reflexivity|]. split; [constructor|]. intros _. constructor.
    + simpl in Hrun.
      destruct (postprocess_video NoNms nms d) as [out|] eqn:E1; [|discriminate].
      destruct (postprocessing NoNms nms results) as [rest|] eqn:E2; [|discriminate].
      inversion Hrun; subst outs.
      destruct (postprocess_video_second_same nms d out E1) as (out2 & Hout2 & Hdet & Hsame).
      destruct (IH rest eq_refl) as (rest2 & Hrest2 & Hdet2 & Hsame2).
      exists (out2 :: rest2). split; [|split].
      * unfold restore_meta_all in *. simpl. rewrite Hout2, Hrest2. reflexivity.
      * constructor; assumption.
      * intros Hid. inversion Hid; subst. constructor; auto.
Qed.

Lemma sample_result_unit_grid : unit_grid sample_result.
Proof.
  exists 1, 2, 1, 0. repeat split; try reflexivity.
  apply Qle_bool_iff. vm_compute. reflexivity.
Qed.

Lemma postprocessing_second_pass_witness :
  exists outs,
    postprocessing NoNms no_nms [sample_result] = Some outs
    /\ postprocessing NoNms no_nms outs = None
    /\ exists outs2,
         postprocessing NoNms no_nms (restore_meta_all [sample_result] outs) = Some outs2
         /\ Forall2 same_detections outs2 outs
         /\ Forall2 same_result outs2 outs.
Proof.
  eexists. split; [reflexivity|].
  destruct (postprocessing_second_pass no_nms [sample_result] _ eq_refl)
    as (H1 & outs2 & H2 & H3 & H4).
  split; [apply H1; discriminate|].
  exists outs2. split; [exact H2|]. split; [exact H3|].
  apply H4. constructor; [exact sample_result_unit_grid | constructor].
Defined.

(** C4 as stated fails twice over.  The records [postprocessing] returns
    have no ['fps'] key, so it cannot be applied to them; and when the meta
    information is put back, the second pass converts the times again: on a
    grid of stride 2 at one frame per second the segment [(0.5, 1)] comes
    out of the first pass as [(1, 2)] and out of the second as [(2, 4)]. *)
Lemma postprocessing_not_idempotent :
  (exists out,
     postprocessing NoNms no_nms [sample_result] = Some [out]
     /\ postprocessing NoNms no_nms [out] = None)
  /\ (exists out out2,
        postprocessing NoNms no_nms [sample_coarse_result] = Some [out]
        /\ postprocessing NoNms no_nms (restore_meta_all [sample_coarse_result] [out])
           = Some [out2]
        /\ exists s1 s2,
             get_segs out "segments" = Some s1
             /\ get_segs out2 "segments" = Some s2
             /\ same_segments s1 [(1, 2)]
             /\ same_segments s2 [(2, 4)]
             /\ ~ same_segments s2 s1).
Proof.
  split.
  - eexists. split; [reflexivity|]. vm_compute. reflexivity.
  - assert (Hrun : postprocess_video NoNms no_nms sample_coarse_result
                   = Some (repack (VStr "v2") (to_real_time 1 4 2 0 [(0.5, 1)]) [0.9] [0%nat]))
      by reflexivity.
    destruct (postprocess_video_second no_nms _ _ Hrun)
      as (vidx & fps & vlen & stride & nframes & segs1 & scores & labels
          & Hf & Hv & Hs & Hn & Hout & _ & Hsecond).
    assert (fps = 1 /\ vlen = 4 /\ stride = 2 /\ nframes = 0) as (-> & -> & -> & ->).
    { vm_compute in Hf, Hv, Hs, Hn. inversion Hf; inversion Hv; inversion Hs; inversion Hn.
      auto. }
    do 2 eexists. split; [reflexivity|]. split.
    + unfold restore_meta_all. simpl. rewrite Hsecond. reflexivity.
    + assert (Hsegs : segs1 = to_real_time 1 4 2 0 [(0.5, 1)]).
      { apply (f_equal (fun r => get_segs r "segments")) in Hout.
        destruct (repack_lookups vidx segs1 scores labels) as (_ & L2 & _).
        destruct (repack_lookups (VStr "v2") (to_real_time 1 4 2 0 [(0.5, 1)]) [0.9] [0%nat])
          as (_ & M2 & _).
        rewrite L2, M2 in Hout. now inversion Hout. }
      subst segs1.
      destruct (repack_lookups (VStr "v2") (to_real_time 1 4 2 0 [(0.5, 1)]) [0.9] [0%nat])
        as (_ & M2 & _).
      destruct (repack_lookups vidx (to_real_time 1 4 2 0 (to_real_time 1 4 2 0 [(0.5, 1)]))
                  scores labels) as (_ & N2 & _).
      do 2 eexists. split; [exact M2|]. split; [exact N2|].
      split; [|split].
      * repeat constructor; apply Qeq_bool_iff; vm_compute; reflexivity.
      * repeat constructor; apply Qeq_bool_iff; vm_compute; reflexivity.
      * intros H. inversion H as [|x y l l' [H1 _] _]; subst.
        apply Qeq_bool_iff in H1. vm_compute in H1. discriminate.
Qed.


(** ** The feature fusion at the head of [forward] *)

Import Forward.

Section ForwardProofs.
Variables fc_feats fc_clip_feats : linear.

Let fused := concatenated_feats fc_feats fc_clip_feats.

(** The fused features depend on the keys ['feats'] and ['clip_feats'] only. *)
Lemma concatenated_feats_insert (video : gmap string value) (v : value) :
  fused (<["concatenated_feats" := v]> video) = fused video.
Proof.
  unfold fused, concatenated_feats, get_mat.
  rewrite !lookup_insert_ne by discriminate. reflexivity.
Qed.

Lemma fuse_video_some (ref : nat) (h : gmap nat (gmap string value)) video c :
  h !! ref = Some video -> fused video = Some c ->
  fuse_video fc_feats fc_clip_feats ref h =
  Some (<[ref := <["concatenated_feats" := VMat c]> video]> h).
Proof.
  unfold fused. intros H1 H2. unfold fuse_video. rewrite H1, H2. reflexivity.
Qed.



End ForwardProofs.




(** The sample run: the caller's record had no ['concatenated_feats'] and
    has it afterwards. *)
Example forward_sample_mutation :
  sample_video !! "concatenated_feats" = None
  /\ exists h' video,
       fuse_features sample_fc_feats sample_fc_clip [7%nat] sample_store = Some h'
       /\ h' !! 7%nat = Some video
       /\ video !! "concatenated_feats" = Some (VMat [[2; 0; 0]; [1; 1; 1]; [2; 0; 0]])
       /\ video !! "feats" = sample_video !! "feats".
Proof.
  split; [vm_compute; reflexivity|].
  do 2 eexists. split; [reflexivity|]. split; [reflexivity|].
  split; vm_compute; reflexivity.
Qed.


(** * Further properties of the code *)

(** ** Label assignment: what the targets look like *)

(** A sum of zeros and ones is zero or at least one. *)
Lemma qsum_01 (l : list Q) :
  Forall (fun x => x == 0 \/ x == 1) l -> Num.qsum l == 0 \/ 1 <= Num.qsum l.
Proof.
  induction 1 as [|x l Hx _ IH]; simpl; [left; reflexivity|].
  fold (Num.qsum l). destruct Hx, IH; [left | right | right | right]; lra.
Qed.

Lemma clamp_01 (x : Q) : x == 0 \/ 1 <= x -> Num.clamp 0 1 x == 0 \/ Num.clamp 0 1 x == 1.
Proof. intros [H|H]; [left | right]; q_cases; lra. Qed.

(** An entry of a target row, as a clamped sum over the segments. *)
Lemma nth_target_row cfg ncols p segs labels c :
  (c < ncols)%nat ->
  nth c (target_row cfg ncols p segs (map (one_hot_row ncols) labels)) 0 =
  Num.clamp 0 1
    (LabelAssign.dot (min_len_mask_row (lens_row cfg p segs))
       (map (fun l => Num.of_bool (c =? l)%nat) labels)).
Proof.
  intros Hc. unfold target_row. rewrite nth_vec_mat by exact Hc.
  now rewrite column_one_hot.
Qed.

Lemma target_row_binary cfg ncols p segs labels :
  Forall (fun x => x == 0 \/ x == 1)
         (target_row cfg ncols p segs (map (one_hot_row ncols) labels)).
Proof.
  apply List.Forall_forall. intros x Hx.
  apply In_nth with (d := 0) in Hx as (c & Hc & <-).
  rewrite target_row_length in Hc. rewrite nth_target_row by exact Hc.
  apply clamp_01, qsum_01. apply List.Forall_forall. intros y Hy.
  unfold min_len_mask_row in Hy. now apply dot_terms_01 in Hy.
Qed.

(** The targets of a point that no label reaches are rows of zeros; the
    rows of a video without segments are a special case. *)
Lemma Forall_repeat_binary (n : nat) : Forall (fun x => x == 0 \/ x == 1) (repeat 0 n).
Proof. apply List.Forall_forall. intros x Hx. apply repeat_spec in Hx. subst. now left. Qed.

(** X1.  The classification targets are binary: every entry of every row of
    [cls_targets] and of [clip_targets] is exactly 0 or exactly 1, however
    many segments with the same label tie at a point. *)
Theorem targets_are_binary cfg pts segs labels cls reg clip :
  label_points_single_video cfg pts segs labels = Some (cls, reg, clip) ->
  Forall (Forall (fun x => x == 0 \/ x == 1)) cls
  /\ Forall (Forall (fun x => x == 0 \/ x == 1)) clip.
Proof.
  intros Hrun. apply label_points_single_video_inv in Hrun
    as [(_ & -> & _ & ->)|(_ & _ & -> & _ & ->)];
    split; apply List.Forall_forall; intros row Hrow;
    apply in_map_iff in Hrow as (p & <- & _);
    auto using Forall_repeat_binary, target_row_binary.
Qed.

(** Two segments with the same label and the same boundaries over the
    sample pyramid. *)
Lemma targets_are_binary_witness :
  exists cls reg clip,
    label_points_single_video cfg0 pts_pyramid [(1, 3); (1, 3)] [1%nat; 1%nat]
      = Some (cls, reg, clip)
    /\ nth_error cls 2 = Some [0; 1]
    /\ Forall (Forall (fun x => x == 0 \/ x == 1)) cls
    /\ Forall (Forall (fun x => x == 0 \/ x == 1)) clip.
Proof.
  destruct (label_points_single_video cfg0 pts_pyramid [(1, 3); (1, 3)] [1%nat; 1%nat])
    as [[[cls reg] clip]|] eqn:E; [|vm_compute in E; discriminate].
  exists cls, reg, clip. split; [reflexivity|].
  split; [vm_compute in E; inversion E; reflexivity|].
  exact (targets_are_binary _ _ _ _ _ _ _ E).
Defined.

(** ** Label assignment: where the targets come from *)




(** A row of zeros has no entry that is not zero. *)
Lemma nth_repeat_zero (c n : nat) : nth c (repeat 0 n) 0 = 0.
Proof.
  destruct (Nat.lt_ge_cases c n).
  - now rewrite nth_repeat_lt.
  - rewrite nth_overflow by (rewrite repeat_length; assumption). reflexivity.
Qed.

(** The run on a video with segments accepted every label. *)
Lemma label_points_single_video_labels cfg pts segs labels out :
  label_points_single_video cfg pts segs labels = Some out -> segs <> [] ->
  Forall (fun l => (l < num_classes cfg)%nat /\ (l < 200)%nat) labels
  /\ length labels = length segs.
Proof.
  unfold label_points_single_video. destruct segs as [|s segs]; [congruence|].
  simpl length at 1. simpl Nat.eqb at 1. cbv iota.
  destruct (one_hot_all (num_classes cfg) labels) as [M|] eqn:E1; [|discriminate].
  destruct (one_hot_all 200 labels) as [M2|] eqn:E2; [|discriminate].
  destruct (length labels =? length (s :: segs))%nat eqn:El; [|discriminate].
  intros _ _. apply one_hot_all_inv in E1 as [_ H1]. apply one_hot_all_inv in E2 as [_ H2].
  apply Nat.eqb_eq in El. split; [|exact El].
  rewrite List.Forall_forall in *. auto.
Qed.

(** The targets of one point, read off a run that returned. *)
Lemma label_points_single_video_rows cfg pts segs labels cls reg clip i p :
  label_points_single_video cfg pts segs labels = Some (cls, reg, clip) ->
  nth_error pts i = Some p ->
  (segs = []
   /\ nth_error cls i = Some (repeat 0 (num_classes cfg))
   /\ nth_error reg i = Some (0, 0)
   /\ nth_error clip i = Some (repeat 0 200%nat))
  \/
  (segs <> [] /\ length labels = length segs
   /\ nth_error cls i =
      Some (target_row cfg (num_classes cfg) p segs
              (map (one_hot_row (num_classes cfg)) labels))
   /\ nth_error reg i = Some (reg_target cfg p segs)
   /\ nth_error clip i =
      Some (target_row cfg 200 p segs (map (one_hot_row 200) labels))).
Proof.
  intros Hrun Hp. apply label_points_single_video_inv in Hrun
    as [(-> & -> & -> & ->)|(Hne & Hlen & -> & -> & ->)];
    [left | right]; rewrite !nth_error_map, Hp; cbn [option_map]; auto.
Qed.

(** An entry of a target row that is not zero is set by a segment with
    that label which is a candidate for the point. *)
Lemma target_row_set_by cfg ncols p segs labels c :
  ~ nth c (target_row cfg ncols p segs (map (one_hot_row ncols) labels)) 0 == 0 ->
  exists k s,
    nth_error segs k = Some s /\ nth_error labels k = Some c
    /\ candidate cfg p s = true.
Proof.
  intros Hnz.
  assert (Hc : (c < ncols)%nat).
  { destruct (Nat.lt_ge_cases c ncols) as [H|H]; [exact H|]. exfalso. apply Hnz.
    rewrite nth_overflow by (rewrite target_row_length; exact H). reflexivity. }
  rewrite nth_target_row in Hnz by exact Hc.
  assert (Hdot : ~ LabelAssign.dot (min_len_mask_row (lens_row cfg p segs))
                     (map (fun l => Num.of_bool (c =? l)%nat) labels) == 0).
  { intros H. apply Hnz. apply clamp_le_0. lra. }
  unfold LabelAssign.dot in Hdot. apply qsum_nonzero_member in Hdot as (x & Hx & Hxnz).
  unfold min_len_mask_row in Hx.
  apply in_map_combine in Hx as (k & a & b & Ha & Hb & ->).
  unfold lens_row in Ha. rewrite !nth_error_map in Ha. rewrite nth_error_map in Hb.
  destruct (nth_error segs k) as [s|] eqn:Es; [|discriminate].
  destruct (nth_error labels k) as [lab|] eqn:El; [|discriminate].
  cbn [option_map] in Ha, Hb. inversion Ha as [Ha']. inversion Hb as [Hb']. clear Ha Hb.
  rewrite <- Ha', <- Hb' in Hxnz.
  destruct (c =? lab)%nat eqn:Ecl; [|exfalso; apply Hxnz; simpl; lra].
  apply Nat.eqb_eq in Ecl. subst lab.
  fold (lens_row cfg p segs) in Hxnz.
  destruct (len_leb (lens_entry cfg p s)
              (len_add (fst (row_min (lens_row cfg p segs))) 0.001)
            && is_fin (lens_entry cfg p s)) eqn:Em;
    [|exfalso; apply Hxnz; simpl; lra].
  apply andb_true_iff in Em as [Hle Hfin].
  destruct (lens_entry cfg p s) as [d|] eqn:Ed; [|discriminate].
  apply lens_entry_fin in Ed as [Hcand ->].
  exists k, s. split; [exact Es|]. split; [exact El|]. exact Hcand.
Qed.

(** X2.  A class is set in a point's target (primary or secondary) only by a
    segment with that label which is a candidate for the point and whose
    computed duration [lens] is at most the computed [min_len + 1e-3],
    [min_len] being the least computed duration of a candidate (any
    rounding [rnd] of the results to the dtype of the tensors). *)
Theorem class_set_only_by_near_shortest_candidate
    rnd cfg pts segs labels cls reg clip i p row c :
  LabelAssignFp.label_points_single_video rnd cfg pts segs labels = Some (cls, reg, clip) ->
  nth_error pts i = Some p ->
  nth_error cls i = Some row \/ nth_error clip i = Some row ->
  ~ nth c row 0 == 0 ->
  exists k s s0,
    nth_error segs k = Some s /\ nth_error labels k = Some c
    /\ LabelAssignFp.candidate rnd cfg p s = true
    /\ In s0 segs /\ LabelAssignFp.candidate rnd cfg p s0 = true
    /\ (forall s', In s' segs -> LabelAssignFp.candidate rnd cfg p s' = true ->
          LabelAssignFp.lens rnd s0 <= LabelAssignFp.lens rnd s')
    /\ LabelAssignFp.lens rnd s
       <= LabelAssignFp.fl rnd (LabelAssignFp.lens rnd s0 + LabelAssignFp.fl rnd 0.001).
Proof.
  intros Hrun Hp Hrow Hnz.
  destruct (fp_label_points_single_video_rows _ _ _ _ _ _ _ _ _ _ Hrun Hp)
    as [(_ & Hc & Hc2)|(_ & _ & Hc & Hc2)];
    rewrite Hc, Hc2 in Hrow.
  - exfalso. apply Hnz.
    destruct Hrow as [Hrow|Hrow]; apply (inj Some) in Hrow; subst row; now rewrite nth_repeat_zero.
  - destruct Hrow as [Hrow|Hrow]; apply (inj Some) in Hrow; subst row;
      now apply fp_target_row_set_by in Hnz.
Qed.

Lemma class_set_only_by_near_shortest_candidate_witness :
  exists k s s0,
    nth_error LabelAssignFp.segs_over k = Some s
    /\ nth_error LabelAssignFp.labels_close k = Some 1%nat
    /\ LabelAssignFp.candidate Float32.round32 cfg0 (mkPoint 0.5 0 10000 1) s = true
    /\ In s0 LabelAssignFp.segs_over
    /\ LabelAssignFp.candidate Float32.round32 cfg0 (mkPoint 0.5 0 10000 1) s0 = true
    /\ (forall s', In s' LabelAssignFp.segs_over ->
          LabelAssignFp.candidate Float32.round32 cfg0 (mkPoint 0.5 0 10000 1) s' = true ->
          LabelAssignFp.lens Float32.round32 s0 <= LabelAssignFp.lens Float32.round32 s')
    /\ LabelAssignFp.lens Float32.round32 s
       <= LabelAssignFp.fl Float32.round32
            (LabelAssignFp.lens Float32.round32 s0 + LabelAssignFp.fl Float32.round32 0.001).
Proof.
  apply (class_set_only_by_near_shortest_candidate Float32.round32 cfg0
           LabelAssignFp.pts_half LabelAssignFp.segs_over LabelAssignFp.labels_close
           (map (fun p => LabelAssignFp.target_row Float32.round32 cfg0 (num_classes cfg0) p
                            LabelAssignFp.segs_over
                            (map (one_hot_row (num_classes cfg0)) LabelAssignFp.labels_close))
                LabelAssignFp.pts_half)
           (map (fun p => LabelAssignFp.reg_target Float32.round32 cfg0 p LabelAssignFp.segs_over)
                LabelAssignFp.pts_half)
           (map (fun p => LabelAssignFp.target_row Float32.round32 cfg0 200 p
                            LabelAssignFp.segs_over
                            (map (one_hot_row 200) LabelAssignFp.labels_close))
                LabelAssignFp.pts_half)
           0 (mkPoint 0.5 0 10000 1) [1; 1] 1).
  - apply fp_label_points_single_video_some; [discriminate | reflexivity | repeat constructor].
  - reflexivity.
  - left. vm_compute. reflexivity.
  - simpl. intros H. vm_compute in H. discriminate.
Defined.



(** X4.  The secondary target repeats the primary one: on every class index
    that both vocabularies have, the two rows of a point hold the same
    entry, and the secondary row is zero from [num_classes] on. *)
Theorem clip_targets_repeat_cls_targets
    cfg pts segs labels cls reg clip i p row row2 c :
  label_points_single_video cfg pts segs labels = Some (cls, reg, clip) ->
  nth_error pts i = Some p ->
  nth_error cls i = Some row -> nth_error clip i = Some row2 ->
  ((c < num_classes cfg)%nat -> (c < 200)%nat -> nth c row 0 = nth c row2 0)
  /\ ((num_classes cfg <= c)%nat -> nth c row2 0 == 0).
Proof.
  intros Hrun Hp Hrow Hrow2.
  destruct (label_points_single_video_rows _ _ _ _ _ _ _ _ _ Hrun Hp)
    as [(_ & Hc & _ & Hc2)|(Hne & _ & Hc & _ & Hc2)];
    rewrite Hc in Hrow; rewrite Hc2 in Hrow2;
    apply (inj Some) in Hrow; apply (inj Some) in Hrow2; subst row row2.
  - rewrite !nth_repeat_zero. split; intros; reflexivity.
  - split.
    + intros H1 H2. now rewrite !nth_target_row.
    + intros Hge.
      destruct (Qeq_dec
        (nth c (target_row cfg 200 p segs (map (one_hot_row 200) labels)) 0) 0)
        as [Hz|Hnz]; [exact Hz|].
      exfalso. apply target_row_set_by in Hnz as (k & s & _ & Hl & _).
      destruct (label_points_single_video_labels _ _ _ _ _ Hrun Hne) as [Hlab _].
      rewrite List.Forall_forall in Hlab.
      destruct (Hlab c (nth_error_In _ _ Hl)). lia.
Qed.

Lemma clip_targets_repeat_cls_targets_witness :
  ((1 < num_classes cfg0)%nat -> (1 < 200)%nat ->
   nth 1 [1; 1] 0 = nth 1 ([1; 1] ++ repeat 0 198) 0)
  /\ ((num_classes cfg0 <= 1)%nat -> nth 1 ([1; 1] ++ repeat 0 198) 0 == 0).
Proof.
  apply (clip_targets_repeat_cls_targets cfg0 pts_pyramid segs_tie labels_tie
           (map (fun p => target_row cfg0 (num_classes cfg0) p segs_tie
                            (map (one_hot_row (num_classes cfg0)) labels_tie)) pts_pyramid)
           (map (fun p => reg_target cfg0 p segs_tie) pts_pyramid)
           (map (fun p => target_row cfg0 200 p segs_tie (map (one_hot_row 200) labels_tie))
                pts_pyramid)
           2 (mkPoint 2 0 4 1) [1; 1] ([1; 1] ++ repeat 0 198) 1).
  - apply label_points_single_video_some; [discriminate | reflexivity | repeat constructor].
  - reflexivity.
  - vm_compute. reflexivity.
  - vm_compute. reflexivity.
Defined.

(** ** Label assignment: shapes and rejected inputs *)

Lemma label_points_single_video_shapes cfg pts segs labels cls reg clip :
  label_points_single_video cfg pts segs labels = Some (cls, reg, clip) ->
  length cls = length pts /\ length reg = length pts /\ length clip = length pts
  /\ Forall (fun row => length row = num_classes cfg) cls
  /\ Forall (fun row => length row = 200%nat) clip.
Proof.
  intros Hrun. apply label_points_single_video_inv in Hrun
    as [(_ & -> & -> & ->)|(_ & _ & -> & -> & ->)];
    rewrite !length_map; repeat split; try reflexivity;
    apply List.Forall_forall; intros row Hrow;
    apply in_map_iff in Hrow as (p & <- & _);
    auto using repeat_length, target_row_length.
Qed.

(** X5.  [label_points] returns one set of targets per video that [zip] pairs
    with a label list, and every set has one row per point of the
    concatenated pyramid: [num_classes] columns for the primary targets, two
    for the offsets, 200 for the secondary targets. *)
Theorem label_points_shapes cfg points gt_segments gt_labels gt_cls gt_offset gt_cls2 :
  label_points cfg points gt_segments gt_labels = Some (gt_cls, gt_offset, gt_cls2) ->
  let B := Nat.min (length gt_segments) (length gt_labels) in
  let FT := length (concat points) in
  length gt_cls = B /\ length gt_offset = B /\ length gt_cls2 = B
  /\ Forall (fun c => length c = FT
                      /\ Forall (fun row => length row = num_classes cfg) c) gt_cls
  /\ Forall (fun r => length r = FT) gt_offset
  /\ Forall (fun c => length c = FT
                      /\ Forall (fun row => length row = 200%nat) c) gt_cls2.
Proof.
  cbv zeta. revert gt_labels gt_cls gt_offset gt_cls2.
  induction gt_segments as [|segs rest IH]; intros [|labs labels] gt_cls gt_offset gt_cls2;
    simpl; intros H; try (inversion H; subst; repeat split; constructor).
  destruct (label_points_single_video cfg (concat points) segs labs)
    as [[[c r] c2]|] eqn:E1; [|discriminate].
  destruct (label_points cfg points rest labels) as [[[cs rs] c2s]|] eqn:E2; [|discriminate].
  inversion H; subst. clear H.
  destruct (IH _ _ _ _ E2) as (H1 & H2 & H3 & H4 & H5 & H6).
  destruct (label_points_single_video_shapes _ _ _ _ _ _ _ E1) as (L1 & L2 & L3 & L4 & L5).
  simpl. repeat split; auto.
Qed.

Lemma label_points_shapes_witness :
  exists gt_cls gt_offset gt_cls2,
    label_points cfg0 [firstn 4 pts_pyramid; skipn 4 pts_pyramid]
      [segs_tie; []; segs_one] [labels_tie; []] = Some (gt_cls, gt_offset, gt_cls2)
    /\ length gt_cls = 2%nat /\ length gt_offset = 2%nat /\ length gt_cls2 = 2%nat
    /\ Forall (fun c => length c = 6%nat
                        /\ Forall (fun row => length row = 2%nat) c) gt_cls
    /\ Forall (fun r => length r = 6%nat) gt_offset
    /\ Forall (fun c => length c = 6%nat
                        /\ Forall (fun row => length row = 200%nat) c) gt_cls2.
Proof.
  destruct (label_points cfg0 [firstn 4 pts_pyramid; skipn 4 pts_pyramid]
              [segs_tie; []; segs_one] [labels_tie; []])
    as [[[gt_cls gt_offset] gt_cls2]|] eqn:E; [|vm_compute in E; discriminate].
  exists gt_cls, gt_offset, gt_cls2. split; [reflexivity|].
  exact (label_points_shapes _ _ _ _ _ _ _ E).
Defined.

(** X6.  For a video with at least one segment, label assignment raises when a
    label is not below [num_classes] or not below 200 ([F.one_hot]), or when
    the number of labels differs from the number of segments (the matrix
    product). *)
Theorem label_points_single_video_rejects cfg pts segs labels :
  segs <> [] ->
  (exists l, In l labels /\ ((num_classes cfg <= l)%nat \/ (200 <= l)%nat))
  \/ length labels <> length segs ->
  label_points_single_video cfg pts segs labels = None.
Proof.
  intros Hne Hbad.
  destruct (label_points_single_video cfg pts segs labels) as [out|] eqn:E; [|reflexivity].
  exfalso. destruct (label_points_single_video_labels _ _ _ _ _ E Hne) as [Hlab Hlen].
  destruct Hbad as [(l & Hl & Hrange)|Hlen']; [|contradiction].
  rewrite List.Forall_forall in Hlab. specialize (Hlab l Hl). lia.
Qed.

Lemma label_points_single_video_rejects_witness :
  label_points_single_video cfg0 pts_far segs_one [2%nat] = None.
Proof.
  apply label_points_single_video_rejects; [discriminate|].
  left. exists 2%nat. split; [now left | left; simpl; lia].
Defined.

(** ** Postprocessing: keys, errors and order *)

Section PostMore.
Variable method : nms_method.
Variable nms :
  list (Q * Q) -> list Q -> list nat -> bool -> list (Q * Q) * list Q * list nat.

(** The eight keys [postprocessing] reads from a record. *)
Let keys_read : list string :=
  ["video_id"; "fps"; "duration"; "feat_stride"; "feat_num_frames";
   "segments"; "scores"; "labels"].

Lemma postprocess_video_missing d k :
  In k keys_read -> d !! k = None -> postprocess_video method nms d = None.
Proof.
  intros Hk Hnone.
  destruct (postprocess_video method nms d) as [out|] eqn:E; [|reflexivity].
  exfalso. apply postprocess_video_inv in E
    as (vidx & fps & vlen & stride & nframes & segs & scores & labels
        & H1 & H2 & H3 & H4 & H5 & H6 & H7 & H8 & _).
  unfold get_num, get_segs, get_vec, get_ints in *.
  unfold keys_read in Hk. simpl in Hk.
  repeat (destruct Hk as [<-|Hk]; [rewrite Hnone in *; discriminate|]).
  exact Hk.
Qed.

Lemma postprocessing_fails_on results d :
  In d results -> postprocess_video method nms d = None ->
  postprocessing method nms results = None.
Proof.
  induction results as [|x results IH]; simpl; [tauto|].
  intros [->|Hin] Hd.
  - now rewrite Hd.
  - rewrite (IH Hin Hd). destruct (postprocess_video method nms x); reflexivity.
Qed.

Lemma postprocessing_inv results outs :
  postprocessing method nms results = Some outs ->
  Forall2 (fun d out => postprocess_video method nms d = Some out) results outs.
Proof.
  revert outs. induction results as [|d results IH]; simpl; intros outs H.
  - inversion H. constructor.
  - destruct (postprocess_video method nms d) as [out|] eqn:E1; [|discriminate].
    destruct (postprocessing method nms results) as [rest|] eqn:E2; [|discriminate].
    inversion H. constructor; auto.
Qed.

End PostMore.

(** The keys of a repacked record. *)
Lemma repack_keys vidx segs scores labels k :
  is_Some (repack vidx segs scores labels !! k)
  <-> In k ["video_id"; "segments"; "scores"; "labels"].
Proof.
  unfold repack. simpl. split.
  - intros [v Hv].
    destruct (decide (k = "video_id")) as [->|N1]; [auto|].
    destruct (decide (k = "segments")) as [->|N2]; [auto|].
    destruct (decide (k = "scores")) as [->|N3]; [auto|].
    destruct (decide (k = "labels")) as [->|N4]; [auto|].
    rewrite !lookup_insert_ne, lookup_empty in Hv by congruence. discriminate.
  - intros [<-|[<-|[<-|[<-|[]]]]]; simplify_map_eq; eauto.
Qed.

(** X7.  [postprocessing] fails with a [KeyError] as soon as one record of the
    list lacks one of the eight keys it reads. *)
Theorem postprocessing_missing_key method nms results d k :
  In d results ->
  In k ["video_id"; "fps"; "duration"; "feat_stride"; "feat_num_frames";
        "segments"; "scores"; "labels"] ->
  d !! k = None ->
  postprocessing method nms results = None.
Proof.
  intros Hd Hk Hnone. apply (postprocessing_fails_on method nms results d Hd).
  now apply (postprocess_video_missing method nms d k).
Qed.

Lemma postprocessing_missing_key_witness :
  postprocessing Hard no_nms [sample_grid_result; delete "duration" sample_result] = None.
Proof.
  apply (postprocessing_missing_key Hard no_nms _ (delete "duration" sample_result)
           "duration").
  - right. now left.
  - simpl. tauto.
  - apply lookup_delete_eq.
Defined.

(** X8.  [postprocessing] returns one record per input record, each with the
    four keys [video_id], [segments], [scores] and [labels] and no other:
    the meta information is dropped, so that [postprocessing] fails on any
    non-empty list of records it returned. *)
Theorem postprocessing_output_keys method nms results outs :
  postprocessing method nms results = Some outs ->
  length outs = length results
  /\ Forall (fun out => forall k,
               is_Some (out !! k) <-> In k ["video_id"; "segments"; "scores"; "labels"])
            outs
  /\ (outs <> [] -> forall method' nms', postprocessing method' nms' outs = None).
Proof.
  intros Hrun. apply postprocessing_inv in Hrun.
  assert (Hkeys : Forall (fun out => forall k,
             is_Some (out !! k) <-> In k ["video_id"; "segments"; "scores"; "labels"]) outs).
  { induction Hrun as [|d out results outs Hd _ IH]; constructor; [|exact IH].
    apply postprocess_video_inv in Hd as (? & ? & ? & ? & ? & ? & ? & ? & Hd).
    destruct Hd as (_ & _ & _ & _ & _ & _ & _ & _ & ->). apply repack_keys. }
  split; [symmetry; eapply Forall2_length; exact Hrun|]. split; [exact Hkeys|].
  intros Hne method' nms'. destruct outs as [|out outs]; [congruence|].
  inversion Hkeys as [|? ? Hout _]; subst.
  apply (postprocessing_fails_on method' nms' _ out); [now left|].
  apply (postprocess_video_missing method' nms' out "fps").
  - simpl. tauto.
  - destruct (out !! "fps") as [v|] eqn:E; [|reflexivity].
    exfalso. assert (Hs : is_Some (out !! "fps")) by (rewrite E; eauto).
    apply Hout in Hs. simpl in Hs.
    repeat (destruct Hs as [Hs|Hs]; [discriminate|]). exact Hs.
Qed.

Lemma postprocessing_output_keys_witness :
  exists outs,
    postprocessing Soft no_nms [sample_grid_result; sample_result] = Some outs
    /\ length outs = 2%nat
    /\ Forall (fun out => forall k,
                 is_Some (out !! k) <-> In k ["video_id"; "segments"; "scores"; "labels"])
              outs
    /\ (outs <> [] -> forall method' nms', postprocessing method' nms' outs = None).
Proof.
  eexists. split; [reflexivity|].
  apply (postprocessing_output_keys Soft no_nms [sample_grid_result; sample_result]).
  reflexivity.
Defined.

Lemma truncate_monotone (vlen x y : Q) : x <= y -> truncate vlen x <= truncate vlen y.
Proof. intros H. unfold truncate. q_cases; lra. Qed.

Lemma to_seconds_monotone (stride nframes fps x y : Q) :
  0 < fps -> 0 <= stride -> x <= y ->
  to_seconds stride nframes fps x <= to_seconds stride nframes fps y.
Proof.
  intros Hf Hs Hxy. unfold to_seconds, Qdiv.
  apply Qmult_le_compat_r; [|apply Qlt_le_weak, Qinv_lt_0_compat; exact Hf].
  pose proof (Qmult_le_compat_r x y stride Hxy Hs). lra.
Qed.

(** X9.  With a positive [fps] and a non-negative [feat_stride], a segment
    whose start is not after its end on the feature grid is returned with
    its start not after its end, whatever the clipping does. *)
Theorem postprocessing_keeps_segment_order
    method nms d vidx fps vlen stride nframes segs scores labels :
  d !! "video_id" = Some vidx ->
  get_num d "fps" = Some fps -> get_num d "duration" = Some vlen ->
  get_num d "feat_stride" = Some stride -> get_num d "feat_num_frames" = Some nframes ->
  get_segs d "segments" = Some segs -> get_vec d "scores" = Some scores ->
  get_ints d "labels" = Some labels ->
  0 < fps -> 0 <= stride ->
  let kept := fst (fst (run_nms method nms segs scores labels)) in
  exists out segs_out,
    postprocessing method nms [d] = Some [out]
    /\ get_segs out "segments" = Some segs_out
    /\ Forall2 (fun g t => fst g <= snd g -> fst t <= snd t) kept segs_out.
Proof.
  intros H1 H2 H3 H4 H5 H6 H7 H8 Hfps Hstride kept.
  simpl. rewrite (postprocess_video_some method nms d _ _ _ _ _ _ _ _ H1 H2 H3 H4 H5 H6 H7 H8).
  fold kept. do 2 eexists. split; [reflexivity|].
  split; [apply repack_lookups|].
  unfold to_real_time. destruct kept as [|g kept]; [constructor|].
  cbn [length Nat.ltb Nat.leb].
  generalize (g :: kept). intros l. induction l as [|[s e] l IH]; simpl; constructor; auto.
  cbn [fst snd]. intros Hse.
  now apply truncate_monotone, to_seconds_monotone.
Qed.

Lemma postprocessing_keeps_segment_order_witness :
  exists out segs_out,
    postprocessing Hard no_nms [sample_grid_result] = Some [out]
    /\ get_segs out "segments" = Some segs_out
    /\ Forall2 (fun g t => fst g <= snd g -> fst t <= snd t) [(0, 10)] segs_out.
Proof.
  apply (postprocessing_keeps_segment_order Hard no_nms sample_grid_result
           (VStr "v1") 25 1.5 4 16 [(0, 10)] [0.9] [0%nat]);
    try reflexivity.
  discriminate.
Defined.

Lemma get_vec_lookup d k x : get_vec d k = Some x -> d !! k = Some (VVec x).
Proof.
  unfold get_vec. destruct (d !! k) as [[]|]; intros H; inversion H; reflexivity.
Qed.

Lemma get_ints_lookup d k x : get_ints d k = Some x -> d !! k = Some (VInts x).
Proof.
  unfold get_ints. destruct (d !! k) as [[]|]; intros H; inversion H; reflexivity.
Qed.

(** X10.  With [nms_method = 'none'] the NMS routine has no part in the result,
    and every record keeps its video id, its scores, its labels and its
    number of segments: only the segment times change. *)
Theorem postprocessing_without_nms nms nms' results outs :
  postprocessing NoNms nms results = Some outs ->
  postprocessing NoNms nms' results = Some outs
  /\ Forall2 (fun d out =>
                out !! "video_id" = d !! "video_id"
                /\ out !! "scores" = d !! "scores"
                /\ out !! "labels" = d !! "labels"
                /\ exists s s', get_segs d "segments" = Some s
                                /\ get_segs out "segments" = Some s'
                                /\ length s' = length s) results outs.
Proof.
  revert outs. induction results as [|d results IH]; simpl; intros outs H.
  - inversion H. split; [reflexivity | constructor].
  - destruct (postprocess_video NoNms nms d) as [out|] eqn:E1; [|discriminate].
    destruct (postprocessing NoNms nms results) as [rest|] eqn:E2; [|discriminate].
    inversion H; subst outs. destruct (IH rest eq_refl) as [-> Hrest].
    apply postprocess_video_inv in E1
      as (vidx & fps & vlen & stride & nframes & segs & scores & labels
          & H1 & H2 & H3 & H4 & H5 & H6 & H7 & H8 & ->).
    rewrite (postprocess_video_some NoNms nms' d _ _ _ _ _ _ _ _ H1 H2 H3 H4 H5 H6 H7 H8).
    cbn [run_nms fst snd]. split; [reflexivity|]. constructor; [|exact Hrest].
    rewrite H1, (get_vec_lookup _ _ _ H7), (get_ints_lookup _ _ _ H8).
    unfold repack. simplify_map_eq.
    repeat split; try reflexivity.
    exists segs, (to_real_time fps vlen stride nframes segs).
    split; [exact H6|]. split; [|apply to_real_time_length].
    unfold get_segs. now simplify_map_eq.
Qed.

Lemma postprocessing_without_nms_witness :
  exists outs,
    postprocessing NoNms no_nms [sample_grid_result; sample_result] = Some outs
    /\ postprocessing NoNms (fun _ _ _ _ => ([], [], [])) [sample_grid_result; sample_result]
       = Some outs
    /\ Forall2 (fun d out =>
                  out !! "video_id" = d !! "video_id"
                  /\ out !! "scores" = d !! "scores"
                  /\ out !! "labels" = d !! "labels"
                  /\ exists s s', get_segs d "segments" = Some s
                                  /\ get_segs out "segments" = Some s'
                                  /\ length s' = length s)
               [sample_grid_result; sample_result] outs.
Proof.
  eexists. split; [reflexivity|].
  apply (postprocessing_without_nms no_nms). reflexivity.
Defined.

(** ** Training losses: the normalizer and the final loss *)

Section LossMore.
Variable cfg : Losses.loss_cfg.
Variable softmax : list Q -> list Q.
Variable focal_none : list (list Q) -> list (list Q) -> list (list Q).
Variable focal_sum : list (list Q) -> list (list Q) -> Q.
Variable giou : Q * Q -> Q * Q -> Q.
Variable diou_sum : list (Q * Q) -> list (Q * Q) -> Q.

(** [max(num_pos, 1)] is at least one. *)
Lemma max_num_pos_ge_1 (locs : list Losses.location) :
  1 <= inject_Z (Z.of_nat (Nat.max (Losses.num_pos locs) 1)).
Proof.
  change 1 with (inject_Z 1). rewrite <- Zle_Qle. lia.
Qed.

(** The moving average stays between the old normalizer and the count. *)
Lemma update_normalizer_between (ln : Q) (locs : list Losses.location) :
  0 <= Losses.loss_normalizer_momentum cfg ->
  Losses.loss_normalizer_momentum cfg <= 1 ->
  let n := inject_Z (Z.of_nat (Nat.max (Losses.num_pos locs) 1)) in
  Num.qmin ln n <= Losses.update_normalizer cfg ln locs
  /\ Losses.update_normalizer cfg ln locs <= Num.qmax ln n.
Proof.
  intros H0 H1 n. unfold Losses.update_normalizer. fold n.
  set (m := Losses.loss_normalizer_momentum cfg) in *.
  q_cases; split; nra.
Qed.

End LossMore.

(** X11.  The loss normalizer is a moving average that a call of [losses]
    keeps positive: with a momentum in [[0, 1]] (it is 0.9), the updated
    normalizer lies between the old one and [max(num_pos, 1)], so it is
    positive when the old one was and the losses are never divided by
    zero. *)
Theorem loss_normalizer_stays_positive
    cfg softmax focal_none focal_sum giou diou_sum (loss_normalizer : Q)
    gt_cls2_labels clip_cls_logits fpn_masks out_cls_logits out_offsets
    gt_cls_labels gt_offsets out_start out_end ln' r :
  0 <= Losses.loss_normalizer_momentum cfg ->
  Losses.loss_normalizer_momentum cfg <= 1 ->
  0 < loss_normalizer ->
  Losses.losses cfg softmax focal_none focal_sum giou diou_sum loss_normalizer
    gt_cls2_labels clip_cls_logits fpn_masks out_cls_logits out_offsets
    gt_cls_labels gt_offsets out_start out_end = Some (ln', r) ->
  let locs :=
    Losses.batch_locations cfg softmax gt_cls2_labels clip_cls_logits fpn_masks
      out_cls_logits out_offsets gt_cls_labels gt_offsets out_start out_end in
  let n := inject_Z (Z.of_nat (Nat.max (Losses.num_pos locs) 1)) in
  0 < ln' /\ Num.qmin loss_normalizer n <= ln' /\ ln' <= Num.qmax loss_normalizer n.
Proof.
  intros H0 H1 Hln Hrun locs n. unfold Losses.losses in Hrun.
  apply losses_at_inv in Hrun as (-> & _ & _). fold locs.
  destruct (update_normalizer_between cfg loss_normalizer locs H0 H1) as [Hlo Hhi].
  fold n in Hlo, Hhi. pose proof (max_num_pos_ge_1 locs) as Hn. fold n in Hn.
  split; [|split]; [|exact Hlo|exact Hhi].
  revert Hlo. unfold Num.qmin. destruct (Qle_bool loss_normalizer n); lra.
Qed.

Lemma loss_normalizer_stays_positive_witness :
  exists ln' r,
    Losses.sample_losses 1 = Some (ln', r)
    /\ 0 < ln' /\ Num.qmin 1 1 <= ln' /\ ln' <= Num.qmax 1 1.
Proof.
  destruct (Losses.sample_losses 1) as [[ln' r]|] eqn:E;
    [|vm_compute in E; discriminate].
  exists ln', r. split; [reflexivity|].
  unfold Losses.sample_losses in E.
  refine (loss_normalizer_stays_positive _ _ _ _ _ _ _ _ _ _ _ _ _ _ _ _ _ _ _ _ _ E).
  - apply Qle_bool_iff. vm_compute. reflexivity.
  - apply Qle_bool_iff. vm_compute. reflexivity.
  - reflexivity.
Defined.

(** X12.  Without a positive location the regression term is absent from the
    final loss, whatever the loss weight: the final loss is 0.3 times the
    classification loss plus 0.4 times the clip loss. *)
Theorem final_loss_without_positives
    cfg softmax focal_none focal_sum giou diou_sum (loss_normalizer : Q)
    gt_cls2_labels clip_cls_logits fpn_masks out_cls_logits out_offsets
    gt_cls_labels gt_offsets out_start out_end ln' r :
  Losses.num_pos
    (Losses.batch_locations cfg softmax gt_cls2_labels clip_cls_logits fpn_masks
       out_cls_logits out_offsets gt_cls_labels gt_offsets out_start out_end) = 0%nat ->
  Losses.losses cfg softmax focal_none focal_sum giou diou_sum loss_normalizer
    gt_cls2_labels clip_cls_logits fpn_masks out_cls_logits out_offsets
    gt_cls_labels gt_offsets out_start out_end = Some (ln', r) ->
  Losses.reg_loss r == 0
  /\ Losses.final_loss r == 0.3 * Losses.cls_loss r + 0.4 * Losses.clip_loss r.
Proof.
  intros Hpos Hrun. unfold Losses.losses in Hrun.
  apply losses_at_inv in Hrun as (_ & Hreg & Hfin).
  rewrite Hpos in Hreg. cbn [Nat.eqb] in Hreg.
  assert (Hz : Losses.reg_loss r == 0) by (rewrite Hreg; ring).
  split; [exact Hz|]. rewrite Hfin.
  match goal with |- context [Losses.reg_loss r * ?w * _] => generalize w end.
  intros w. rewrite Hz. ring.
Qed.

Lemma final_loss_without_positives_witness :
  exists ln' r,
    Losses.sample_losses 0 = Some (ln', r)
    /\ Losses.reg_loss r == 0
    /\ Losses.final_loss r == 0.3 * Losses.cls_loss r + 0.4 * Losses.clip_loss r.
Proof.
  destruct (Losses.sample_losses 0) as [[ln' r]|] eqn:E;
    [|vm_compute in E; discriminate].
  exists ln', r. split; [reflexivity|].
  unfold Losses.sample_losses in E.
  refine (final_loss_without_positives _ _ _ _ _ _ _ _ _ _ _ _ _ _ _ _ _ _ _ E).
  vm_compute. reflexivity.
Defined.

(** X13.  With the automatic weight ([loss_weight] not positive) and a
    regression loss of at least 0.01, the weighted regression term equals
    the classification loss: the final loss is 0.6 times the classification
    loss plus 0.4 times the clip loss, whatever the regression loss is. *)
Theorem final_loss_auto_balanced
    cfg softmax focal_none focal_sum giou diou_sum (loss_normalizer : Q)
    gt_cls2_labels clip_cls_logits fpn_masks out_cls_logits out_offsets
    gt_cls_labels gt_offsets out_start out_end ln' r :
  Losses.train_loss_weight cfg <= 0 ->
  Losses.losses cfg softmax focal_none focal_sum giou diou_sum loss_normalizer
    gt_cls2_labels clip_cls_logits fpn_masks out_cls_logits out_offsets
    gt_cls_labels gt_offsets out_start out_end = Some (ln', r) ->
  0.01 <= Losses.reg_loss r ->
  Losses.reg_loss r * (Losses.cls_loss r / Losses.reg_loss r) == Losses.cls_loss r
  /\ Losses.final_loss r == 0.6 * Losses.cls_loss r + 0.4 * Losses.clip_loss r.
Proof.
  intros Hw Hrun Hreg. unfold Losses.losses in Hrun.
  apply losses_at_inv in Hrun as (_ & _ & Hfin).
  assert (Num.Qltb 0 (Losses.train_loss_weight cfg) = false) as Ew
    by (now apply Qltb_false).
  assert (Num.Qltb (Losses.reg_loss r) 0.01 = false) as Er
    by (now apply Qltb_false).
  rewrite Ew in Hfin. unfold Losses.py_max in Hfin. rewrite Er in Hfin.
  assert (Hnz : ~ Losses.reg_loss r == 0) by lra.
  split; [field; exact Hnz|]. rewrite Hfin. field. exact Hnz.
Qed.

Lemma final_loss_auto_balanced_witness :
  exists ln' r,
    Losses.losses Losses.sample_cfg Losses.sample_softmax Losses.sample_focal_none
      Losses.sample_focal_sum Losses.sample_l1 Losses.sample_l1_sum 1
      [[Losses.sample_clip_row]] [[[Losses.sample_clip_row]]] [[[true]]] [[[[0]]]]
      [[[Losses.sample_offsets]]] [[[1]]] [[(0.5, 1.5)]] [[[[0]]]] [[[[0]]]]
    = Some (ln', r)
    /\ Losses.reg_loss r == 1.005
    /\ Losses.reg_loss r * (Losses.cls_loss r / Losses.reg_loss r) == Losses.cls_loss r
    /\ Losses.final_loss r == 0.6 * Losses.cls_loss r + 0.4 * Losses.clip_loss r.
Proof.
  destruct (Losses.losses Losses.sample_cfg Losses.sample_softmax Losses.sample_focal_none
      Losses.sample_focal_sum Losses.sample_l1 Losses.sample_l1_sum 1
      [[Losses.sample_clip_row]] [[[Losses.sample_clip_row]]] [[[true]]] [[[[0]]]]
      [[[Losses.sample_offsets]]] [[[1]]] [[(0.5, 1.5)]] [[[[0]]]] [[[[0]]]])
    as [[ln' r]|] eqn:E; [|vm_compute in E; discriminate].
  exists ln', r. split; [reflexivity|].
  assert (Hreg : Losses.reg_loss r == 1.005).
  { vm_compute in E. inversion E; subst. apply Qeq_bool_iff. vm_compute. reflexivity. }
  split; [exact Hreg|].
  refine (final_loss_auto_balanced _ _ _ _ _ _ _ _ _ _ _ _ _ _ _ _ _ _ _ E _).
  - apply Qle_bool_iff. vm_compute. reflexivity.
  - rewrite Hreg. apply Qle_bool_iff. vm_compute. reflexivity.
Defined.

(** ** Training losses: the offsets handed to the IoU losses *)

Lemma combine_app_same {A B : Type} (a1 a2 : list A) (b1 b2 : list B) :
  length a1 = length b1 ->
  combine (a1 ++ a2) (b1 ++ b2) = combine a1 b1 ++ combine a2 b2.
Proof.
  revert b1. induction a1 as [|x a1 IH]; intros [|y b1] H; simpl in *;
    try discriminate; [reflexivity|].
  f_equal. apply IH. now injection H.
Qed.

Lemma in_combine_nth {A B : Type} (l1 : list A) (l2 : list B) (a : A) (b : B) :
  In (a, b) (combine l1 l2) ->
  exists j, nth_error l1 j = Some a /\ nth_error l2 j = Some b.
Proof.
  revert l2. induction l1 as [|x l1 IH]; intros [|y l2]; simpl; try tauto.
  intros [H|H].
  - inversion H; subst. exists 0%nat. auto.
  - destruct (IH l2 H) as (j & H1 & H2). exists (S j). auto.
Qed.

Lemma filter_nonzero_combine (d : list (Q * Q)) : forall (g : list Q),
  length d = length g ->
  length (List.filter (fun '(_, x) => Losses.nonzero x) (combine d g))
  = length (List.filter Losses.nonzero g).
Proof.
  induction d as [|p d IH]; intros [|x g] H; simpl in *; try discriminate; [reflexivity|].
  destruct (Losses.nonzero x); simpl; rewrite IH by (now injection H); reflexivity.
Qed.

Section LossSelection.

(** The predicted and the target offsets that one positive location
    contributes with the Trident head. *)
Let pred_of (l : Losses.location) : list (Q * Q) :=
  map fst (List.filter (fun '(_, g) => Losses.nonzero g)
             (combine (Losses.l_decoded l) (Losses.l_gt_cls l))).
Let gt_of (l : Losses.location) : list (Q * Q) :=
  map (fun _ => Losses.l_gt_offset l) (List.filter Losses.nonzero (Losses.l_gt_cls l)).

Lemma pred_gt_same_length (l : Losses.location) :
  length (Losses.l_decoded l) = length (Losses.l_gt_cls l) ->
  length (pred_of l) = length (gt_of l).
Proof.
  intros H. unfold pred_of, gt_of. rewrite !length_map.
  now apply filter_nonzero_combine.
Qed.

(** The selected offsets, location by location. *)
Lemma combine_selected (locs : list Losses.location) :
  Forall (fun l => length (Losses.l_decoded l) = length (Losses.l_gt_cls l)) locs ->
  combine (concat (map pred_of locs)) (concat (map gt_of locs))
  = concat (map (fun l => combine (pred_of l) (gt_of l)) locs).
Proof.
  induction 1 as [|l locs Hl _ IH]; simpl; [reflexivity|].
  rewrite combine_app_same by (now apply pred_gt_same_length). now rewrite IH.
Qed.

(** What one location contributes: decoded offsets of classes that are set
    in its target, each beside the target offset of the location. *)
Lemma selected_pair_of_location (l : Losses.location) (p g : Q * Q) :
  In (p, g) (combine (pred_of l) (gt_of l)) ->
  g = Losses.l_gt_offset l
  /\ exists c x, nth_error (Losses.l_decoded l) c = Some p
                 /\ nth_error (Losses.l_gt_cls l) c = Some x /\ ~ x == 0.
Proof.
  intros H. split.
  - apply in_combine_r in H. unfold gt_of in H.
    apply in_map_iff in H as (x & Hx & _). now symmetry.
  - apply in_combine_l in H. unfold pred_of in H.
    apply in_map_iff in H as ([p' x] & Hp & Hin). simpl in Hp. subst p'.
    apply filter_In in Hin as [Hin Hnz].
    apply in_combine_nth in Hin as (c & H1 & H2).
    exists c, x. split; [exact H1|]. split; [exact H2|].
    unfold Losses.nonzero in Hnz. apply negb_true_iff in Hnz.
    now apply Qeq_bool_neq in Hnz.
Qed.

Lemma selected_offsets_spec (cfg : Losses.loss_cfg) (locs : list Losses.location) :
  Losses.use_trident_head cfg = true ->
  Forall (fun l => length (Losses.l_decoded l) = length (Losses.l_gt_cls l)) locs ->
  length (Losses.pred_offsets cfg locs) = length (Losses.gt_offsets_sel cfg locs)
  /\ forall p g,
       In (p, g) (combine (Losses.pred_offsets cfg locs) (Losses.gt_offsets_sel cfg locs)) ->
       exists l, In l locs /\ Losses.pos_mask l = true
                 /\ g = Losses.l_gt_offset l
                 /\ exists c x, nth_error (Losses.l_decoded l) c = Some p
                                /\ nth_error (Losses.l_gt_cls l) c = Some x /\ ~ x == 0.
Proof.
  intros Et Hdec. unfold Losses.pred_offsets, Losses.gt_offsets_sel. rewrite Et.
  change (fun l : Losses.location =>
            map (fun _ : Q => Losses.l_gt_offset l)
              (List.filter Losses.nonzero (Losses.l_gt_cls l))) with gt_of.
  change (fun l : Losses.location =>
            map fst (List.filter (fun '(_, g) => Losses.nonzero g)
                       (combine (Losses.l_decoded l) (Losses.l_gt_cls l)))) with pred_of.
  assert (Hp : Forall (fun l => length (Losses.l_decoded l) = length (Losses.l_gt_cls l))
                   (List.filter Losses.pos_mask locs)).
  { apply List.Forall_forall. intros l Hl. apply filter_In in Hl as [Hl _].
    rewrite List.Forall_forall in Hdec. auto. }
  split.
  - clear Hdec. induction Hp as [|l pos Hl _ IH]; simpl; [reflexivity|].
    rewrite !length_app, IH. f_equal. now apply pred_gt_same_length.
  - intros p g Hin. rewrite (combine_selected _ Hp) in Hin.
    apply in_concat in Hin as (chunk & Hchunk & Hin).
    apply in_map_iff in Hchunk as (l & <- & Hl).
    apply filter_In in Hl as [Hl Hpos].
    apply selected_pair_of_location in Hin as [Hg Hc].
    exists l. auto.
Qed.

End LossSelection.

(** X14.  With the Trident head, in a run of [losses] that returns and in which
    every location has one decoded offset pair per class, the predicted
    offsets and the target offsets selected for the IoU losses are equally
    many and are paired location by location: every pair that the IoU
    losses compare holds the decoded offset of a positive location for a
    class that is set in the target of that location, beside the target
    offset of the same location. *)
Theorem selected_offsets_paired_by_location
    cfg softmax focal_none focal_sum giou diou_sum (loss_normalizer : Q)
    gt_cls2_labels clip_cls_logits fpn_masks out_cls_logits out_offsets
    gt_cls_labels gt_offsets out_start out_end ln' r :
  let locs :=
    Losses.batch_locations cfg softmax gt_cls2_labels clip_cls_logits fpn_masks
      out_cls_logits out_offsets gt_cls_labels gt_offsets out_start out_end in
  Losses.losses cfg softmax focal_none focal_sum giou diou_sum loss_normalizer
    gt_cls2_labels clip_cls_logits fpn_masks out_cls_logits out_offsets
    gt_cls_labels gt_offsets out_start out_end = Some (ln', r) ->
  Losses.use_trident_head cfg = true ->
  Forall (fun l => length (Losses.l_decoded l) = length (Losses.l_gt_cls l)) locs ->
  length (Losses.pred_offsets cfg locs) = length (Losses.gt_offsets_sel cfg locs)
  /\ forall p g,
       In (p, g) (combine (Losses.pred_offsets cfg locs) (Losses.gt_offsets_sel cfg locs)) ->
       exists l, In l locs /\ Losses.pos_mask l = true
                 /\ g = Losses.l_gt_offset l
                 /\ exists c x, nth_error (Losses.l_decoded l) c = Some p
                                /\ nth_error (Losses.l_gt_cls l) c = Some x /\ ~ x == 0.
Proof.
  intros locs _ Et Hdec. now apply selected_offsets_spec.
Qed.

Lemma selected_offsets_paired_by_location_witness :
  exists ln' r,
    Losses.sample_losses 1 = Some (ln', r)
    /\ let locs := Losses.sample_locations 1 in
       length (Losses.pred_offsets Losses.sample_cfg locs)
       = length (Losses.gt_offsets_sel Losses.sample_cfg locs)
       /\ forall p g,
            In (p, g) (combine (Losses.pred_offsets Losses.sample_cfg locs)
                               (Losses.gt_offsets_sel Losses.sample_cfg locs)) ->
            exists l, In l locs /\ Losses.pos_mask l = true
                      /\ g = Losses.l_gt_offset l
                      /\ exists c x, nth_error (Losses.l_decoded l) c = Some p
                                     /\ nth_error (Losses.l_gt_cls l) c = Some x /\ ~ x == 0.
Proof.
  destruct (Losses.sample_losses 1) as [[ln' r]|] eqn:E.
  - exists ln', r. split; [reflexivity|].
    unfold Losses.sample_losses in E.
    apply (selected_offsets_paired_by_location _ _ _ _ _ _ _ _ _ _ _ _ _ _ _ _ _ _ E).
    + reflexivity.
    + vm_compute. repeat constructor.
  - vm_compute in E. discriminate.
Defined.

(** ** Offset decoding on exact numbers *)

(** [torch.matmul(dis, range_idx)] is the sum of the products. *)
Lemma matmul_row_from (l : list (Q * Q)) : forall acc : Q,
  fold_left (fun acc '(p, i) => e_add acc (e_mul p i)) l acc
  == acc + Num.qsum (map (fun '(p, i) => p * i) l).
Proof.
  induction l as [|[p i] l IH]; intros acc; simpl.
  - ring.
  - rewrite IH. fold (Num.qsum (map (fun '(p, i) => p * i) l)). ring.
Qed.

Lemma matmul_row_sum (dis idx : list Q) :
  matmul_row dis idx == Num.qsum (map (fun '(p, i) => p * i) (combine dis idx)).
Proof. unfold matmul_row. rewrite matmul_row_from. simpl. ring. Qed.

(** A weighted sum of indices in [[0, N]] with non-negative weights lies
    between 0 and [N] times the sum of the weights. *)
Lemma weighted_sum_bounds (N : Q) (dis : list Q) : forall idx : list Q,
  length idx = length dis ->
  Forall (fun p => 0 <= p) dis -> Forall (fun i => 0 <= i /\ i <= N) idx ->
  0 <= Num.qsum (map (fun '(p, i) => p * i) (combine dis idx))
  /\ Num.qsum (map (fun '(p, i) => p * i) (combine dis idx)) <= N * Num.qsum dis.
Proof.
  induction dis as [|p dis IH]; intros [|i idx] Hlen Hp Hi; simpl in *;
    try discriminate; [lra|].
  inversion Hp as [|? ? Hp0 Hp']; subst. inversion Hi as [|? ? [Hi0 Hi1] Hi']; subst.
  destruct (IH idx) as [H0 H1]; [now injection Hlen | assumption | assumption |].
  fold (Num.qsum dis). fold (Num.qsum (map (fun '(p, i) => p * i) (combine dis idx))).
  split; nra.
Qed.

Lemma range_idx_bounds (n k : nat) :
  (k < n)%nat ->
  0 <= inject_Z (Z.of_nat k) /\ inject_Z (Z.of_nat k) <= inject_Z (Z.of_nat (n - 1)).
Proof.
  intros H. change 0 with (inject_Z 0). rewrite <- !Zle_Qle. lia.
Qed.

Lemma left_range_idx_bounds (n : nat) :
  Forall (fun i : Q => 0 <= i /\ i <= inject_Z (Z.of_nat (n - 1))) (left_range_idx n).
Proof.
  unfold left_range_idx. apply List.Forall_forall. intros i Hi.
  apply in_map_iff in Hi as (k & <- & Hk). apply in_rev, in_seq in Hk.
  apply range_idx_bounds. lia.
Qed.

Lemma right_range_idx_bounds (n : nat) :
  Forall (fun i : Q => 0 <= i /\ i <= inject_Z (Z.of_nat (n - 1))) (right_range_idx n).
Proof.
  unfold right_range_idx. apply List.Forall_forall. intros i Hi.
  apply in_map_iff in Hi as (k & <- & Hk). apply in_seq in Hk.
  apply range_idx_bounds. lia.
Qed.

(** Exact numbers are never NaN: the masking leaves a distribution as it is. *)
Lemma masked_fill_exact (x : list Q) : forall y : list Q,
  length y = length x -> masked_fill x (isnan_row y) = x.
Proof.
  unfold masked_fill, isnan_row.
  induction x as [|v x IH]; intros [|w y] H; simpl in *; try discriminate; [reflexivity|].
  f_equal. apply IH. now injection H.
Qed.

(** X15.  When both bin distributions are probability vectors over
    [num_bins + 1] bins, as a softmax without NaN returns them, the decoded
    left and right offsets lie between 0 and [num_bins]. *)
Theorem decoded_offsets_within_bins (num_bins : nat) (pred_left_dis pred_right_dis : list Q) :
  length pred_left_dis = S num_bins -> length pred_right_dis = S num_bins ->
  Forall (fun p => 0 <= p) pred_left_dis -> Num.qsum pred_left_dis == 1 ->
  Forall (fun p => 0 <= p) pred_right_dis -> Num.qsum pred_right_dis == 1 ->
  let left := fst (decode_dis pred_left_dis pred_right_dis) in
  let right := snd (decode_dis pred_left_dis pred_right_dis) in
  (0 <= left /\ left <= inject_Z (Z.of_nat num_bins))
  /\ (0 <= right /\ right <= inject_Z (Z.of_nat num_bins)).
Proof.
  intros Hl Hr Hpl Hsl Hpr Hsr. cbv zeta. unfold decode_dis. cbn [fst snd].
  rewrite (masked_fill_exact pred_left_dis pred_right_dis) by congruence.
  rewrite (masked_fill_exact pred_right_dis pred_right_dis) by reflexivity.
  rewrite !matmul_row_sum, Hl.
  pose proof (weighted_sum_bounds (inject_Z (Z.of_nat (S num_bins - 1)))
                pred_left_dis (left_range_idx (S num_bins))) as HL.
  pose proof (weighted_sum_bounds (inject_Z (Z.of_nat (S num_bins - 1)))
                pred_right_dis (right_range_idx (S num_bins))) as HR.
  replace (S num_bins - 1)%nat with num_bins in * by lia.
  destruct HL as [HL0 HL1];
    [unfold left_range_idx; now rewrite length_map, length_rev, length_seq
    | assumption
    | pose proof (left_range_idx_bounds (S num_bins)) as Hb;
      replace (S num_bins - 1)%nat with num_bins in Hb by lia; exact Hb |].
  destruct HR as [HR0 HR1];
    [unfold right_range_idx; now rewrite length_map, length_seq
    | assumption
    | pose proof (right_range_idx_bounds (S num_bins)) as Hb;
      replace (S num_bins - 1)%nat with num_bins in Hb by lia; exact Hb |].
  rewrite Hsl in HL1. rewrite Hsr in HR1. split; split; lra.
Qed.

Lemma decoded_offsets_within_bins_witness :
  let left := fst (decode_dis [0.25; 0.75; 0] [0; 0.5; 0.5]) in
  let right := snd (decode_dis [0.25; 0.75; 0] [0; 0.5; 0.5]) in
  (0 <= left /\ left <= inject_Z (Z.of_nat 2))
  /\ (0 <= right /\ right <= inject_Z (Z.of_nat 2)).
Proof.
  apply (decoded_offsets_within_bins 2 [0.25; 0.75; 0] [0; 0.5; 0.5]);
    try reflexivity; repeat constructor; discriminate.
Defined.

(** A one-hot row picks one entry out of a weighted sum. *)
Lemma one_hot_sum (k : nat) (idx : list Q) : forall s : nat,
  Num.qsum (map (fun '(p, i) => p * i)
              (combine (map (fun c => Num.of_bool (c =? k)%nat) (seq s (length idx))) idx))
  == if (s <=? k)%nat then nth (k - s) idx 0 else 0.
Proof.
  induction idx as [|i idx IH]; intros s; simpl.
  - destruct (s <=? k)%nat; [destruct (k - s)%nat|]; reflexivity.
  - fold (Num.qsum (map (fun '(p, i) => p * i)
            (combine (map (fun c => Num.of_bool (c =? k)%nat) (seq (S s) (length idx))) idx))).
    rewrite IH. destruct (Nat.eqb_spec s k) as [->|Hne].
    + rewrite Nat.leb_refl, Nat.sub_diag.
      assert ((S k <=? k)%nat = false) as -> by (apply Nat.leb_gt; lia).
      simpl. ring.
    + destruct (Nat.leb_spec s k) as [Hle|Hgt].
      * assert ((S s <=? k)%nat = true) as -> by (apply Nat.leb_le; lia).
        replace (k - s)%nat with (S (k - S s)) by lia. simpl. ring.
      * assert ((S s <=? k)%nat = false) as -> by (apply Nat.leb_gt; lia).
        simpl. ring.
Qed.

(** X16.  The left head counts its bins backwards: a left distribution
    concentrated on bin [k] decodes to the offset [num_bins - k], a right
    distribution concentrated on bin [j] to the offset [j]. *)
Theorem decode_dis_one_hot (num_bins k j : nat) :
  (k <= num_bins)%nat -> (j <= num_bins)%nat ->
  let dis := decode_dis (one_hot_row (S num_bins) k) (one_hot_row (S num_bins) j) in
  fst dis == inject_Z (Z.of_nat (num_bins - k)) /\ snd dis == inject_Z (Z.of_nat j).
Proof.
  intros Hk Hj. cbv zeta. unfold decode_dis. cbn [fst snd].
  assert (Hlen : forall c, length (one_hot_row (S num_bins) c) = S num_bins)
    by (intros c; unfold one_hot_row; now rewrite length_map, length_seq).
  rewrite (masked_fill_exact (one_hot_row (S num_bins) k)) by (now rewrite !Hlen).
  rewrite (masked_fill_exact (one_hot_row (S num_bins) j)) by reflexivity.
  rewrite !matmul_row_sum, Hlen. unfold one_hot_row.
  assert (HL : length (left_range_idx (S num_bins) : list Q) = S num_bins)
    by (unfold left_range_idx; now rewrite length_map, length_rev, length_seq).
  assert (HR : length (right_range_idx (S num_bins) : list Q) = S num_bins)
    by (unfold right_range_idx; now rewrite length_map, length_seq).
  split.
  - rewrite <- HL at 1. rewrite one_hot_sum. cbn [Nat.leb]. rewrite Nat.sub_0_r.
    unfold left_range_idx.
    change (0 : Q) with (e_of_nat (A := Q) 0) at 1. rewrite map_nth.
    rewrite rev_nth by (rewrite length_seq; lia).
    rewrite length_seq, seq_nth by lia. simpl e_of_nat.
    replace (0 + (S num_bins - S k))%nat with (num_bins - k)%nat by lia. reflexivity.
  - rewrite <- HR at 1. rewrite one_hot_sum. cbn [Nat.leb]. rewrite Nat.sub_0_r.
    unfold right_range_idx.
    change (0 : Q) with (e_of_nat (A := Q) 0) at 1. rewrite map_nth.
    rewrite seq_nth by lia. reflexivity.
Qed.

Lemma decode_dis_one_hot_witness :
  let dis := decode_dis (one_hot_row 17 16) (one_hot_row 17 3) in
  fst dis == inject_Z (Z.of_nat (16 - 16)) /\ snd dis == inject_Z (Z.of_nat 3).
Proof. apply (decode_dis_one_hot 16 16 3); lia. Defined.

(** *** Neighbour windows *)

Lemma nth_window {A : Type} (d : A) (n t j : nat) (l : list A) :
  (j < n)%nat -> nth j (firstn n (skipn t l)) d = nth (t + j) l d.
Proof.
  intros Hj. revert l. induction t as [|t IH]; intros l; simpl.
  - revert n l Hj. induction j as [|j IHj]; intros [|n] [|x l] Hj; simpl;
      try reflexivity; try lia.
    apply IHj. lia.
  - destruct l as [|x l]; simpl; [|apply IH].
    rewrite firstn_nil. now destruct j.
Qed.

(** X17.  The windows built with [F.pad] and [as_strided]: there is one window
    of [num_bins + 1] logits per location; the window of the start head at
    location [t] holds the logits of the locations [t - num_bins] to [t]
    and the window of the end head those of [t] to [t + num_bins], with
    zeros for the locations outside the sequence. *)
Theorem neighbour_windows {A : Type} `{Elt A} (num_bins : nat) (x : list A) (t j : nat) :
  (t < length x)%nat -> (j <= num_bins)%nat ->
  length (start_neighbours num_bins x) = length x
  /\ length (end_neighbours num_bins x) = length x
  /\ length (nth t (start_neighbours num_bins x) []) = S num_bins
  /\ length (nth t (end_neighbours num_bins x) []) = S num_bins
  /\ nth j (nth t (start_neighbours num_bins x) []) e_zero
     = (if (t + j <? num_bins)%nat then e_zero else nth (t + j - num_bins) x e_zero)
  /\ nth j (nth t (end_neighbours num_bins x) []) e_zero = nth (t + j) x e_zero.
Proof.
  intros Ht Hj. unfold start_neighbours, end_neighbours.
  rewrite !length_map, !length_seq.
  set (fs := fun t => firstn (S num_bins) (skipn t (repeat e_zero num_bins ++ x))).
  set (fe := fun t => firstn (S num_bins) (skipn t (x ++ repeat e_zero num_bins))).
  rewrite (nth_indep (map fs _) [] (fs 0%nat)) by (rewrite length_map, length_seq; exact Ht).
  rewrite (nth_indep (map fe _) [] (fe 0%nat)) by (rewrite length_map, length_seq; exact Ht).
  rewrite !map_nth, !seq_nth by exact Ht. simpl Nat.add. unfold fs, fe.
  split; [reflexivity|]. split; [reflexivity|].
  split; [rewrite length_firstn, length_skipn, length_app, repeat_length; lia|].
  split; [rewrite length_firstn, length_skipn, length_app, repeat_length; lia|].
  rewrite !nth_window by lia. split.
  - destruct (Nat.ltb_spec (t + j) num_bins) as [Hlt|Hge].
    + rewrite app_nth1 by (rewrite repeat_length; exact Hlt).
      now rewrite nth_repeat_lt.
    + rewrite app_nth2 by (rewrite repeat_length; exact Hge).
      now rewrite repeat_length.
  - destruct (Nat.lt_ge_cases (t + j) (length x)) as [Hlt|Hge].
    + now rewrite app_nth1.
    + rewrite app_nth2 by exact Hge. rewrite (nth_overflow x) by exact Hge.
      destruct (Nat.lt_ge_cases (t + j - length x) num_bins).
      * now rewrite nth_repeat_lt.
      * rewrite nth_overflow by (rewrite repeat_length; assumption). reflexivity.
Qed.

Lemma neighbour_windows_witness :
  length (start_neighbours 2 [1; 2; 3]) = 3%nat
  /\ length (end_neighbours 2 [1; 2; 3]) = 3%nat
  /\ length (nth 1 (start_neighbours 2 [1; 2; 3]) []) = 3%nat
  /\ length (nth 1 (end_neighbours 2 [1; 2; 3]) []) = 3%nat
  /\ nth 0 (nth 1 (start_neighbours 2 [1; 2; 3]) []) 0
     = (if (1 + 0 <? 2)%nat then 0 else nth (1 + 0 - 2) [1; 2; 3] 0)
  /\ nth 0 (nth 1 (end_neighbours 2 [1; 2; 3]) []) 0 = nth (1 + 0) [1; 2; 3] 0.
Proof.
  refine (neighbour_windows (A := Q) 2 [1; 2; 3] 1 0 _ _); simpl; lia.
Defined.

(** ** The feature fusion: shapes, signs, a second pass, missing keys *)

Section FusionMore.
Variables fc_feats fc_clip_feats : linear.

Let fused := concatenated_feats fc_feats fc_clip_feats.

(** A record whose ['concatenated_feats'] already holds its fused features. *)
Let settled (video : gmap string value) : Prop :=
  exists c, video !! "concatenated_feats" = Some (VMat c) /\ fused video = Some c.

Lemma fuse_video_inv (ref : nat) (h h1 : gmap nat (gmap string value)) :
  fuse_video fc_feats fc_clip_feats ref h = Some h1 ->
  exists video c,
    h !! ref = Some video /\ fused video = Some c
    /\ h1 = <[ref := <["concatenated_feats" := VMat c]> video]> h.
Proof.
  unfold fuse_video, fused. intros H.
  destruct (h !! ref) as [video|]; [|discriminate].
  destruct (concatenated_feats fc_feats fc_clip_feats video) as [c|] eqn:E; [|discriminate].
  inversion H. eauto.
Qed.

Lemma fuse_video_settles (ref : nat) (h h1 : gmap nat (gmap string value)) :
  fuse_video fc_feats fc_clip_feats ref h = Some h1 ->
  (exists video, h1 !! ref = Some video /\ settled video)
  /\ forall r video, h !! r = Some video -> settled video ->
       exists video', h1 !! r = Some video' /\ settled video'.
Proof.
  intros H. apply fuse_video_inv in H as (video & c & Hv & Hc & ->). split.
  - exists (<["concatenated_feats" := VMat c]> video).
    rewrite lookup_insert_eq. split; [reflexivity|]. exists c.
    rewrite lookup_insert_eq. split; [reflexivity|].
    unfold fused. now rewrite concatenated_feats_insert.
  - intros r video' Hr Hs. destruct (Nat.eq_dec r ref) as [->|Hne].
    + rewrite Hv in Hr. inversion Hr; subst video'.
      exists (<["concatenated_feats" := VMat c]> video).
      rewrite lookup_insert_eq. split; [reflexivity|]. exists c.
      rewrite lookup_insert_eq. split; [reflexivity|].
      unfold fused. now rewrite concatenated_feats_insert.
    + exists video'. rewrite lookup_insert_ne by congruence. auto.
Qed.

Lemma fuse_features_settles (video_list : list nat) :
  forall (h h' : gmap nat (gmap string value)),
  fuse_features fc_feats fc_clip_feats video_list h = Some h' ->
  (forall r video, h !! r = Some video -> settled video ->
     exists video', h' !! r = Some video' /\ settled video')
  /\ forall ref, In ref video_list -> exists video, h' !! ref = Some video /\ settled video.
Proof.
  induction video_list as [|r rest IH]; intros h h' H; simpl in H.
  - inversion H; subst. split; [eauto | intros ref []].
  - destruct (fuse_video fc_feats fc_clip_feats r h) as [h1|] eqn:E1; [|discriminate].
    destruct (fuse_video_settles r h h1 E1) as [(v1 & Hv1 & Hs1) Hkeep1].
    destruct (IH h1 h' H) as [Hkeep Hin]. split.
    + intros r0 video Hr0 Hs. destruct (Hkeep1 r0 video Hr0 Hs) as (v' & Hv' & Hs').
      eauto.
    + intros ref [<-|Href]; [eauto | auto].
Qed.

Lemma fuse_features_fixed (video_list : list nat) (h : gmap nat (gmap string value)) :
  (forall ref, In ref video_list -> exists video, h !! ref = Some video /\ settled video) ->
  fuse_features fc_feats fc_clip_feats video_list h = Some h.
Proof.
  induction video_list as [|r rest IH]; intros Hok; simpl; [reflexivity|].
  destruct (Hok r (or_introl eq_refl)) as (video & Hv & c & Hc & Hf).
  rewrite (fuse_video_some fc_feats fc_clip_feats r h video c Hv Hf).
  rewrite (insert_id video "concatenated_feats" (VMat c) Hc).
  rewrite (insert_id h r video Hv).
  apply IH. intros ref Href. apply Hok. now right.
Qed.

End FusionMore.

(** X18.  A second pass of the loop of [forward] over the same list leaves the
    records as the first pass left them: ['concatenated_feats'] is computed
    from ['feats'] and ['clip_feats'] again and overwritten with an equal
    value. *)
Theorem forward_fusion_idempotent fc_feats fc_clip_feats video_list
    (h h' : gmap nat (gmap string value)) :
  fuse_features fc_feats fc_clip_feats video_list h = Some h' ->
  fuse_features fc_feats fc_clip_feats video_list h' = Some h'.
Proof.
  intros H. apply fuse_features_fixed.
  now apply (fuse_features_settles fc_feats fc_clip_feats video_list h h').
Qed.

Lemma forward_fusion_idempotent_witness :
  exists h',
    fuse_features sample_fc_feats sample_fc_clip [7%nat; 7%nat] sample_store = Some h'
    /\ fuse_features sample_fc_feats sample_fc_clip [7%nat; 7%nat] h' = Some h'.
Proof.
  eexists. split; [reflexivity|].
  apply (forward_fusion_idempotent sample_fc_feats sample_fc_clip [7%nat; 7%nat]
           sample_store).
  reflexivity.
Defined.

(** *** Shapes *)

(** A 2-D tensor of shape [(rows, cols)]. *)
Lemma transpose_shape (m : list (list Q)) (rows cols : nat) :
  length m = rows -> Forall (fun row => length row = cols) m -> (0 < rows)%nat ->
  length (Forward.transpose m) = cols
  /\ Forall (fun row => length row = rows) (Forward.transpose m).
Proof.
  intros Hr Hc Hpos. unfold Forward.transpose.
  destruct m as [|r0 m]; [simpl in Hr; lia|].
  inversion Hc as [|? ? Hc0 _]; subst. cbn [hd].
  rewrite length_map, length_seq. split; [reflexivity|].
  apply List.Forall_forall. intros row Hrow.
  apply in_map_iff in Hrow as (j & <- & _). now rewrite length_map.
Qed.

Lemma transpose_nonneg (m : list (list Q)) :
  Forall (Forall (fun x => 0 <= x)) m ->
  Forall (Forall (fun x => 0 <= x)) (Forward.transpose m).
Proof.
  intros H. unfold Forward.transpose. apply List.Forall_forall. intros row Hrow.
  apply in_map_iff in Hrow as (j & <- & _).
  apply List.Forall_forall. intros x Hx. apply in_map_iff in Hx as (r & <- & Hr).
  rewrite List.Forall_forall in H. specialize (H r Hr).
  destruct (Nat.lt_ge_cases j (length r)) as [Hlt|Hge].
  - rewrite List.Forall_forall in H. apply H. now apply nth_In.
  - rewrite nth_overflow by exact Hge. lra.
Qed.

Lemma residual_relu_row_inv (fc : linear) (x y : list Q) :
  residual_relu_row fc x = Some y ->
  length x = in_features fc /\ length y = length x /\ Forall (fun v => 0 <= v) y.
Proof.
  unfold residual_relu_row, linear_row.
  destruct (length x =? in_features fc)%nat eqn:E1; [|discriminate].
  destruct (length (map _ (combine (weight fc) (bias fc))) =? length x)%nat eqn:E2;
    [|discriminate].
  intros H. inversion H. apply Nat.eqb_eq in E1, E2.
  split; [exact E1|]. split.
  - rewrite length_map, length_combine, E2. apply Nat.min_id.
  - apply List.Forall_forall. intros v Hv. apply in_map_iff in Hv as ([a b] & <- & _).
    unfold Num.qmax. destruct (Qle_bool (a + b) 0) eqn:Ev; [lra|].
    apply Qle_bool_false in Ev. lra.
Qed.

Lemma residual_relu_inv (fc : linear) (x : list (list Q)) : forall y,
  residual_relu fc x = Some y ->
  length y = length x
  /\ Forall (fun row => length row = in_features fc) x
  /\ Forall (fun row => length row = in_features fc) y
  /\ Forall (Forall (fun v => 0 <= v)) y.
Proof.
  induction x as [|row x IH]; intros y H; simpl in H.
  - inversion H. repeat split; constructor.
  - destruct (residual_relu_row fc row) as [r|] eqn:E1; [|discriminate].
    destruct (residual_relu fc x) as [rs|] eqn:E2; [|discriminate].
    inversion H; subst. destruct (IH rs eq_refl) as (H1 & H2 & H3 & H4).
    apply residual_relu_row_inv in E1 as (L1 & L2 & L3).
    simpl. repeat split; try constructor; auto; congruence.
Qed.

(** X19.  The fused features of a video with primary features of shape
    [(C1, T)] and clip features of shape [(C2, T2)]: the widths are those of
    the two layers, the lengths in time agree, the result has shape
    [(C1 + C2, T)] and, coming out of a ReLU, no negative entry. *)
Theorem fused_features_shape_and_sign
    fc_feats fc_clip_feats video feats clip_feats c (C1 C2 T T2 : nat) :
  get_mat video "feats" = Some feats ->
  get_mat video "clip_feats" = Some clip_feats ->
  length feats = C1 -> Forall (fun row => length row = T) feats ->
  length clip_feats = C2 -> Forall (fun row => length row = T2) clip_feats ->
  (0 < C1)%nat -> (0 < C2)%nat -> (0 < T)%nat -> (0 < T2)%nat ->
  concatenated_feats fc_feats fc_clip_feats video = Some c ->
  C1 = in_features fc_feats /\ C2 = in_features fc_clip_feats /\ T2 = T
  /\ length c = (C1 + C2)%nat
  /\ Forall (fun row => length row = T /\ Forall (fun x => 0 <= x) row) c.
Proof.
  intros Hf Hg HC1 HT HC2 HT2 P1 P2 P3 P4. unfold concatenated_feats.
  rewrite Hf, Hg. cbv zeta.
  destruct (residual_relu fc_feats (Forward.transpose feats)) as [fm|] eqn:E1;
    [|discriminate].
  destruct (residual_relu fc_clip_feats (Forward.transpose clip_feats)) as [gm|] eqn:E2;
    [|discriminate].
  destruct (transpose_shape feats C1 T HC1 HT P1) as [F1 F2].
  destruct (transpose_shape clip_feats C2 T2 HC2 HT2 P2) as [G1 G2].
  apply residual_relu_inv in E1 as (A1 & A2 & A3 & A4).
  apply residual_relu_inv in E2 as (B1 & B2 & B3 & B4).
  rewrite F1 in A1. rewrite G1 in B1.
  assert (EC1 : C1 = in_features fc_feats).
  { destruct (Forward.transpose feats) as [|r0 tf]; [simpl in F1; lia|].
    inversion F2; inversion A2; subst. congruence. }
  assert (EC2 : C2 = in_features fc_clip_feats).
  { destruct (Forward.transpose clip_feats) as [|r0 tf]; [simpl in G1; lia|].
    inversion G2; inversion B2; subst. congruence. }
  rewrite <- EC1 in A3. rewrite <- EC2 in B3.
  destruct (transpose_shape fm T C1 A1 A3 P3) as [M1 M2].
  destruct (transpose_shape gm T2 C2 B1 B3 P4) as [N1 N2].
  pose proof (transpose_nonneg fm A4) as M3. pose proof (transpose_nonneg gm B4) as N3.
  destruct (Forward.transpose fm) as [|m0 tm] eqn:Em; [simpl in M1; lia|].
  destruct (Forward.transpose gm) as [|n0 tn] eqn:En; [simpl in N1; lia|].
  cbn [hd]. inversion M2 as [|? ? Hm0 _]; subst. inversion N2 as [|? ? Hn0 _]; subst.
  rewrite Hn0. destruct (length m0 =? length gm)%nat eqn:Eq; [|discriminate].
  apply Nat.eqb_eq in Eq. intros H. inversion H; subst c. clear H.
  split; [exact EC1|]. split; [exact EC2|]. split; [congruence|].
  change (m0 :: tm ++ n0 :: tn) with ((m0 :: tm) ++ (n0 :: tn)).
  split; [rewrite length_app; congruence|].
  apply Forall_app. split.
  - apply List.Forall_forall. intros row Hrow.
    rewrite List.Forall_forall in M2, M3. split; [now apply M2 | now apply M3].
  - apply List.Forall_forall. intros row Hrow.
    rewrite List.Forall_forall in N2, N3. split; [rewrite (N2 row Hrow); congruence | now apply N3].
Qed.

Lemma fused_features_shape_and_sign_witness :
  2%nat = in_features sample_fc_feats /\ 1%nat = in_features sample_fc_clip
  /\ 3%nat = 3%nat
  /\ length [[2; 0; 0]; [1; 1; 1]; [2; 0; 0]] = (2 + 1)%nat
  /\ Forall (fun row => length row = 3%nat /\ Forall (fun x => 0 <= x) row)
       [[2; 0; 0]; [1; 1; 1]; [2; 0; 0]].
Proof.
  apply (fused_features_shape_and_sign sample_fc_feats sample_fc_clip sample_video
           [[1; -2; 0]; [0; 1; 3]] [[1; 0; -1]] [[2; 0; 0]; [1; 1; 1]; [2; 0; 0]]
           2 1 3 3);
    try reflexivity; try lia; repeat constructor.
Defined.

(** X20.  The loop of [forward] raises a [KeyError] when a record of the list
    lacks ['feats'] or ['clip_feats']. *)
Theorem forward_missing_features fc_feats fc_clip_feats video_list :
  forall (h : gmap nat (gmap string value)) ref video,
  In ref video_list -> h !! ref = Some video ->
  video !! "feats" = None \/ video !! "clip_feats" = None ->
  fuse_features fc_feats fc_clip_feats video_list h = None.
Proof.
  induction video_list as [|r rest IH]; intros h ref video Hin Hv Hmiss; [destruct Hin|].
  simpl. destruct (Nat.eq_dec r ref) as [->|Hne].
  - unfold fuse_video. rewrite Hv.
    assert (concatenated_feats fc_feats fc_clip_feats video = None) as ->; [|reflexivity].
    unfold concatenated_feats, get_mat.
    destruct Hmiss as [-> | ->]; [reflexivity|].
    destruct (video !! "feats") as [[]|]; reflexivity.
  - destruct Hin as [Heq|Hin]; [congruence|].
    destruct (fuse_video fc_feats fc_clip_feats r h) as [h1|] eqn:E; [|reflexivity].
    apply fuse_video_inv in E as (v & c & _ & _ & ->).
    apply (IH _ ref video Hin); [|exact Hmiss].
    now rewrite lookup_insert_ne.
Qed.

Lemma forward_missing_features_witness :
  fuse_features sample_fc_feats sample_fc_clip [7%nat; 8%nat]
    (<[8%nat := delete "clip_feats" sample_video]> sample_store) = None.
Proof.
  apply (forward_missing_features sample_fc_feats sample_fc_clip [7%nat; 8%nat] _
           8%nat (delete "clip_feats" sample_video)).
  - right. now left.
  - apply lookup_insert_eq.
  - right. apply lookup_delete_eq.
Defined.

(** ** The feature pyramid checks of [__init__] *)

Lemma div_factor_loop_spec (L : Z) (levels : list (Z * Z)) : forall m0 m : Z,
  Config.div_factor_loop L levels m0 = Some m ->
  (m0 <= m)%Z
  /\ (m = m0 \/ exists s w, In (s, w) levels /\ m = Config.level_stride s w)
  /\ forall s w, In (s, w) levels ->
       Config.level_stride s w <> 0%Z
       /\ (L mod Config.level_stride s w = 0)%Z
       /\ (Config.level_stride s w <= m)%Z.
Proof.
  induction levels as [|[s w] rest IH]; intros m0 m H; simpl in H.
  - inversion H; subst. split; [lia|]. split; [now left | intros s w []].
  - destruct (Z.eqb_spec (Config.level_stride s w) 0) as [|Hnz]; [discriminate|].
    destruct (Z.eqb_spec (L mod Config.level_stride s w) 0) as [Hdiv|]; [|discriminate].
    apply IH in H as (Hle & Hwhich & Hall).
    destruct (Z.ltb_spec m0 (Config.level_stride s w)) as [Hlt|Hge].
    + split; [lia|]. split.
      * destruct Hwhich as [->|(s' & w' & Hin & ->)].
        -- right. exists s, w. split; [now left | reflexivity].
        -- right. exists s', w'. split; [now right | reflexivity].
      * intros s' w' [Heq|Hin]; [inversion Heq; subst; auto | auto].
    + split; [exact Hle|]. split.
      * destruct Hwhich as [->|(s' & w' & Hin & ->)]; [now left|].
        right. exists s', w'. split; [now right | reflexivity].
      * intros s' w' [Heq|Hin]; [inversion Heq; subst; repeat split; auto; lia | auto].
Qed.

Lemma init_inv scale_factor fpn_start_level arch_last regression_range max_seq_len
    n_mha_win_size p :
  Config.init scale_factor fpn_start_level arch_last regression_range max_seq_len
    n_mha_win_size = Some p ->
  Config.p_fpn_strides p = Config.fpn_strides scale_factor fpn_start_level arch_last
  /\ length (Config.p_fpn_strides p) = length regression_range
  /\ Config.mha_win_size n_mha_win_size arch_last = Some (Config.p_mha_win_size p)
  /\ Config.p_max_seq_len p = max_seq_len
  /\ Config.div_factor_loop max_seq_len
       (combine (Config.p_fpn_strides p) (Config.p_mha_win_size p)) 1
     = Some (Config.p_max_div_factor p).
Proof.
  unfold Config.init.
  destruct (Nat.eqb_spec (length (Config.fpn_strides scale_factor fpn_start_level arch_last))
              (length regression_range)) as [Hlen|]; [|discriminate].
  destruct (Config.mha_win_size n_mha_win_size arch_last) as [wins|]; [|discriminate].
  destruct (Config.div_factor_loop _ _ 1) as [m|] eqn:E; [|discriminate].
  intros H. inversion H; subst. simpl. auto.
Qed.

(** X21.  When [__init__] passes its checks, [max_seq_len] is a multiple of the
    stride of every level (the product of the FPN stride and the even
    window size) and of [max_div_factor], and [max_div_factor] is at least 1
    and at least every level's stride. *)
Theorem init_divisibility scale_factor fpn_start_level arch_last regression_range
    max_seq_len n_mha_win_size p :
  Config.init scale_factor fpn_start_level arch_last regression_range max_seq_len
    n_mha_win_size = Some p ->
  (1 <= Config.p_max_div_factor p)%Z
  /\ (max_seq_len mod Config.p_max_div_factor p = 0)%Z
  /\ length (Config.p_fpn_strides p) = length regression_range
  /\ forall s w, In (s, w) (combine (Config.p_fpn_strides p) (Config.p_mha_win_size p)) ->
       Config.level_stride s w <> 0%Z
       /\ (max_seq_len mod Config.level_stride s w = 0)%Z
       /\ (Config.level_stride s w <= Config.p_max_div_factor p)%Z.
Proof.
  intros H. apply init_inv in H as (_ & Hlen & _ & _ & Hloop).
  apply div_factor_loop_spec in Hloop as (Hle & Hwhich & Hall).
  split; [exact Hle|]. split; [|split; [exact Hlen | exact Hall]].
  destruct Hwhich as [->|(s & w & Hin & ->)]; [apply Z.mod_1_r|].
  now apply Hall.
Qed.

Lemma init_divisibility_witness :
  exists p,
    Config.init 2 0 5 Config.sample_ranges 2304 Config.sample_windows = Some p
    /\ Config.p_max_div_factor p = 288%Z
    /\ (1 <= Config.p_max_div_factor p)%Z
    /\ (2304 mod Config.p_max_div_factor p = 0)%Z
    /\ length (Config.p_fpn_strides p) = length Config.sample_ranges
    /\ forall s w, In (s, w) (combine (Config.p_fpn_strides p) (Config.p_mha_win_size p)) ->
         Config.level_stride s w <> 0%Z
         /\ (2304 mod Config.level_stride s w = 0)%Z
         /\ (Config.level_stride s w <= Config.p_max_div_factor p)%Z.
Proof.
  eexists. split; [reflexivity|]. split; [reflexivity|].
  apply (init_divisibility 2 0 5 Config.sample_ranges 2304 Config.sample_windows).
  reflexivity.
Defined.

Lemma level_stride_monotone (s s' w : Z) :
  (0 <= s <= s')%Z -> (Config.level_stride s w <= Config.level_stride s' w)%Z.
Proof.
  intros H. unfold Config.level_stride. destruct (Z.ltb_spec 1 w) as [Hw|Hw]; [|lia].
  assert (0 <= w / 2)%Z by (apply Z.div_pos; lia). nia.
Qed.

Lemma level_stride_ge (s w : Z) : (1 <= s)%Z -> (1 <= Config.level_stride s w)%Z.
Proof.
  intros H. unfold Config.level_stride. destruct (Z.ltb_spec 1 w) as [Hw|Hw]; [|lia].
  assert (1 <= w / 2)%Z by (apply Z.div_le_lower_bound; lia). nia.
Qed.

(** X22.  With one window size for all levels and a scale factor of at least 1,
    [max_div_factor] is the stride of the coarsest level:
    [scale_factor ** backbone_arch[-1]], times the even window size
    [(w // 2) * 2] when the window is larger than 1. *)
Theorem max_div_factor_is_coarsest_stride scale_factor fpn_start_level arch_last
    regression_range max_seq_len w p :
  Config.init scale_factor fpn_start_level arch_last regression_range max_seq_len
    (Config.WinInt w) = Some p ->
  (1 <= scale_factor)%Z -> (fpn_start_level <= arch_last)%nat ->
  Config.p_max_div_factor p
  = Config.level_stride (scale_factor ^ Z.of_nat arch_last) w.
Proof.
  intros H Hs Hl. apply init_inv in H as (Hstr & _ & Hwin & _ & Hloop).
  simpl in Hwin. inversion Hwin as [Hw]. rewrite <- Hw, Hstr in Hloop. clear Hwin Hw.
  apply div_factor_loop_spec in Hloop as (Hle & Hwhich & Hall).
  assert (Hlevels : forall s w', In (s, w')
            (combine (Config.fpn_strides scale_factor fpn_start_level arch_last)
                     (repeat w (S arch_last))) ->
            w' = w /\ exists i, (i <= arch_last)%nat /\ s = (scale_factor ^ Z.of_nat i)%Z).
  { intros s w' Hin. split.
    - apply in_combine_r in Hin. now apply repeat_spec in Hin.
    - apply in_combine_l in Hin. unfold Config.fpn_strides in Hin.
      apply in_map_iff in Hin as (i & <- & Hi). apply in_seq in Hi.
      exists i. split; [lia | reflexivity]. }
  assert (Hin : In ((scale_factor ^ Z.of_nat arch_last)%Z, w)
            (combine (Config.fpn_strides scale_factor fpn_start_level arch_last)
                     (repeat w (S arch_last)))).
  { rewrite <- (map_id (combine _ _)).
    apply (map_combine_in (fun x => x) _ _ (arch_last - fpn_start_level)).
    - unfold Config.fpn_strides. rewrite nth_error_map.
      rewrite nth_error_seq.
      destruct (Nat.ltb_spec (arch_last - fpn_start_level) (S arch_last - fpn_start_level));
        [|lia].
      simpl. do 3 f_equal. lia.
    - apply nth_error_repeat. lia. }
  destruct (Hall _ _ Hin) as (_ & _ & Hge).
  assert (H1 : (1 <= scale_factor ^ Z.of_nat arch_last)%Z).
  { assert (0 < scale_factor ^ Z.of_nat arch_last)%Z by (apply Z.pow_pos_nonneg; lia). lia. }
  pose proof (level_stride_ge _ w H1) as Hlast.
  destruct Hwhich as [Hm|(s & w' & Hsw & Hm)]; [lia|]. rewrite Hm in *.
  destruct (Hlevels _ _ Hsw) as (-> & i & Hi & ->).
  apply Z.le_antisymm; [|exact Hge].
  apply level_stride_monotone. split; [apply Z.pow_nonneg; lia|].
  apply Z.pow_le_mono_r; lia.
Qed.

Lemma max_div_factor_is_coarsest_stride_witness :
  exists p,
    Config.init 2 0 5 Config.sample_ranges 2304 (Config.WinInt 9) = Some p
    /\ Config.p_max_div_factor p = 256%Z
    /\ Config.p_max_div_factor p = Config.level_stride (2 ^ Z.of_nat 5) 9.
Proof.
  eexists. split; [reflexivity|]. split; [reflexivity|].
  apply (max_div_factor_is_coarsest_stride 2 0 5 Config.sample_ranges 2304 9);
    [reflexivity | lia | lia].
Defined.

(** ** Batching *)

Lemma length_resize (n : nat) (padding_val : Q) (row : list Q) :
  length (Preprocess.resize n padding_val row) = n.
Proof.
  unfold Preprocess.resize. rewrite length_app, length_firstn, repeat_length. lia.
Qed.

(** A row that is not longer than [n] is kept and filled up. *)
Lemma resize_pads (n : nat) (padding_val : Q) (row : list Q) :
  (length row <= n)%nat ->
  Preprocess.resize n padding_val row = row ++ repeat padding_val (n - length row).
Proof. intros H. unfold Preprocess.resize. now rewrite firstn_all2. Qed.

Lemma fold_left_max_spec (r : list nat) : forall x : nat,
  (x <= fold_left Nat.max r x)%nat
  /\ (forall y, In y r -> (y <= fold_left Nat.max r x)%nat)
  /\ In (fold_left Nat.max r x) (x :: r).
Proof.
  induction r as [|z r IH]; intros x; simpl.
  - split; [lia|]. split; [tauto | now left].
  - destruct (IH (Nat.max x z)) as (H1 & H2 & H3). split; [lia|]. split.
    + intros y [<-|Hy]; [lia | auto].
    + destruct H3 as [H3|H3]; [|simpl; tauto].
      destruct (Nat.max_spec x z) as [[_ E]|[_ E]]; rewrite E in *; simpl; tauto.
Qed.

Lemma max_of_spec (l : list nat) (m : nat) :
  Preprocess.max_of l = Some m -> In m l /\ forall y, In y l -> (y <= m)%nat.
Proof.
  destruct l as [|x r]; [discriminate|]. simpl. intros H. inversion H; subst.
  destruct (fold_left_max_spec r x) as (H1 & H2 & H3). split; [exact H3|].
  intros y [<-|Hy]; auto.
Qed.

(** The mask of a sequence of [len] features in a batch of length [max_len]. *)
Lemma nth_masks (max_len : nat) (feats_lens : list nat) (b len : nat) :
  nth_error feats_lens b = Some len ->
  exists m, nth_error (Preprocess.masks max_len feats_lens) b = Some m
            /\ length m = max_len
            /\ forall t, (t < max_len)%nat -> nth t m false = (t <? len)%nat.
Proof.
  intros H. unfold Preprocess.masks. rewrite nth_error_map, H. simpl.
  eexists. split; [reflexivity|]. split; [now rewrite length_map, length_seq|].
  intros t Ht.
  rewrite (nth_indep _ false ((max_len <? len)%nat)) by (now rewrite length_map, length_seq).
  rewrite (map_nth (fun t => (t <? len)%nat)), seq_nth by exact Ht. reflexivity.
Qed.

Lemma copy_all_nth (C0 max_len : nat) (padding_val : Q) (feats : list (list (list Q))) :
  forall batched, Preprocess.copy_all C0 max_len padding_val feats = Some batched ->
  length batched = length feats
  /\ forall b feat, nth_error feats b = Some feat ->
       exists input, nth_error batched b = Some input
                     /\ Preprocess.copy_into C0 max_len padding_val feat = Some input.
Proof.
  induction feats as [|f feats IH]; intros batched H; simpl in H.
  - inversion H. split; [reflexivity|]. intros [|b] feat Hb; discriminate.
  - destruct (Preprocess.copy_into C0 max_len padding_val f) as [p|] eqn:E1; [|discriminate].
    destruct (Preprocess.copy_all C0 max_len padding_val feats) as [ps|] eqn:E2;
      [|discriminate].
    inversion H; subst. destruct (IH ps eq_refl) as [Hl Hn]. split; [simpl; congruence|].
    intros [|b] feat Hb; simpl in *; [inversion Hb; subst; eauto | auto].
Qed.

Lemma copy_into_shape (C0 max_len : nat) (padding_val : Q) (feat input : list (list Q)) :
  Preprocess.copy_into C0 max_len padding_val feat = Some input ->
  length input = C0 /\ Forall (fun row => length row = max_len) input
  /\ (length feat = C0 -> input = map (Preprocess.resize max_len padding_val) feat).
Proof.
  unfold Preprocess.copy_into.
  destruct (Nat.eqb_spec (length feat) C0) as [HC|HC].
  - intros H. inversion H. split; [now rewrite length_map|]. split; [|reflexivity].
    apply List.Forall_forall. intros row Hrow. apply in_map_iff in Hrow as (r & <- & _).
    apply length_resize.
  - destruct (Nat.eqb_spec (length feat) 1) as [H1|H1]; [|discriminate].
    intros H. inversion H. split; [apply repeat_length|]. split; [|contradiction].
    apply List.Forall_forall. intros row Hrow. apply repeat_spec in Hrow. subst row.
    destruct feat as [|r0 [|]]; try discriminate. simpl. apply length_resize.
Qed.

(** X23.  In training mode [preprocessing] returns one padded tensor and one
    mask per video: no sequence is longer than [max_seq_len], every padded
    tensor has the channels of the first video and [max_seq_len] time steps,
    the mask of a video is true exactly on its own time steps, and a video
    with as many channels as the first one is found unchanged on those time
    steps, followed by [padding_val]. *)
Theorem batch_training_pads_to_max_seq_len
    max_seq_len max_div_factor padding_val feats inputs ms :
  Preprocess.batch true max_seq_len max_div_factor padding_val feats = Some (inputs, ms) ->
  let L := Z.to_nat max_seq_len in
  length inputs = length feats /\ length ms = length feats
  /\ forall b feat, nth_error feats b = Some feat ->
       (Z.of_nat (Preprocess.width feat) <= max_seq_len)%Z
       /\ exists input m,
            nth_error inputs b = Some input /\ nth_error ms b = Some m
            /\ length input = length (hd [] feats)
            /\ Forall (fun row => length row = L) input
            /\ length m = L
            /\ (forall t, (t < L)%nat -> nth t m false = (t <? Preprocess.width feat)%nat)
            /\ (length feat = length (hd [] feats) ->
                Forall (fun row => length row = Preprocess.width feat) feat ->
                input = map (fun row =>
                               row ++ repeat padding_val (L - Preprocess.width feat)) feat).
Proof.
  intros H L. unfold Preprocess.batch in H.
  destruct (Preprocess.max_of (map Preprocess.width feats)) as [max_len|] eqn:Em;
    [|discriminate].
  destruct (Z.leb_spec (Z.of_nat max_len) max_seq_len) as [Hle|]; [|discriminate].
  fold L in H.
  destruct (Preprocess.copy_all (length (hd [] feats)) L padding_val feats)
    as [batched|] eqn:Ec; [|discriminate].
  inversion H; subst inputs ms. clear H.
  destruct (copy_all_nth _ _ _ _ _ Ec) as [Hlen Hnth].
  apply max_of_spec in Em as [_ Hmax].
  split; [exact Hlen|]. split; [unfold Preprocess.masks; now rewrite !length_map|].
  intros b feat Hb.
  assert (Hw : (Preprocess.width feat <= max_len)%nat).
  { apply Hmax. apply in_map. eapply nth_error_In; eauto. }
  split; [lia|].
  destruct (Hnth b feat Hb) as (input & Hin & Hcopy).
  destruct (nth_masks L (map Preprocess.width feats) b (Preprocess.width feat))
    as (m & Hm & Hml & Hmt); [now rewrite nth_error_map, Hb|].
  destruct (copy_into_shape _ _ _ _ _ Hcopy) as (S1 & S2 & S3).
  exists input, m. repeat split; auto.
  intros HC Hrect. rewrite (S3 HC). apply map_ext_in. intros row Hrow.
  rewrite List.Forall_forall in Hrect. rewrite <- (Hrect row Hrow).
  apply resize_pads. rewrite (Hrect row Hrow). unfold L. lia.
Qed.

Lemma batch_training_pads_to_max_seq_len_witness :
  exists inputs ms,
    Preprocess.batch true 4 1 0 Preprocess.sample_feats = Some (inputs, ms)
    /\ inputs = [[[1; 2; 3; 0]; [4; 5; 6; 0]]; [[7; 8; 0; 0]; [9; 10; 0; 0]]]
    /\ ms = [[true; true; true; false]; [true; true; false; false]]
    /\ length inputs = length Preprocess.sample_feats
    /\ length ms = length Preprocess.sample_feats
    /\ forall b feat, nth_error Preprocess.sample_feats b = Some feat ->
         (Z.of_nat (Preprocess.width feat) <= 4)%Z
         /\ exists input m,
              nth_error inputs b = Some input /\ nth_error ms b = Some m
              /\ length input = length (hd [] Preprocess.sample_feats)
              /\ Forall (fun row => length row = Z.to_nat 4) input
              /\ length m = Z.to_nat 4
              /\ (forall t, (t < Z.to_nat 4)%nat ->
                    nth t m false = (t <? Preprocess.width feat)%nat)
              /\ (length feat = length (hd [] Preprocess.sample_feats) ->
                  Forall (fun row => length row = Preprocess.width feat) feat ->
                  input = map (fun row =>
                                 row ++ repeat 0 (Z.to_nat 4 - Preprocess.width feat)) feat).
Proof.
  do 2 eexists. split; [reflexivity|]. split; [reflexivity|]. split; [reflexivity|].
  apply (batch_training_pads_to_max_seq_len 4 1 0 Preprocess.sample_feats).
  reflexivity.
Defined.

Lemma padded_len_spec (max_seq_len stride : Z) (T : nat) :
  (0 < stride)%Z ->
  exists L : Z,
    Preprocess.padded_len max_seq_len stride T = Some L
    /\ (Z.of_nat T <= L)%Z
    /\ ((Z.of_nat T <= max_seq_len)%Z -> L = max_seq_len)
    /\ ((max_seq_len < Z.of_nat T)%Z ->
        (L mod stride = 0)%Z /\ (L < Z.of_nat T + stride)%Z)
    /\ ((max_seq_len mod stride = 0)%Z -> (L mod stride = 0)%Z).
Proof.
  intros Hs. unfold Preprocess.padded_len.
  destruct (Z.leb_spec (Z.of_nat T) max_seq_len) as [Hle|Hgt].
  - exists max_seq_len. repeat split; auto; lia.
  - destruct (Z.eqb_spec stride 0) as [|_]; [lia|].
    eexists. split; [reflexivity|].
    pose proof (Z.mul_div_le (Z.of_nat T + (stride - 1)) stride Hs) as H1.
    pose proof (Z.mul_succ_div_gt (Z.of_nat T + (stride - 1)) stride Hs) as H2.
    assert (Hm : (((Z.of_nat T + (stride - 1)) / stride * stride) mod stride = 0)%Z)
      by (apply Z.mod_mul; lia).
    repeat split; auto; lia.
Qed.

(** [preprocessing] at inference, on one video with a rectangular feature
    tensor and a positive [max_div_factor]. *)
Lemma batch_inference_spec (max_seq_len max_div_factor : Z) (padding_val : Q)
    (feat : list (list Q)) :
  (0 < max_div_factor)%Z ->
  Forall (fun row => length row = Preprocess.width feat) feat ->
  exists (L : nat) (m : list bool),
    Preprocess.batch false max_seq_len max_div_factor padding_val [feat]
    = Some ([map (fun row => row ++ repeat padding_val (L - Preprocess.width feat)) feat],
            [m])
    /\ length m = L
    /\ (forall t, (t < L)%nat -> nth t m false = (t <? Preprocess.width feat)%nat)
    /\ (Preprocess.width feat <= L)%nat
    /\ ((Z.of_nat (Preprocess.width feat) <= max_seq_len)%Z -> Z.of_nat L = max_seq_len)
    /\ ((max_seq_len < Z.of_nat (Preprocess.width feat))%Z ->
        (Z.of_nat L mod max_div_factor = 0)%Z
        /\ (Z.of_nat L < Z.of_nat (Preprocess.width feat) + max_div_factor)%Z)
    /\ ((max_seq_len mod max_div_factor = 0)%Z -> (Z.of_nat L mod max_div_factor = 0)%Z).
Proof.
  intros Hs Hrect.
  destruct (padded_len_spec max_seq_len max_div_factor (Preprocess.width feat) Hs)
    as (L & HL & Hge & Hshort & Hlong & Hdiv).
  destruct (nth_masks (Z.to_nat L) [Preprocess.width feat] 0 (Preprocess.width feat) eq_refl)
    as (m & Hm & Hml & Hmt).
  exists (Z.to_nat L), m. split.
  - unfold Preprocess.batch. cbn [map Preprocess.max_of fold_left length Nat.eqb hd].
    rewrite HL. destruct (Z.ltb_spec L 0) as [|_]; [lia|].
    simpl in Hm. apply (inj Some) in Hm.
    replace (Preprocess.masks (Z.to_nat L) [Preprocess.width feat]) with [m]
      by (unfold Preprocess.masks; simpl; now rewrite Hm).
    do 3 f_equal. apply map_ext_in. intros row Hrow. rewrite List.Forall_forall in Hrect.
    rewrite <- (Hrect row Hrow). apply resize_pads. rewrite (Hrect row Hrow). lia.
  - rewrite Z2Nat.id by lia. repeat split; auto; lia.
Qed.

(** X24.  At inference [preprocessing] pads the only video on the right with
    [padding_val]: to [max_seq_len] when it is not longer, otherwise to the
    least multiple of [max_div_factor] that holds it; the mask is true
    exactly on the time steps of the video. *)
Theorem batch_inference_padded_length max_seq_len max_div_factor padding_val feat :
  (0 < max_div_factor)%Z ->
  Forall (fun row => length row = Preprocess.width feat) feat ->
  exists (L : nat) (m : list bool),
    Preprocess.batch false max_seq_len max_div_factor padding_val [feat]
    = Some ([map (fun row => row ++ repeat padding_val (L - Preprocess.width feat)) feat],
            [m])
    /\ length m = L
    /\ (forall t, (t < L)%nat -> nth t m false = (t <? Preprocess.width feat)%nat)
    /\ (Preprocess.width feat <= L)%nat
    /\ ((Z.of_nat (Preprocess.width feat) <= max_seq_len)%Z -> Z.of_nat L = max_seq_len)
    /\ ((max_seq_len < Z.of_nat (Preprocess.width feat))%Z ->
        (Z.of_nat L mod max_div_factor = 0)%Z
        /\ (Z.of_nat L < Z.of_nat (Preprocess.width feat) + max_div_factor)%Z).
Proof.
  intros Hs Hrect.
  destruct (batch_inference_spec max_seq_len max_div_factor padding_val feat Hs Hrect)
    as (L & m & H1 & H2 & H3 & H4 & H5 & H6 & _).
  exists L, m. auto 10.
Qed.

Lemma batch_inference_padded_length_witness :
  exists (L : nat) (m : list bool),
    Preprocess.batch false 2 4 0 [[[1; 2; 3; 4; 5]; [6; 7; 8; 9; 10]]]
    = Some ([map (fun row => row ++ repeat 0 (L - 5)) [[1; 2; 3; 4; 5]; [6; 7; 8; 9; 10]]],
            [m])
    /\ length m = L
    /\ (forall t, (t < L)%nat -> nth t m false = (t <? 5)%nat)
    /\ (5 <= L)%nat
    /\ ((Z.of_nat 5 <= 2)%Z -> Z.of_nat L = 2%Z)
    /\ ((2 < Z.of_nat 5)%Z ->
        (Z.of_nat L mod 4 = 0)%Z /\ (Z.of_nat L < Z.of_nat 5 + 4)%Z).
Proof.
  apply (batch_inference_padded_length 2 4 0 [[1; 2; 3; 4; 5]; [6; 7; 8; 9; 10]]).
  - lia.
  - repeat constructor.
Defined.

(** X25.  With the [max_seq_len] and the [max_div_factor] of a model that
    passed the checks of [__init__], [preprocessing] at inference returns
    for every video, and the padded length is a multiple of
    [max_div_factor] in either case. *)
Theorem inference_length_multiple_of_max_div_factor
    scale_factor fpn_start_level arch_last regression_range max_seq_len n_mha_win_size p
    padding_val feat :
  Config.init scale_factor fpn_start_level arch_last regression_range max_seq_len
    n_mha_win_size = Some p ->
  Forall (fun row => length row = Preprocess.width feat) feat ->
  exists inputs m,
    Preprocess.batch false (Config.p_max_seq_len p) (Config.p_max_div_factor p)
      padding_val [feat] = Some (inputs, [m])
    /\ (Z.of_nat (Preprocess.width feat) <= Z.of_nat (length m))%Z
    /\ (Z.of_nat (length m) mod Config.p_max_div_factor p = 0)%Z
    /\ Forall (Forall (fun row => length row = length m)) inputs.
Proof.
  intros Hinit Hrect.
  pose proof (init_inv _ _ _ _ _ _ _ Hinit) as (_ & _ & _ & Hmsl & Hloop).
  apply div_factor_loop_spec in Hloop as (Hle & Hwhich & Hall).
  assert (Hdiv : (Config.p_max_seq_len p mod Config.p_max_div_factor p = 0)%Z).
  { rewrite Hmsl. destruct Hwhich as [->|(s & w & Hin & ->)]; [apply Z.mod_1_r|].
    now apply Hall. }
  destruct (batch_inference_spec (Config.p_max_seq_len p) (Config.p_max_div_factor p)
              padding_val feat) as (L & m & H1 & H2 & H3 & H4 & H5 & H6 & H7);
    [lia | exact Hrect |].
  eexists _, m. split; [exact H1|]. rewrite H2. split; [lia|]. split; [auto|].
  constructor; [|constructor]. apply List.Forall_forall. intros row Hrow.
  apply in_map_iff in Hrow as (r & <- & Hr). rewrite List.Forall_forall in Hrect.
  rewrite length_app, repeat_length, (Hrect r Hr). lia.
Qed.

Lemma inference_length_multiple_of_max_div_factor_witness :
  exists p inputs m,
    Config.init 2 0 5 Config.sample_ranges 2304 Config.sample_windows = Some p
    /\ Preprocess.batch false (Config.p_max_seq_len p) (Config.p_max_div_factor p)
         0 [[[1; 2; 3]; [4; 5; 6]]] = Some (inputs, [m])
    /\ (Z.of_nat (Preprocess.width [[1; 2; 3]; [4; 5; 6]]%Q) <= Z.of_nat (length m))%Z
    /\ (Z.of_nat (length m) mod Config.p_max_div_factor p = 0)%Z
    /\ Forall (Forall (fun row => length row = length m)) inputs.
Proof.
  eexists. 
  refine (let H := inference_length_multiple_of_max_div_factor 2 0 5 Config.sample_ranges
                     2304 Config.sample_windows _ 0 [[1; 2; 3]; [4; 5; 6]] eq_refl _ in _).
  destruct H as (inputs & m & H). exists inputs, m. split; [reflexivity | exact H].
  Unshelve. repeat constructor.
Defined.

(** X26.  [preprocessing] raises on an empty list of videos, in training mode
    when a video is longer than [max_seq_len] (the assertion), and at
    inference when the list does not hold exactly one video. *)
Theorem batch_rejects training max_seq_len max_div_factor padding_val feats :
  feats = []
  \/ (training = true
      /\ exists feat, In feat feats /\ (max_seq_len < Z.of_nat (Preprocess.width feat))%Z)
  \/ (training = false /\ length feats <> 1%nat) ->
  Preprocess.batch training max_seq_len max_div_factor padding_val feats = None.
Proof.
  intros [->|[(-> & feat & Hin & Hlong)|(-> & Hlen)]]; unfold Preprocess.batch.
  - reflexivity.
  - destruct (Preprocess.max_of (map Preprocess.width feats)) as [max_len|] eqn:Em;
      [|reflexivity].
    apply max_of_spec in Em as [_ Hmax].
    specialize (Hmax (Preprocess.width feat) (in_map _ _ _ Hin)).
    destruct (Z.leb_spec (Z.of_nat max_len) max_seq_len); [lia | reflexivity].
  - destruct (Preprocess.max_of (map Preprocess.width feats)); [|reflexivity].
    destruct (Nat.eqb_spec (length feats) 1); [contradiction | reflexivity].
Qed.

Lemma batch_rejects_witness :
  Preprocess.batch true 2 1 0 Preprocess.sample_feats = None.
Proof.
  apply batch_rejects. right. left. split; [reflexivity|].
  exists [[1; 2; 3]; [4; 5; 6]]. split; [now left | reflexivity].
Defined.

(** ** Decoding the detections *)

Lemma nth_error_combine {A B : Type} (l1 : list A) (l2 : list B) (j : nat) (a : A) (b : B) :
  nth_error (combine l1 l2) j = Some (a, b) <->
  nth_error l1 j = Some a /\ nth_error l2 j = Some b.
Proof.
  revert l2 j. induction l1 as [|x l1 IH]; intros [|y l2] [|j]; simpl;
    try (split; [discriminate | intros [H1 H2]; discriminate]).
  - split; [intros H; inversion H; auto | intros [H1 H2]; congruence].
  - apply IH.
Qed.

Lemma gather_nth {X : Type} (x : list X) (idxs : list nat) : forall vs,
  Detect.gather x idxs = Some vs ->
  length vs = length idxs
  /\ forall j v, nth_error vs j = Some v ->
       exists i, nth_error idxs j = Some i /\ nth_error x i = Some v.
Proof.
  induction idxs as [|i idxs IH]; intros vs H; simpl in H.
  - inversion H. split; [reflexivity|]. intros [|j] v Hj; discriminate.
  - destruct (nth_error x i) as [v0|] eqn:E1; [|discriminate].
    destruct (Detect.gather x idxs) as [vs0|]; [|discriminate].
    inversion H; subst. destruct (IH vs0 eq_refl) as [Hl Hn].
    split; [simpl; congruence|].
    intros [|j] v Hj; simpl in *; [inversion Hj; subst; eauto | auto].
Qed.

Lemma nth_error_firstn_some {X : Type} (k j : nat) (l : list X) (v : X) :
  nth_error (firstn k l) j = Some v -> (j < k)%nat /\ nth_error l j = Some v.
Proof.
  revert j l. induction k as [|k IH]; intros j [|x l]; simpl;
    try (destruct j; discriminate).
  destruct j as [|j]; simpl; [intros H; split; [lia | exact H]|].
  intros H. apply IH in H as [H1 H2]. split; [lia | exact H2].
Qed.

Section DetectProofs.
Variable cfg : Detect.test_cfg.
Variable sigmoid : Q -> Q.
Variable softmax : list Q -> list Q.
Variable sort_descending : list Q -> list nat.

Lemma offsets_at_nth (decoded : list (list (Q * Q))) (ps : list nat) :
  forall cs os, Detect.offsets_at cfg decoded ps cs = Some os ->
  forall j o, nth_error os j = Some o ->
    exists p c, nth_error ps j = Some p /\ nth_error cs j = Some c
                /\ Detect.offset_at cfg decoded p c = Some o.
Proof.
  induction ps as [|p ps IH]; intros [|c cs] os H j o Hj; simpl in H;
    try (inversion H; subst; destruct j; discriminate).
  destruct (Detect.offset_at cfg decoded p c) as [o0|] eqn:E1; [|discriminate].
  destruct (Detect.offsets_at cfg decoded ps cs) as [os0|] eqn:E2; [|discriminate].
  inversion H; subst. destruct j as [|j]; simpl in *.
  - inversion Hj; subst. eauto.
  - eapply IH; eauto.
Qed.

Lemma keep_above_spec (thresh : Q) (probs : list Q) (i : nat) (v : Q) :
  In (i, v) (Inference.keep_above thresh probs) ->
  nth_error probs i = Some v /\ thresh < v.
Proof.
  unfold Inference.keep_above. intros H. apply filter_In in H as [Hin Hthr].
  apply Qltb_true in Hthr. split; [|exact Hthr].
  apply in_combine_nth in Hin as (j & H1 & H2).
  assert (Hj : (j < length probs)%nat) by (apply nth_error_Some; congruence).
  rewrite nth_error_seq in H1. destruct (Nat.ltb_spec j (length probs)); [|lia].
  simpl in H1. inversion H1; subst. exact H2.
Qed.

(** Where a detection of a level comes from: an entry of the flattened
    scores above the score threshold, the point and the decoded offsets of
    its location, and a segment longer than the duration threshold. *)
Lemma level_detections_inv cls_i clip_i offsets_i pts_i mask_i sb_cls_i eb_cls_i dets :
  Detect.level_detections cfg sigmoid softmax sort_descending
    cls_i clip_i offsets_i pts_i mask_i sb_cls_i eb_cls_i = Some dets ->
  exists probs,
    Inference.pred_prob sigmoid cls_i clip_i mask_i = Some probs
    /\ (length dets <= Detect.test_pre_nms_topk cfg)%nat
    /\ forall seg score c, In (seg, score, c) dets ->
         exists i pt offset,
           nth_error probs i = Some score
           /\ Detect.test_pre_nms_thresh cfg < score
           /\ (Detect.num_classes cfg <> 0)%nat
           /\ c = (i mod Detect.num_classes cfg)%nat
           /\ nth_error pts_i (i / Detect.num_classes cfg) = Some pt
           /\ Detect.offset_at cfg
                (Detect.decode_offset_level cfg softmax offsets_i sb_cls_i eb_cls_i)
                (i / Detect.num_classes cfg) c = Some offset
           /\ seg = Detect.segment_of pt offset
           /\ Detect.test_duration_thresh cfg < snd seg - fst seg.
Proof.
  unfold Detect.level_detections.
  destruct (Inference.pred_prob sigmoid cls_i clip_i mask_i) as [probs|]; [|discriminate].
  set (kept := Inference.keep_above (Detect.test_pre_nms_thresh cfg) probs).
  set (k := Nat.min (Detect.test_pre_nms_topk cfg) (length (map fst kept))).
  set (idxs := sort_descending (map snd kept)).
  destruct (Detect.gather (map snd kept) idxs) as [sorted|] eqn:Es; [|discriminate].
  destruct (Detect.gather (map fst kept) (firstn k idxs)) as [tk|] eqn:Et; [|discriminate].
  destruct ((Detect.num_classes cfg =? 0)%nat && negb (length tk =? 0)%nat) eqn:Ez;
    [discriminate|].
  set (decoded := Detect.decode_offset_level cfg softmax offsets_i sb_cls_i eb_cls_i).
  destruct (Detect.offsets_at cfg decoded _ _) as [os|] eqn:Eo; [|discriminate].
  destruct (Detect.gather pts_i _) as [pts|] eqn:Ep; [|discriminate].
  intros H. inversion H; subst dets. clear H.
  exists probs. split; [reflexivity|].
  destruct (gather_nth _ _ _ Es) as [Ls Hs].
  destruct (gather_nth _ _ _ Et) as [Lt Ht].
  destruct (gather_nth _ _ _ Ep) as [Lp Hp].
  split.
  - eapply Nat.le_trans; [apply filter_length_le|].
    rewrite length_combine, length_map, Lt, length_firstn. unfold k. lia.
  - intros seg score c Hin. apply filter_In in Hin as [Hin Hdur].
    apply Qltb_true in Hdur.
    apply in_combine_nth in Hin as (j & Hj1 & Hc).
    apply nth_error_combine in Hj1 as [Hseg Hscore].
    rewrite nth_error_map in Hc.
    destruct (nth_error tk j) as [i|] eqn:Ei; [|discriminate].
    simpl in Hc. inversion Hc; subst c. clear Hc.
    rewrite nth_error_map in Hseg.
    destruct (nth_error (combine pts os) j) as [[pt o]|] eqn:Epo; [|discriminate].
    simpl in Hseg. inversion Hseg; subst seg. clear Hseg.
    apply nth_error_combine in Epo as [Hpt Ho].
    destruct (Hp j pt Hpt) as (p & Hpj & Hpp).
    rewrite nth_error_map, Ei in Hpj. simpl in Hpj. inversion Hpj; subst p. clear Hpj.
    destruct (offsets_at_nth _ _ _ _ Eo j o Ho) as (p' & c' & Hp' & Hc' & Hoff).
    rewrite nth_error_map, Ei in Hp', Hc'. simpl in Hp', Hc'.
    inversion Hp'; inversion Hc'; subst p' c'. clear Hp' Hc'.
    apply nth_error_firstn_some in Hscore as [Hjk Hscore].
    destruct (Hs j score Hscore) as (q & Hq & Hqs).
    destruct (Ht j i Ei) as (q' & Hq' & Hqf).
    apply nth_error_firstn_some in Hq' as [_ Hq']. rewrite Hq in Hq'.
    inversion Hq'; subst q'. clear Hq'.
    rewrite nth_error_map in Hqs, Hqf.
    destruct (nth_error kept q) as [[i0 v0]|] eqn:Ek; [|discriminate].
    simpl in Hqs, Hqf. inversion Hqs; inversion Hqf; subst i0 v0.
    apply nth_error_In in Ek. apply keep_above_spec in Ek as [Hprob Hthr].
    exists i, pt, o. repeat split; auto.
    intros Hnc. rewrite Hnc in Ez. simpl in Ez.
    destruct tk as [|? ?]; [destruct j; discriminate | discriminate].
Qed.

End DetectProofs.

Section DetectTheorems.
Variable cfg : Detect.test_cfg.
Variable sigmoid : Q -> Q.
Variable softmax : list Q -> list Q.
Variable sort_descending : list Q -> list nat.

(** A level returns at most [pre_nms_topk] detections, each above both
    thresholds and with a class index below [num_classes]. *)
Let good (dets : list Detect.detection) : Prop :=
  (length dets <= Detect.test_pre_nms_topk cfg)%nat
  /\ forall seg score c, In (seg, score, c) dets ->
       Detect.test_pre_nms_thresh cfg < score
       /\ Detect.test_duration_thresh cfg < snd seg - fst seg
       /\ (c < Detect.num_classes cfg)%nat.

Lemma level_detections_good cls_i clip_i offsets_i pts_i mask_i sb_cls_i eb_cls_i dets :
  Detect.level_detections cfg sigmoid softmax sort_descending
    cls_i clip_i offsets_i pts_i mask_i sb_cls_i eb_cls_i = Some dets ->
  good dets.
Proof.
  intros H. apply level_detections_inv in H as (probs & _ & Hk & Hall).
  split; [exact Hk|]. intros seg score c Hin.
  destruct (Hall seg score c Hin) as (i & pt & o & _ & Hthr & Hnc & -> & _ & _ & _ & Hdur).
  split; [exact Hthr|]. split; [exact Hdur|]. now apply Nat.mod_upper_bound.
Qed.

Lemma levels_detections_good cls : forall clip offs points masks lb rb levels,
  Detect.levels_detections cfg sigmoid softmax sort_descending
    cls clip offs points masks lb rb = Some levels ->
  (length levels <= length cls)%nat /\ Forall good levels.
Proof.
  induction cls as [|cls_i cls IH]; intros clip offs points masks lb rb levels H.
  - simpl in H. inversion H. split; [simpl; lia | constructor].
  - destruct clip as [|clip_i clip], offs as [|offsets_i offs], points as [|pts_i points],
      masks as [|mask_i masks], lb as [|sb lb], rb as [|eb rb];
      simpl in H; try (inversion H; split; [simpl; lia | constructor]).
    destruct (Detect.level_detections cfg sigmoid softmax sort_descending
                cls_i clip_i offsets_i pts_i mask_i sb eb) as [d|] eqn:E1; [|discriminate].
    destruct (Detect.levels_detections cfg sigmoid softmax sort_descending
                cls clip offs points masks lb rb) as [ds|] eqn:E2; [|discriminate].
    inversion H; subst. destruct (IH _ _ _ _ _ _ _ E2) as [Hl Hg].
    split; [simpl; lia|]. constructor; [|exact Hg].
    eapply level_detections_good; eauto.
Qed.

Lemma concat_good_length (levels : list (list Detect.detection)) :
  Forall good levels ->
  (length (concat levels) <= length levels * Detect.test_pre_nms_topk cfg)%nat.
Proof.
  induction 1 as [|d ds [Hd _] _ IH]; simpl; [lia|]. rewrite length_app. lia.
Qed.

Lemma results_dict_lookups (dets : list Detect.detection) :
  get_segs (Detect.results_dict dets) "segments"
    = Some (map (fun '(seg, _, _) => seg) dets)
  /\ get_vec (Detect.results_dict dets) "scores"
     = Some (map (fun '(_, score, _) => score) dets)
  /\ get_ints (Detect.results_dict dets) "labels"
     = Some (map (fun '(_, _, label) => label) dets).
Proof.
  unfold Detect.results_dict, get_segs, get_vec, get_ints.
  repeat split; simplify_map_eq; reflexivity.
Qed.

End DetectTheorems.

(** X27.  Every detection that [inference_single_video] returns has a score
    above [pre_nms_thresh], a duration above [duration_thresh] and a class
    index below [num_classes]; segments, scores and labels are equally many,
    at most [pre_nms_topk] per pyramid level. *)
Theorem detections_respect_thresholds cfg sigmoid softmax sort_descending
    cls_logits_per_vid clip_logits_per_vid points fpn_masks out_offsets
    lb_logits_per_vid rb_logits_per_vid results :
  Detect.inference_single_video cfg sigmoid softmax sort_descending
    cls_logits_per_vid clip_logits_per_vid points fpn_masks out_offsets
    lb_logits_per_vid rb_logits_per_vid = Some results ->
  exists segs scores labels,
    get_segs results "segments" = Some segs
    /\ get_vec results "scores" = Some scores
    /\ get_ints results "labels" = Some labels
    /\ length scores = length segs /\ length labels = length segs
    /\ (length segs <= length cls_logits_per_vid * Detect.test_pre_nms_topk cfg)%nat
    /\ Forall (fun seg => Detect.test_duration_thresh cfg < snd seg - fst seg) segs
    /\ Forall (fun score => Detect.test_pre_nms_thresh cfg < score) scores
    /\ Forall (fun label => (label < Detect.num_classes cfg)%nat) labels.
Proof.
  unfold Detect.inference_single_video. intros H.
  destruct (Detect.levels_detections cfg sigmoid softmax sort_descending
              cls_logits_per_vid clip_logits_per_vid out_offsets points fpn_masks
              lb_logits_per_vid rb_logits_per_vid) as [levels|] eqn:E; [|discriminate].
  apply levels_detections_good in E as [Hlen Hgood].
  assert (Hres : results = Detect.results_dict (concat levels))
    by (destruct levels; [discriminate | now inversion H]).
  subst results. clear H.
  destruct (results_dict_lookups (concat levels)) as (L1 & L2 & L3).
  do 3 eexists. split; [exact L1|]. split; [exact L2|]. split; [exact L3|].
  rewrite !length_map. split; [reflexivity|]. split; [reflexivity|].
  split.
  { eapply Nat.le_trans; [apply (concat_good_length cfg), Hgood|].
    apply Nat.mul_le_mono_r. exact Hlen. }
  assert (Hall : forall seg score c, In (seg, score, c) (concat levels) ->
            Detect.test_pre_nms_thresh cfg < score
            /\ Detect.test_duration_thresh cfg < snd seg - fst seg
            /\ (c < Detect.num_classes cfg)%nat).
  { intros seg score c Hin. apply in_concat in Hin as (d & Hd & Hin).
    rewrite List.Forall_forall in Hgood. destruct (Hgood d Hd) as [_ Hg]. now apply Hg. }
  repeat split; apply List.Forall_forall; intros x Hx;
    apply in_map_iff in Hx as ([[seg score] c] & <- & Hin);
    now apply Hall in Hin.
Qed.

Lemma detections_respect_thresholds_witness :
  exists results segs scores labels,
    Detect.inference_single_video Detect.sample_test_cfg Inference.sample_sigmoid
      (fun x => x) Detect.sample_sort
      [Detect.sample_cls] [Detect.sample_clip] [Detect.sample_points] [Detect.sample_mask]
      [Detect.sample_offsets] [[]] [[]] = Some results
    /\ get_segs results "segments" = Some segs
    /\ get_vec results "scores" = Some scores
    /\ get_ints results "labels" = Some labels
    /\ length scores = length segs /\ length labels = length segs
    /\ (length segs <= 1 * Detect.test_pre_nms_topk Detect.sample_test_cfg)%nat
    /\ Forall (fun seg => Detect.test_duration_thresh Detect.sample_test_cfg
                          < snd seg - fst seg) segs
    /\ Forall (fun score => Detect.test_pre_nms_thresh Detect.sample_test_cfg < score) scores
    /\ Forall (fun label => (label < Detect.num_classes Detect.sample_test_cfg)%nat) labels.
Proof.
  eexists.
  refine (let H := detections_respect_thresholds Detect.sample_test_cfg
                     Inference.sample_sigmoid (fun x => x) Detect.sample_sort
                     [Detect.sample_cls] [Detect.sample_clip] [Detect.sample_points]
                     [Detect.sample_mask] [Detect.sample_offsets] [[]] [[]] _ eq_refl in _).
  destruct H as (segs & scores & labels & H). exists segs, scores, labels.
  split; [reflexivity | exact H].
Defined.

(** The scores are flattened location by location: the entry of index [i]
    is the score of the location [i / C] and the class [i mod C]. *)
Lemma pred_prob_nth (sigmoid : Q -> Q) (C : nat) (cls_i : list (list Q)) :
  forall clip_i mask_i probs,
  Inference.pred_prob sigmoid cls_i clip_i mask_i = Some probs ->
  Forall (fun row => length row = C) cls_i ->
  forall i v, nth_error probs i = Some v ->
    exists cls_row x clip_row clip_j m,
      nth_error cls_i (i / C) = Some cls_row /\ nth_error cls_row (i mod C) = Some x
      /\ nth_error clip_i (i / C) = Some clip_row
      /\ Inference.max_row clip_row = Some clip_j
      /\ nth_error mask_i (i / C) = Some m
      /\ v = (0.7 * sigmoid x + 0.3 * sigmoid clip_j) * Num.of_bool m.
Proof.
  induction cls_i as [|cls_row cls' IH]; intros [|clip_row clip'] [|m mask'] probs H Hc i v Hi;
    simpl in H; try discriminate.
  - inversion H; subst. destruct i; discriminate.
  - unfold Inference.combined_prob_row in H.
    destruct (Inference.max_row clip_row) as [clip_j|] eqn:Em; [|discriminate].
    destruct (Inference.pred_prob sigmoid cls' clip' mask') as [rest|] eqn:Er; [|discriminate].
    inversion H; subst probs. clear H.
    inversion Hc as [|? ? Hrow Hc']; subst.
    destruct (Nat.lt_ge_cases i (length cls_row)) as [Hlt|Hge].
    + rewrite nth_error_app1 in Hi by (now rewrite !length_map).
      rewrite !nth_error_map in Hi.
      destruct (nth_error cls_row i) as [x|] eqn:Ex; [|discriminate].
      simpl in Hi. inversion Hi; subst v.
      rewrite Nat.div_small, Nat.mod_small by exact Hlt.
      exists cls_row, x, clip_row, clip_j, m. simpl. auto 10.
    + rewrite nth_error_app2 in Hi by (now rewrite !length_map).
      rewrite !length_map in Hi.
      destruct (IH clip' mask' rest Er Hc' _ _ Hi)
        as (r & x & cr & cj & m' & H1 & H2 & H3 & H4 & H5 & H6).
      assert (Hpos : (length cls_row <> 0)%nat).
      { rewrite List.Forall_forall in Hc'. rewrite <- (Hc' r (nth_error_In _ _ H1)).
        destruct r; [destruct ((i - length cls_row) mod length cls_row)%nat; discriminate|].
        discriminate. }
      assert (Ei : i = (i - length cls_row + 1 * length cls_row)%nat) by lia.
      assert (Ed : (i / length cls_row = S ((i - length cls_row) / length cls_row))%nat).
      { rewrite Ei at 1. rewrite Nat.div_add by exact Hpos. lia. }
      assert (Emod : (i mod length cls_row = (i - length cls_row) mod length cls_row)%nat).
      { rewrite Ei at 1. now rewrite Nat.Div0.mod_add. }
      rewrite Ed, Emod. exists r, x, cr, cj, m'. simpl. auto 10.
Qed.

(** X28.  Where a detection of a level comes from: a location [t] of the level
    that is not masked out (when the score threshold is not negative) and a
    class [c]; its score is 0.7 times the sigmoid of the logit of [(t, c)]
    plus 0.3 times the sigmoid of the largest clip logit at [t], and its
    segment reaches from the point's time minus the decoded left offset
    times the stride to the point's time plus the decoded right offset times
    the stride. *)
Theorem detection_provenance cfg sigmoid softmax sort_descending
    cls_i clip_i offsets_i pts_i mask_i sb_cls_i eb_cls_i dets seg score c :
  Detect.level_detections cfg sigmoid softmax sort_descending
    cls_i clip_i offsets_i pts_i mask_i sb_cls_i eb_cls_i = Some dets ->
  Forall (fun row => length row = Detect.num_classes cfg) cls_i ->
  In (seg, score, c) dets ->
  exists t cls_row x clip_row clip_j m pt offset,
    nth_error cls_i t = Some cls_row /\ nth_error cls_row c = Some x
    /\ nth_error clip_i t = Some clip_row
    /\ In clip_j clip_row /\ (forall y, In y clip_row -> y <= clip_j)
    /\ nth_error mask_i t = Some m
    /\ score == (0.7 * sigmoid x + 0.3 * sigmoid clip_j) * Num.of_bool m
    /\ (0 <= Detect.test_pre_nms_thresh cfg ->
        m = true /\ score == 0.7 * sigmoid x + 0.3 * sigmoid clip_j)
    /\ nth_error pts_i t = Some pt
    /\ Detect.offset_at cfg
         (Detect.decode_offset_level cfg softmax offsets_i sb_cls_i eb_cls_i) t c
       = Some offset
    /\ seg = (pt_t pt - fst offset * pt_stride pt, pt_t pt + snd offset * pt_stride pt).
Proof.
  intros Hrun Hshape Hin.
  apply level_detections_inv in Hrun as (probs & Hprobs & _ & Hall).
  destruct (Hall seg score c Hin)
    as (i & pt & o & Hi & Hthr & Hnc & -> & Hpt & Hoff & -> & _).
  destruct (pred_prob_nth sigmoid _ _ _ _ _ Hprobs Hshape i score Hi)
    as (cls_row & x & clip_row & clip_j & m & H1 & H2 & H3 & H4 & H5 & H6).
  assert (Hne : clip_row <> []) by (intros ->; discriminate).
  destruct (max_row_spec clip_row Hne) as (cj & Hmax & Hcj & Hle).
  rewrite H4 in Hmax. inversion Hmax; subst cj.
  exists (i / Detect.num_classes cfg)%nat, cls_row, x, clip_row, clip_j, m, pt, o.
  repeat split; auto.
  - rewrite H6. reflexivity.
  - destruct m; [reflexivity|]. exfalso. rewrite H6 in Hthr. simpl in Hthr. lra.
  - destruct m; [rewrite H6; simpl; ring|].
    exfalso. rewrite H6 in Hthr. simpl in Hthr. lra.
Qed.

Lemma detection_provenance_witness :
  exists t cls_row x clip_row clip_j m pt offset,
    nth_error Detect.sample_cls t = Some cls_row /\ nth_error cls_row 1 = Some x
    /\ nth_error Detect.sample_clip t = Some clip_row
    /\ In clip_j clip_row /\ (forall y, In y clip_row -> y <= clip_j)
    /\ nth_error Detect.sample_mask t = Some m
    /\ (268000 # 320000) == (0.7 * Inference.sample_sigmoid x + 0.3 * Inference.sample_sigmoid clip_j)
                 * Num.of_bool m
    /\ (0 <= Detect.test_pre_nms_thresh Detect.sample_test_cfg ->
        m = true
        /\ (268000 # 320000) == 0.7 * Inference.sample_sigmoid x + 0.3 * Inference.sample_sigmoid clip_j)
    /\ nth_error Detect.sample_points t = Some pt
    /\ Detect.offset_at Detect.sample_test_cfg
         (Detect.decode_offset_level Detect.sample_test_cfg (fun x => x)
            Detect.sample_offsets [] []) t 1
       = Some offset
    /\ (0, 2.5) = (pt_t pt - fst offset * pt_stride pt, pt_t pt + snd offset * pt_stride pt).
Proof.
  apply (detection_provenance Detect.sample_test_cfg Inference.sample_sigmoid (fun x => x)
           Detect.sample_sort Detect.sample_cls Detect.sample_clip Detect.sample_offsets
           Detect.sample_points Detect.sample_mask [] []
           [(-0.5, 1, 268000 # 320000, 0%nat); (0, 2.5, 268000 # 320000, 1%nat)]
           (0, 2.5) (268000 # 320000) 1%nat).
  - vm_compute. reflexivity.
  - repeat constructor.
  - right. left. reflexivity.
Defined.

(** *** From the detections to the results of [inference] *)

Lemma meta_nth (key : string) (video_list : list (gmap string value)) : forall vs,
  Detect.meta key video_list = Some vs ->
  length vs = length video_list
  /\ forall b v, nth_error vs b = Some v ->
       exists x, nth_error video_list b = Some x /\ x !! key = Some v.
Proof.
  induction video_list as [|x rest IH]; intros vs H; simpl in H.
  - inversion H. split; [reflexivity|]. intros [|b] v Hb; discriminate.
  - destruct (x !! key) as [v0|] eqn:E1; [|discriminate].
    destruct (Detect.meta key rest) as [vs0|]; [|discriminate].
    inversion H; subst. destruct (IH vs0 eq_refl) as [Hl Hn].
    split; [simpl; congruence|].
    intros [|b] v Hb; simpl in *; [inversion Hb; subst; eauto | auto].
Qed.

Lemma meta_missing (key : string) (video_list : list (gmap string value)) x :
  In x video_list -> x !! key = None -> Detect.meta key video_list = None.
Proof.
  induction video_list as [|y rest IH]; simpl; [tauto|].
  intros [->|Hin] Hx.
  - now rewrite Hx.
  - rewrite (IH Hin Hx). destruct (y !! key); reflexivity.
Qed.

Lemma Forall2_of_nth {A B : Type} (P : A -> B -> Prop) (l1 : list A) : forall (l2 : list B),
  length l1 = length l2 ->
  (forall b x y, nth_error l1 b = Some x -> nth_error l2 b = Some y -> P x y) ->
  Forall2 P l1 l2.
Proof.
  induction l1 as [|x l1 IH]; intros [|y l2] Hl Hn; simpl in Hl; try discriminate;
    constructor.
  - apply (Hn 0%nat); reflexivity.
  - apply IH; [now injection Hl|]. intros b x' y' H1 H2. apply (Hn (S b)); assumption.
Qed.

Lemma Forall2_chain {A B C : Type} (P : A -> B -> Prop) (R : B -> C -> Prop)
    (l1 : list A) (l2 : list B) (l3 : list C) :
  Forall2 P l1 l2 -> Forall2 R l2 l3 ->
  Forall2 (fun a c => exists b, P a b /\ R b c) l1 l3.
Proof.
  intros H. revert l3. induction H as [|a b l1 l2 Hab _ IH]; intros l3 H3;
    inversion H3; subst; constructor; eauto.
Qed.

Section InferenceProofs.
Variable cfg : Detect.test_cfg.
Variable sigmoid : Q -> Q.
Variable softmax : list Q -> list Q.
Variable sort_descending : list Q -> list nat.
Variables out_cls_logits clip_cls_logits : list (list (list (list Q))).
Variable points : list (list LabelAssign.point).
Variable fpn_masks : list (list (list bool)).
Variable out_offsets : list (list (list (list Q))).
Variables out_lb_logits out_rb_logits : list (list (list (list Q))).

Let video_result :=
  Detect.video_result cfg sigmoid softmax sort_descending out_cls_logits clip_cls_logits
    points fpn_masks out_offsets out_lb_logits out_rb_logits.
Let video_results :=
  Detect.video_results cfg sigmoid softmax sort_descending out_cls_logits clip_cls_logits
    points fpn_masks out_offsets out_lb_logits out_rb_logits.

(** The record of a video carries the five values of its meta information. *)
Lemma video_result_meta idx vidx fps vlen stride nframes r :
  video_result idx vidx fps vlen stride nframes = Some r ->
  r !! "video_id" = Some vidx /\ r !! "fps" = Some fps /\ r !! "duration" = Some vlen
  /\ r !! "feat_stride" = Some stride /\ r !! "feat_num_frames" = Some nframes.
Proof.
  unfold video_result, Detect.video_result.
  destruct (Detect.per_vid idx out_cls_logits); [|discriminate].
  destruct (Detect.per_vid idx clip_cls_logits); [|discriminate].
  destruct (Detect.per_vid idx out_offsets); [|discriminate].
  destruct (Detect.per_vid idx fpn_masks); [|discriminate].
  destruct (if Detect.use_trident_head cfg then _ else _) as [[lb rb]|]; [|discriminate].
  destruct (Detect.inference_single_video _ _ _ _ _ _ _ _ _ _ _) as [res|]; [|discriminate].
  intros H. inversion H. repeat split; simplify_map_eq; reflexivity.
Qed.

Lemma video_results_nth metas : forall idx rs,
  video_results idx metas = Some rs ->
  length rs = length metas
  /\ forall b r, nth_error rs b = Some r ->
       exists vidx fps vlen stride nframes,
         nth_error metas b = Some (vidx, fps, vlen, stride, nframes)
         /\ video_result (idx + b) vidx fps vlen stride nframes = Some r.
Proof.
  induction metas as [|[[[[vidx fps] vlen] stride] nframes] rest IH]; intros idx rs H;
    simpl in H.
  - inversion H. split; [reflexivity|]. intros [|b] r Hb; discriminate.
  - fold video_result in H. fold video_results in H.
    destruct (video_result idx vidx fps vlen stride nframes) as [r0|] eqn:E1; [|discriminate].
    destruct (video_results (S idx) rest) as [rs0|] eqn:E2; [|discriminate].
    inversion H; subst. destruct (IH _ _ E2) as [Hl Hn]. split; [simpl; congruence|].
    intros [|b] r Hb; simpl in Hb.
    + inversion Hb; subst. exists vidx, fps, vlen, stride, nframes.
      rewrite Nat.add_0_r. auto.
    + destruct (Hn b r Hb) as (v1 & v2 & v3 & v4 & v5 & H1 & H2).
      exists v1, v2, v3, v4, v5. split; [exact H1|].
      replace (idx + S b)%nat with (S idx + b)%nat by lia. exact H2.
Qed.

End InferenceProofs.

(** X29.  The results of [inference] are postprocessed records, one per video
    and in the order of the videos: each has the video's id, holds the four
    keys [video_id], [segments], [scores], [labels] and no other, and its
    segments lie within [[0, duration]] of its video when the duration is
    not negative and the [fps] of the video is not zero (the times are
    divided by [fps]). *)
Theorem inference_results_are_postprocessed
    cfg sigmoid softmax sort_descending out_cls_logits clip_cls_logits points fpn_masks
    out_offsets out_lb_logits out_rb_logits test_nms_method batched_nms video_list outs :
  Detect.inference cfg sigmoid softmax sort_descending out_cls_logits clip_cls_logits
    points fpn_masks out_offsets out_lb_logits out_rb_logits test_nms_method batched_nms
    video_list = Some outs ->
  Forall2 (fun video out =>
             out !! "video_id" = video !! "video_id"
             /\ (forall k, is_Some (out !! k)
                           <-> In k ["video_id"; "segments"; "scores"; "labels"])
             /\ exists vlen fps segs,
                  get_num video "duration" = Some vlen
                  /\ get_num video "fps" = Some fps
                  /\ get_segs out "segments" = Some segs
                  /\ (0 <= vlen -> ~ fps == 0 -> Forall (in_video vlen) segs))
          video_list outs.
Proof.
  unfold Detect.inference. intros H.
  destruct (Detect.meta "video_id" video_list) as [vid_idxs|] eqn:M1; [|discriminate].
  destruct (Detect.meta "fps" video_list) as [vid_fps|] eqn:M2; [|discriminate].
  destruct (Detect.meta "duration" video_list) as [vid_lens|] eqn:M3; [|discriminate].
  destruct (Detect.meta "feat_stride" video_list) as [vid_st|] eqn:M4; [|discriminate].
  destruct (Detect.meta "feat_num_frames" video_list) as [vid_nf|] eqn:M5; [|discriminate].
  destruct (Detect.video_results _ _ _ _ _ _ _ _ _ _ _ 0 _) as [results|] eqn:Er;
    [|discriminate].
  apply meta_nth in M1 as [L1 N1]. apply meta_nth in M2 as [L2 N2].
  apply meta_nth in M3 as [L3 N3]. apply meta_nth in M4 as [L4 N4].
  apply meta_nth in M5 as [L5 N5].
  apply video_results_nth in Er as [Lr Nr].
  apply postprocessing_inv in H.
  assert (Hmeta : Forall2 (fun video r =>
                    r !! "video_id" = video !! "video_id"
                    /\ r !! "duration" = video !! "duration"
                    /\ r !! "fps" = video !! "fps") video_list results).
  { apply Forall2_of_nth.
    - rewrite Lr, !length_combine. lia.
    - intros b video r Hv Hr.
      destruct (Nr b r Hr) as (vidx & fps & vlen & stride & nframes & Hm & Hres).
      apply nth_error_combine in Hm as [Hm _]. apply nth_error_combine in Hm as [Hm _].
      apply nth_error_combine in Hm as [Hm Hlen]. apply nth_error_combine in Hm as [Hid Hfps].
      apply video_result_meta in Hres as (R1 & R2 & R3 & _ & _).
      destruct (N1 b vidx Hid) as (x1 & Hx1 & K1).
      destruct (N2 b fps Hfps) as (x2 & Hx2 & K2).
      destruct (N3 b vlen Hlen) as (x3 & Hx3 & K3).
      rewrite Hv in Hx1, Hx2, Hx3. inversion Hx1; inversion Hx2; inversion Hx3; subst x1 x2 x3.
      rewrite R1, R2, R3, K1, K2, K3. auto. }
  eapply Forall2_impl; [exact (Forall2_chain _ _ _ _ _ Hmeta H)|].
  intros video out (r & (Hid & Hdur & Hfps) & Hpost). simpl in Hpost.
  apply postprocess_video_inv in Hpost
    as (vidx & fps & vlen & stride & nframes & segs & scores & labels
        & H1 & H2 & H3 & _ & _ & _ & _ & _ & ->).
  destruct (repack_lookups vidx
              (to_real_time fps vlen stride nframes
                 (fst (fst (run_nms test_nms_method batched_nms segs scores labels))))
              (snd (fst (run_nms test_nms_method batched_nms segs scores labels)))
              (snd (run_nms test_nms_method batched_nms segs scores labels)))
    as (P1 & P2 & _).
  split; [rewrite P1, <- Hid; exact (eq_sym H1)|]. split; [apply repack_keys|].
  exists vlen, fps, (to_real_time fps vlen stride nframes
                  (fst (fst (run_nms test_nms_method batched_nms segs scores labels)))).
  split; [unfold get_num in *; now rewrite <- Hdur|].
  split; [unfold get_num in *; now rewrite <- Hfps|].
  split; [exact P2|]. intros Hv _. now apply to_real_time_in_video.
Qed.

Lemma inference_results_are_postprocessed_witness :
  exists outs,
    Detect.sample_inference = Some outs
    /\ Forall2 (fun video out =>
                  out !! "video_id" = video !! "video_id"
                  /\ (forall k, is_Some (out !! k)
                                <-> In k ["video_id"; "segments"; "scores"; "labels"])
                  /\ exists vlen fps segs,
                       get_num video "duration" = Some vlen
                       /\ get_num video "fps" = Some fps
                       /\ get_segs out "segments" = Some segs
                       /\ (0 <= vlen -> ~ fps == 0 -> Forall (in_video vlen) segs))
               [Detect.sample_meta_video] outs.
Proof.
  eexists. split; [reflexivity|].
  apply (inference_results_are_postprocessed Detect.sample_test_cfg
           Inference.sample_sigmoid (fun x => x) Detect.sample_sort
           [[Detect.sample_cls]] [[Detect.sample_clip]] [Detect.sample_points]
           [[Detect.sample_mask]] [[Detect.sample_offsets]] [] [] NoNms no_nms
           [Detect.sample_meta_video]).
  reflexivity.
Defined.

(** X30.  [inference] raises before it decodes anything when a video lacks one
    of the keys [video_id], [fps], [duration], [feat_stride],
    [feat_num_frames], and it raises for every non-empty list of videos when
    the model has no pyramid level ([torch.cat] of an empty list). *)
Theorem inference_rejects
    cfg sigmoid softmax sort_descending out_cls_logits clip_cls_logits points fpn_masks
    out_offsets out_lb_logits out_rb_logits test_nms_method batched_nms video_list :
  (exists video k,
     In video video_list
     /\ In k ["video_id"; "fps"; "duration"; "feat_stride"; "feat_num_frames"]
     /\ video !! k = None)
  \/ (video_list <> [] /\ out_cls_logits = []) ->
  Detect.inference cfg sigmoid softmax sort_descending out_cls_logits clip_cls_logits
    points fpn_masks out_offsets out_lb_logits out_rb_logits test_nms_method batched_nms
    video_list = None.
Proof.
  intros [(video & k & Hin & Hk & Hnone)|[Hne ->]]; unfold Detect.inference.
  - pose proof (meta_missing k video_list video Hin Hnone) as Hm.
    simpl in Hk.
    destruct Hk as [<-|[<-|[<-|[<-|[<-|[]]]]]]; rewrite Hm;
      repeat match goal with
             | |- context [match ?m with Some _ => _ | None => _ end] =>
                 destruct m; try reflexivity
             end; reflexivity.
  - destruct (Detect.meta "video_id" video_list) as [v1|] eqn:M1; [|reflexivity].
    destruct (Detect.meta "fps" video_list) as [v2|] eqn:M2; [|reflexivity].
    destruct (Detect.meta "duration" video_list) as [v3|] eqn:M3; [|reflexivity].
    destruct (Detect.meta "feat_stride" video_list) as [v4|] eqn:M4; [|reflexivity].
    destruct (Detect.meta "feat_num_frames" video_list) as [v5|] eqn:M5; [|reflexivity].
    apply meta_nth in M1 as [L1 _]. apply meta_nth in M2 as [L2 _].
    apply meta_nth in M3 as [L3 _]. apply meta_nth in M4 as [L4 _].
    apply meta_nth in M5 as [L5 _].
    destruct video_list as [|x rest]; [congruence|].
    destruct v1 as [|a1 v1], v2 as [|a2 v2], v3 as [|a3 v3], v4 as [|a4 v4],
      v5 as [|a5 v5]; try discriminate.
    cbn [combine Detect.video_results]. unfold Detect.video_result.
    destruct (Detect.per_vid 0 clip_cls_logits); [|reflexivity].
    destruct (Detect.per_vid 0 out_offsets); [|reflexivity].
    destruct (Detect.per_vid 0 fpn_masks); [|reflexivity].
    cbn [Detect.per_vid length repeat].
    destruct (if Detect.use_trident_head cfg then _ else _) as [[lb rb]|]; reflexivity.
Qed.

Lemma inference_rejects_witness :
  Detect.inference Detect.sample_test_cfg Inference.sample_sigmoid (fun x => x)
    Detect.sample_sort [[Detect.sample_cls]] [[Detect.sample_clip]] [Detect.sample_points]
    [[Detect.sample_mask]] [[Detect.sample_offsets]] [] [] NoNms no_nms
    [delete "fps" Detect.sample_meta_video] = None.
Proof.
  apply inference_rejects. left.
  exists (delete "fps" Detect.sample_meta_video), "fps".
  split; [now left|]. split; [simpl; tauto | apply lookup_delete_eq].
Defined.

